(** * Track map construction and start/finish synchronisation (Fast-F1)

    A shallow embedding of [experimental.py] and [testing.py].

    Numbers.  Coordinates, dates and session times are Python/pandas numbers;
    they are embedded as exact rationals [Q] (no NaN, no rounding), so every
    comparison of the source is a decidable comparison here and the
    definitions run.  The only irrational operation of the source, [sqrt] in
    [_integrate_distance], is embedded in the reals [R].

    Exceptions.  Code that can raise returns a [result]: [Ok v] or
    [Raise e] with the Python exception class [e].

    Processes.  The main process and the subprocesses of the solver are a
    transition system: a state holds the three manager queues and the place
    of every process in its code, and a step is one queue operation (or one
    task evaluation) of one process.  A property of all reachable states is a
    property of all interleavings.

    Objects.  Where the source only compares values by [==] or by identity
    ([remove_duplicates], [get_points_between]), they are of an arbitrary
    type with a decidable equality.  A function that pops from the lists of
    its caller returns these lists next to its result. *)

From Stdlib Require Import String.
From Stdlib Require Import List Bool Arith Lia Permutation Sorted.
From Stdlib Require Import QArith Qabs Lqa.
From Stdlib Require Import Reals Qreals Lra.
From Equations Require Import Equations.
From AAC_tactics Require Import AAC.
Import ListNotations.

(** Linear arithmetic over the rationals and over the reals. *)
Ltac qlra := Lqa.lra.
Ltac rlra := Lra.lra.

(* ===================================================================== *)
(** ** Python exceptions and the error monad *)
(* ===================================================================== *)

Inductive exn : Type :=
| IndexError
| ValueError
| KeyError
| AttributeError
| TypeError
| ZeroDivisionError.

Inductive result (A : Type) : Type :=
| Ok (a : A)
| Raise (e : exn).

Arguments Ok {A} a.
Arguments Raise {A} e.

Definition bind {A B : Type} (c : result A) (k : A -> result B) : result B :=
  match c with
  | Ok a => k a
  | Raise e => Raise e
  end.

Notation "x <- c ;; k" := (bind c (fun x => k))
  (at level 61, c at next level, right associativity).
Notation "' pat <- c ;; k" := (bind c (fun x => match x with pat => k end))
  (at level 61, pat pattern, c at next level, right associativity).

(* ===================================================================== *)
(** ** Python built-ins on lists *)
(* ===================================================================== *)

Open Scope Q_scope.

(** [a < b] on numbers, as a boolean. *)
Definition Qltb (a b : Q) : bool := negb (Qle_bool b a).

(** [min(l)]: the first of the smallest elements; [ValueError] on an empty
    sequence. *)
Definition py_min (l : list Q) : result Q :=
  match l with
  | [] => Raise ValueError
  | d :: ds => Ok (fold_left (fun m v => if Qltb v m then v else m) ds d)
  end.

(** [l.index(v)]: the position of the first element equal ([==]) to [v];
    [ValueError] when there is none. *)
Fixpoint py_index (l : list Q) (v : Q) : result nat :=
  match l with
  | [] => Raise ValueError
  | d :: ds =>
      if Qeq_bool d v then Ok 0%nat
      else i <- py_index ds v ;; Ok (S i)
  end.

(** [l.pop(i)] for [i >= 0]: the element at [i] and the list without it;
    [IndexError] when [i] is out of range. *)
Fixpoint py_pop {A : Type} (l : list A) (i : nat) : result (A * list A) :=
  match l, i with
  | [], _ => Raise IndexError
  | a :: l', O => Ok (a, l')
  | a :: l', S i' => '(b, r) <- py_pop l' i' ;; Ok (b, a :: r)
  end.

(** [l[-1]]: the last element; [IndexError] on an empty list. *)
Definition py_last {A : Type} (l : list A) : result A :=
  match rev l with
  | [] => Raise IndexError
  | a :: _ => Ok a
  end.

(** [_iterable.index(min(_iterable))] *)
Definition min_index (l : list Q) : result nat :=
  m <- py_min l ;; py_index l m.

(* ===================================================================== *)
(** ** [TrackPoint] (experimental.py) / [Point] (testing.py) *)
(* ===================================================================== *)

Record TrackPoint : Type := mkTrackPoint {
  x : Q;
  y : Q;
  date : option Q
}.

(** [Point(x, y)] of testing.py and [TrackPoint(x, y)] with [date=None]. *)
Definition Point (px py : Q) : TrackPoint := mkTrackPoint px py None.

Definition get_sqr_dist (self other : TrackPoint) : Q :=
  Qabs (x other - x self) + Qabs (y other - y self).

(* ===================================================================== *)
(** ** Sequencing: [TrackMap._sort_points] *)
(* ===================================================================== *)

(** The attributes of [TrackMap] that sequencing reads and writes. *)
Record SortState : Type := mkSortState {
  unsorted_points : list TrackPoint;
  sorted_points : list TrackPoint;
  excluded_points : list TrackPoint;
  _next_point : TrackPoint
}.

(** One execution of the body of [while self.unsorted_points:].  The body
    is the same text in both files.  [_visualize_sorting_progress] returns at
    once for the default [visualization_frequency=0] and is left out. *)
Definition sort_body (st : SortState) : result SortState :=
  let distances := map (get_sqr_dist (_next_point st)) (unsorted_points st) in
  min_dst <- py_min distances ;;
  index_min <- py_index distances min_dst ;;
  let sorted' :=
    if Qltb 200 min_dst then sorted_points st
    else sorted_points st ++ [_next_point st] in
  let excluded' :=
    if Qltb 200 min_dst then excluded_points st ++ [_next_point st]
    else excluded_points st in
  '(p, rest) <- py_pop (unsorted_points st) index_min ;;
  Ok (mkSortState rest sorted' excluded' p).

(** Each run of the body pops one point: the loop terminates. *)
Lemma py_pop_length (A : Type) (l : list A) i b r :
  py_pop l i = Ok (b, r) -> length l = S (length r).
Proof.
  revert i b r; induction l as [|a l IH]; intros [|i] b r H; simpl in H;
    try discriminate.
  - injection H as <- <-. reflexivity.
  - destruct (py_pop l i) as [[b' r']|e] eqn:E; simpl in H; try discriminate.
    injection H as <- <-. simpl. f_equal. eapply IH; eauto.
Qed.

Lemma sort_body_length st st' :
  sort_body st = Ok st' ->
  length (unsorted_points st) = S (length (unsorted_points st')).
Proof.
  unfold sort_body. intros H.
  destruct (py_min _) as [m|e]; simpl in H; try discriminate.
  destruct (py_index _ _) as [i|e]; simpl in H; try discriminate.
  destruct (py_pop _ _) as [[p rest]|e] eqn:E; simpl in H; try discriminate.
  injection H as <-. simpl. eapply py_pop_length; eauto.
Qed.

Definition inspect {A : Type} (a : A) : {b : A | a = b} := exist _ a eq_refl.

(** [while self.unsorted_points: <body>] *)
Equations? sort_loop (st : SortState) : result SortState
  by wf (length (unsorted_points st)) lt :=
  sort_loop st with inspect (unsorted_points st) := {
    | exist _ [] _ := Ok st
    | exist _ (_ :: _) _ with inspect (sort_body st) := {
        | exist _ (Ok st') Hb := sort_loop st'
        | exist _ (Raise e) _ := Raise e } }.
Proof.
  apply sort_body_length in Hb. lia.
Qed.

(** [n] runs of the body of [while self.unsorted_points:], one after the
    other, from the state [st]. *)
Fixpoint sort_iterations (n : nat) (st : SortState) : result SortState :=
  match n with
  | O => Ok st
  | S n' => st' <- sort_body st ;; sort_iterations n' st'
  end.

(** [self._next_point = self.unsorted_points.pop(0)], with the empty
    [sorted_points] and [excluded_points] of [__init__]. *)
Definition start_state (points : list TrackPoint) : result SortState :=
  '(p, rest) <- py_pop points 0 ;;
  Ok (mkSortState rest [] [] p).

(* ===================================================================== *)
(** ** Arc length: [TrackMap._integrate_distance] (same text in both files) *)
(* ===================================================================== *)

Open Scope R_scope.

(** [sqrt(self.sorted_points[i-1].get_sqr_dist(self.sorted_points[i]))] *)
Definition segment_length (prev cur : TrackPoint) : R :=
  sqrt (Q2R (get_sqr_dist prev cur)).

(** The [for i in range(1, len(self.sorted_points))] loop: [prev] is
    [sorted_points[i-1]], [rest] is [sorted_points[i:]], and the result is
    what the loop appends to [self.distances]. *)
Fixpoint integrate_from (prev : TrackPoint) (rest : list TrackPoint)
    (distance_covered : R) : list R :=
  match rest with
  | [] => []
  | cur :: rest' =>
      let distance_covered' := distance_covered + segment_length prev cur in
      distance_covered' :: integrate_from cur rest' distance_covered'
  end.

(** [self.distances] after the first loop. *)
Definition cumulative_distances (sorted : list TrackPoint) : list R :=
  0 :: match sorted with
       | [] => []
       | first :: rest => integrate_from first rest 0
       end.

(** [a / b] on Python numbers. *)
Definition py_div (a b : R) : result R :=
  if Req_dec_T b 0 then Raise ZeroDivisionError else Ok (a / b).

Fixpoint for_each {A B : Type} (f : A -> result B) (l : list A)
    : result (list B) :=
  match l with
  | [] => Ok []
  | a :: l' => b <- f a ;; bs <- for_each f l' ;; Ok (b :: bs)
  end.

(** Returns [(self.distances, self.distances_normalized)]; both attributes
    are empty lists before the call. *)
Definition _integrate_distance (sorted : list TrackPoint)
    : result (list R * list R) :=
  let distances := cumulative_distances sorted in
  normalized <- for_each (fun dist =>
                  total <- py_last distances ;; py_div dist total) distances ;;
  Ok (distances, normalized).

Close Scope R_scope.

(** [self.track]: the four columns of the data frame. *)
Record Track : Type := mkTrack {
  track_X : list Q;
  track_Y : list Q;
  track_Distance : list R;
  track_Normalized : list R
}.

(** [pd.DataFrame({...})] of four columns: [ValueError] unless all have the
    same length. *)
Definition DataFrame (xvals yvals : list Q) (dist norm : list R)
    : result Track :=
  if (Nat.eqb (length xvals) (length yvals)
      && Nat.eqb (length yvals) (length dist)
      && Nat.eqb (length dist) (length norm))%bool
  then Ok (mkTrack xvals yvals dist norm)
  else Raise ValueError.

(** The part of [generate_track] after sequencing. *)
Definition track_of_sorted (sorted : list TrackPoint) : result Track :=
  '(distances, normalized) <- _integrate_distance sorted ;;
  DataFrame (map x sorted) (map y sorted) distances normalized.

Module Testing.

(** testing.py, [TrackMap._sort_points]. *)
Definition _sort_points (points : list TrackPoint) : result SortState :=
  st <- start_state points ;;
  sort_loop st.

Definition generate_track (points : list TrackPoint) : result Track :=
  st <- _sort_points points ;;
  track_of_sorted (sorted_points st).

End Testing.

Module Experimental.

(** experimental.py, [TrackMap._sort_points]: the loop, then the test of the
    last point against [self.sorted_points[-1]]. *)
Definition _sort_points (points : list TrackPoint) : result SortState :=
  st <- start_state points ;;
  st <- sort_loop st ;;
  last_sorted <- py_last (sorted_points st) ;;
  if Qle_bool (get_sqr_dist (_next_point st) last_sorted) 200
  then Ok (mkSortState (unsorted_points st)
                       (sorted_points st ++ [_next_point st])
                       (excluded_points st) (_next_point st))
  else Ok st.

Definition generate_track (points : list TrackPoint) : result Track :=
  st <- _sort_points points ;;
  track_of_sorted (sorted_points st).

End Experimental.

(* ===================================================================== *)
(** ** Position data and lap data *)
(* ===================================================================== *)

(** One row of a driver's position data frame; only the columns the code
    reads.  [Date] is in seconds. *)
Record PosRow : Type := mkPosRow {
  Date : Q;
  X : Q;
  Y : Q
}.

(** A dict with string keys, in insertion order. *)
Definition dict (V : Type) : Type := list (String.string * V).

(** [d[k]]: [KeyError] when [k] is not a key. *)
Fixpoint getitem {V : Type} (d : dict V) (k : String.string) : result V :=
  match d with
  | [] => Raise KeyError
  | (k', v) :: d' => if String.eqb k' k then Ok v else getitem d' k
  end.

(** [d[k] = v] *)
Fixpoint setitem {V : Type} (d : dict V) (k : String.string) (v : V) : dict V :=
  match d with
  | [] => [(k, v)]
  | (k', v') :: d' =>
      if String.eqb k' k then (k, v) :: d' else (k', v') :: setitem d' k v
  end.

(** [l[i]] for [i >= 0]. *)
Definition py_nth {A : Type} (l : list A) (i : nat) : result A :=
  match nth_error l i with
  | Some a => Ok a
  | None => Raise IndexError
  end.

(** [a / b] on exact numbers. *)
Definition q_div (a b : Q) : result Q :=
  if Qeq_bool b 0 then Raise ZeroDivisionError else Ok (a / b).

(** [keys.argsort()]: the positions of [keys] in ascending order of key.
    pandas leaves the order of equal keys to numpy's sort; here equal keys
    keep their original order. *)
Fixpoint insert_sorted (k : Q) (i : nat) (l : list (Q * nat))
    : list (Q * nat) :=
  match l with
  | [] => [(k, i)]
  | (k', i') :: l' =>
      if Qltb k k' then (k, i) :: (k', i') :: l'
      else (k', i') :: insert_sorted k i l'
  end.

Definition sort_keyed (l : list (Q * nat)) : list (Q * nat) :=
  fold_left (fun acc ki => insert_sorted (fst ki) (snd ki) acc) l [].

Definition argsort (keys : list Q) : list nat :=
  map snd (sort_keyed (combine keys (seq 0 (length keys)))).

(** [frame.iloc[positions]] *)
Definition iloc {A : Type} (frame : list A) (positions : list nat) : list A :=
  flat_map (fun i => match nth_error frame i with
                     | Some r => [r]
                     | None => []
                     end) positions.

(** [TrackMap.interpolate_pos_from_time] *)
Definition interpolate_pos_from_time (_raw_pos_data : dict (list PosRow))
    (drv : String.string) (query_date : Q) : result TrackPoint :=
  drv_pos <- getitem _raw_pos_data drv ;;
  let closest :=
    iloc drv_pos
      (firstn 2 (argsort (map (fun r => Qabs (Date r - query_date)) drv_pos))) in
  c1 <- py_nth closest 1 ;;
  c0 <- py_nth closest 0 ;;
  let delta_t := Date c1 - Date c0 in
  let delta_x := X c1 - X c0 in
  let delta_y := Y c1 - Y c0 in
  let interp_delta_t := query_date - Date c0 in
  dx <- q_div (delta_x * interp_delta_t) delta_t ;;
  let interp_x := X c0 + dx in
  dy <- q_div (delta_y * interp_delta_t) delta_t ;;
  let interp_y := Y c0 + dy in
  Ok (Point interp_x interp_y).

(** [TrackMap.get_closest_point] *)
Definition get_closest_point (sorted : list TrackPoint) (point : TrackPoint)
    : result TrackPoint :=
  let distances := map (fun track_point => get_sqr_dist track_point point)
                       sorted in
  m <- py_min distances ;;
  i <- py_index distances m ;;
  py_nth sorted i.

(** Attribute access [p.<name>] on a [TrackPoint]: the instance attributes
    are [x], [y] and [date]; any other name raises [AttributeError]. *)
Inductive value : Type :=
| Num (q : Q)
| NoneValue.

Definition getattr (p : TrackPoint) (name : String.string) : result value :=
  if String.eqb name "x"%string then Ok (Num (x p))
  else if String.eqb name "y"%string then Ok (Num (y p))
  else if String.eqb name "date"%string then
    Ok (match date p with Some d => Num d | None => NoneValue end)
  else Raise AttributeError.

(** [drv_pos.X = v] and [drv_pos.Y = v]: every entry of the column is set
    to the scalar [v]. *)
Definition set_column_X (v : Q) (frame : list PosRow) : list PosRow :=
  map (fun r => mkPosRow (Date r) v (Y r)) frame.

Definition set_column_Y (v : Q) (frame : list PosRow) : list PosRow :=
  map (fun r => mkPosRow (Date r) (X r) v) frame.

Definition as_number (v : value) : Q :=
  match v with
  | Num q => q
  | NoneValue => 0
  end.

(** [TrackMap.get_time_from_pos].  The method reads and (by the chained
    assignments [is_x = drv_pos.X = ...]) writes the driver's data frame, so
    it returns the position data next to its result.  Python evaluates the
    right-hand side [closest_track_pnt.X] before it assigns.  After both
    assignments [is_closest_pnt] is a number and [drv_pos[is_closest_pnt]]
    looks up a column of that name, which the frame does not have. *)
Definition get_time_from_pos (_raw_pos_data : dict (list PosRow))
    (sorted : list TrackPoint) (drv : String.string) (px py : Q)
    (time_range_start time_range_end : Q)
    : result (option Q) * dict (list PosRow) :=
  match getitem _raw_pos_data drv with
  | Raise e => (Raise e, _raw_pos_data)
  | Ok drv_pos =>
    let pnt := Point px py in
    match get_closest_point sorted pnt with
    | Raise e => (Raise e, _raw_pos_data)
    | Ok closest_track_pnt =>
      match getattr closest_track_pnt "X"%string with
      | Raise e => (Raise e, _raw_pos_data)
      | Ok is_x =>
        let pos1 := setitem _raw_pos_data drv
                      (set_column_X (as_number is_x) drv_pos) in
        match getattr closest_track_pnt "Y"%string with
        | Raise e => (Raise e, pos1)
        | Ok is_y =>
          let pos2 := setitem pos1 drv
                        (set_column_Y (as_number is_y)
                           (set_column_X (as_number is_x) drv_pos)) in
          (Raise KeyError, pos2)
        end
      end
    end
  end.

(* ===================================================================== *)
(** ** [StartFinishCondition.for_driver] *)
(* ===================================================================== *)

(** One row of the laps table; [None] is a null entry (NaN / NaT).  Times
    are in seconds. *)
Record Lap : Type := mkLap {
  Driver : String.string;
  NumberOfLaps : option Q;
  Time : Q;
  LastLapTime : Q;
  PitInTime : option Q;
  PitOutTime : option Q
}.

(** [self.data] of a condition: the shared data set by [set_data]. *)
Record ConditionData : Type := mkConditionData {
  data_track : dict (list PosRow);    (* the [_raw_pos_data] of data['track'] *)
  data_laps : list Lap;
  data_pos : dict (list PosRow);
  data_session_start_date : Q
}.

Definition isnull {A : Type} (v : option A) : bool :=
  match v with
  | None => true
  | Some _ => false
  end.

(** [column.max()], null entries skipped; null when there is none. *)
Definition column_max (l : list (option Q)) : option Q :=
  fold_left (fun acc v =>
               match acc, v with
               | _, None => acc
               | None, Some q => Some q
               | Some m, Some q => if Qltb m q then Some q else Some m
               end) l None.

(** [n in (1, drv_last_lap)] *)
Definition is_first_or_last (n : Q) (drv_last_lap : option Q) : bool :=
  Qeq_bool n 1 ||
  match drv_last_lap with
  | Some m => Qeq_bool n m
  | None => false
  end.

(** The test that makes the loop [continue] at once: first lap, last lap,
    in-lap, out-lap and laps with no lap number. *)
Definition lap_skipped (drv_last_lap : option Q) (lap : Lap) : bool :=
  match NumberOfLaps lap with
  | None => true
  | Some n =>
      is_first_or_last n drv_last_lap
      || negb (isnull (PitInTime lap))
      || negb (isnull (PitOutTime lap))
  end.

(** [TrackPoint(row.X, row.Y, row.Date)] *)
Definition point_of_row (row : PosRow) : TrackPoint :=
  mkTrackPoint (X row) (Y row) (Some (Date row)).

(** [frame.query("@t_start < Date < @t_end")] *)
Definition query_window (t_start t_end : Q) (frame : list PosRow)
    : list PosRow :=
  filter (fun r => Qltb t_start (Date r) && Qltb (Date r) t_end) frame.

(** The four lists the inner loop fills. *)
Record Sides : Type := mkSides {
  pos_distances : list Q;
  neg_distances : list Q;
  pos_points : list TrackPoint;
  neg_points : list TrackPoint
}.

(** The body of [for _, row in pos_range.iterrows():] *)
Definition side_step (test_point : TrackPoint) (s : Sides) (row : PosRow)
    : Sides :=
  let pnt := point_of_row row in
  let dist := get_sqr_dist test_point pnt in
  if Qltb (x pnt) (x test_point)
  then mkSides (pos_distances s ++ [dist]) (neg_distances s)
               (pos_points s ++ [pnt]) (neg_points s)
  else mkSides (pos_distances s) (neg_distances s ++ [dist])
               (pos_points s) (neg_points s ++ [pnt]).

Definition split_sides (test_point : TrackPoint) (pos_range : list PosRow)
    : Sides :=
  fold_left (side_step test_point) pos_range (mkSides [] [] [] []).

Definition is_empty {A : Type} (l : list A) : bool :=
  match l with
  | [] => true
  | _ :: _ => false
  end.

(** [p.date] as a number in arithmetic: [TypeError] on [None]. *)
Definition date_number (p : TrackPoint) : result Q :=
  match date p with
  | Some d => Ok d
  | None => Raise TypeError
  end.

(** From the two bracketing samples to the inferred start-of-lap position:
    the part of the loop body after [p_a] and [p_b] are chosen. *)
Definition lap_start_point (data : ConditionData) (drv : String.string)
    (test_point : TrackPoint) (lap : Lap) (p_a p_b : TrackPoint)
    : result (Q * Q) :=
  date_a <- date_number p_a ;;
  date_b <- date_number p_b ;;
  dt <- q_div ((date_b - date_a) * (x test_point - x p_a)) (x p_b - x p_a) ;;
  let test_date := date_a + dt in
  let last_lap_start := test_date - LastLapTime lap in
  lap_start_point <- interpolate_pos_from_time (data_track data) drv
                       last_lap_start ;;
  Ok (x lap_start_point, y lap_start_point).

(** One pass through the body of [for _, lap in ...iterrows():].  [None]:
    the lap adds nothing to [res_x], [res_y] (a [continue]). *)
Definition for_lap (data : ConditionData) (drv : String.string)
    (test_point : TrackPoint) (drv_last_lap : option Q) (lap : Lap)
    : result (option (Q * Q)) :=
  if lap_skipped drv_last_lap lap then Ok None
  else
    let approx_time := data_session_start_date data + Time lap in
    let delta_t := 10 in
    let t_start := approx_time - delta_t in
    let t_end := approx_time + delta_t in
    drv_pos <- getitem (data_pos data) drv ;;
    let pos_range := query_window t_start t_end drv_pos in
    let s := split_sides test_point pos_range in
    if is_empty (neg_distances s) || is_empty (pos_distances s) then Ok None
    else
      i_a <- min_index (pos_distances s) ;;
      p_a <- py_nth (pos_points s) i_a ;;
      i_b <- min_index (neg_distances s) ;;
      p_b <- py_nth (neg_points s) i_b ;;
      r <- lap_start_point data drv test_point lap p_a p_b ;;
      Ok (Some r).

(** The lap loop, with the result lists built so far. *)
Fixpoint for_laps (data : ConditionData) (drv : String.string)
    (test_point : TrackPoint) (drv_last_lap : option Q) (laps : list Lap)
    (res_x res_y : list Q) : result (list Q * list Q) :=
  match laps with
  | [] => Ok (res_x, res_y)
  | lap :: laps' =>
      r <- for_lap data drv test_point drv_last_lap lap ;;
      match r with
      | None => for_laps data drv test_point drv_last_lap laps' res_x res_y
      | Some (px, py) =>
          for_laps data drv test_point drv_last_lap laps'
                   (res_x ++ [px]) (res_y ++ [py])
      end
  end.

(** [StartFinishCondition.for_driver]; the result is [[res_x, res_y]]. *)
Definition for_driver (data : ConditionData) (drv : String.string)
    (test_point : TrackPoint) : result (list Q * list Q) :=
  let drv_laps := filter (fun lap => String.eqb (Driver lap) drv)
                         (data_laps data) in
  let drv_last_lap := column_max (map NumberOfLaps drv_laps) in
  for_laps data drv test_point drv_last_lap drv_laps [] [].

(* ===================================================================== *)
(** ** The worker pool: [AdvancedSyncSolver] and [SolverSubprocess] *)
(* ===================================================================== *)

(** A task tuple [(c_index, driver, test_point)]. *)
Definition task_args : Type := (nat * String.string * TrackPoint)%type.

(** What travels on the task queue. *)
Inductive task : Type :=
| Work (t : task_args)
| IdleTask         (* 'idle' *)
| ExitTask.        (* 'exit' *)

(** What travels on the resume queue. *)
Inductive command : Type :=
| ResumeCmd        (* 'resume' *)
| ExitCmd.         (* 'exit' *)

(** A results dict: condition index to the pair of lists [[xs, ys]], in
    insertion order. *)
Definition results_dict : Type := list (nat * (list Q * list Q)).

(** [results.get(key)] *)
Fixpoint results_get (results : results_dict) (key : nat)
    : option (list Q * list Q) :=
  match results with
  | [] => None
  | (k, v) :: rest => if Nat.eqb k key then Some v else results_get rest key
  end.

(** [SolverSubprocess.add_result]: a new key takes [data], a known key has
    its two lists extended by the two lists of [data]. *)
Fixpoint add_result (results : results_dict) (index : nat)
    (data : list Q * list Q) : results_dict :=
  match results with
  | [] => [(index, data)]
  | (k, (xs, ys)) :: rest =>
      if Nat.eqb k index then (k, (xs ++ fst data, ys ++ snd data)) :: rest
      else (k, (xs, ys)) :: add_result rest index data
  end.

(** The [for key in list(res.keys()):] loop of [wait_for_idle], which does
    for every key of the report what [add_result] does. *)
Definition merge_report (results res : results_dict) : results_dict :=
  fold_left (fun acc kv => add_result acc (fst kv) (snd kv)) res results.

(** Where a subprocess is in [SolverSubprocess.run]. *)
Inductive worker : Type :=
| AtTaskGet (results : results_dict)
    (* in [self.task_queue.get()], with [self.results] *)
| Processing (results : results_dict) (t : task_args)
    (* a task tuple taken; [for_driver] and [add_result] still to do *)
| AtResumeGet
    (* results put on the idle queue and reset; in [self.resume_queue.get()] *)
| Returned.

(** Where the main process is in [solve].  [step_tasks] are the tasks of the
    sweep step under way, [later] the tasks of the sweep steps to come.
    [GotResults]: [wait_for_idle] has returned.  What [solve] computes from
    the results (means and deviations) is left out. *)
Inductive coordinator : Type :=
| PutTasks (step_tasks todo : list task_args) (later : list (list task_args))
| PutIdle (step_tasks : list task_args) (k : nat)
    (later : list (list task_args))
| WaitForIdle (step_tasks : list task_args) (idle_count : nat)
    (results : results_dict) (later : list (list task_args))
| GotResults (step_tasks : list task_args) (idle_count : nat)
    (results : results_dict) (later : list (list task_args))
| ResumeAll (k : nat) (later : list (list task_args))
| FinalIdle (k : nat)
| ExitAll (k : nat)
| JoinAll.

(** The three manager queues, the subprocesses and the main process. *)
Record pool : Type := mkPool {
  tasks : list task;
  idling : list results_dict;
  resume : list command;
  subprocesses : list worker;
  main : coordinator
}.

Fixpoint set_nth {A : Type} (i : nat) (a : A) (l : list A) : list A :=
  match l, i with
  | [], _ => []
  | _ :: l', O => a :: l'
  | b :: l', S i' => b :: set_nth i' a l'
  end.

(** Who takes the next step. *)
Inductive actor : Type :=
| Main
| Sub (i : nat).

Section WorkerPool.

(** [self.number_of_processes] *)
Variable number_of_processes : nat.

(** [self.conditions[c_index].for_driver(drv, point)], for conditions that
    return their two lists. *)
Variable conditions : nat -> String.string -> TrackPoint -> list Q * list Q.

Definition output (t : task_args) : list Q * list Q :=
  match t with
  | (c_index, drv, point) => conditions c_index drv point
  end.

Definition c_index_of (t : task_args) : nat := fst (fst t).

(** The head of the [for test_x in range(...)] loop. *)
Definition next_sweep_step (later : list (list task_args)) : coordinator :=
  match later with
  | step_tasks :: later' => PutTasks step_tasks step_tasks later'
  | [] => FinalIdle number_of_processes
  end.

(** One step of the main process; [None] when it is blocked in a [get]
    or in [join]. *)
Definition main_step (s : pool) : option pool :=
  match main s with
  | PutTasks ts (t :: todo) later =>
      Some (mkPool (tasks s ++ [Work t]) (idling s) (resume s)
                   (subprocesses s) (PutTasks ts todo later))
  | PutTasks ts [] later =>
      Some (mkPool (tasks s) (idling s) (resume s) (subprocesses s)
                   (PutIdle ts number_of_processes later))
  | PutIdle ts (S k) later =>
      Some (mkPool (tasks s ++ [IdleTask]) (idling s) (resume s)
                   (subprocesses s) (PutIdle ts k later))
  | PutIdle ts O later =>
      Some (mkPool (tasks s) (idling s) (resume s) (subprocesses s)
                   (WaitForIdle ts 0 [] later))
  | WaitForIdle ts idle_count results later =>
      if Nat.eqb idle_count number_of_processes
      then Some (mkPool (tasks s) (idling s) (resume s) (subprocesses s)
                        (GotResults ts idle_count results later))
      else match idling s with
           | [] => None
           | res :: rest =>
               Some (mkPool (tasks s) rest (resume s) (subprocesses s)
                            (WaitForIdle ts (S idle_count)
                                         (merge_report results res) later))
           end
  | GotResults ts idle_count results later =>
      Some (mkPool (tasks s) (idling s) (resume s) (subprocesses s)
                   (ResumeAll number_of_processes later))
  | ResumeAll (S k) later =>
      Some (mkPool (tasks s) (idling s) (resume s ++ [ResumeCmd])
                   (subprocesses s) (ResumeAll k later))
  | ResumeAll O later =>
      Some (mkPool (tasks s) (idling s) (resume s) (subprocesses s)
                   (next_sweep_step later))
  | FinalIdle (S k) =>
      Some (mkPool (tasks s ++ [IdleTask]) (idling s) (resume s)
                   (subprocesses s) (FinalIdle k))
  | FinalIdle O =>
      Some (mkPool (tasks s) (idling s) (resume s) (subprocesses s)
                   (ExitAll number_of_processes))
  | ExitAll (S k) =>
      Some (mkPool (tasks s) (idling s) (resume s ++ [ExitCmd])
                   (subprocesses s) (ExitAll k))
  | ExitAll O =>
      Some (mkPool (tasks s) (idling s) (resume s) (subprocesses s) JoinAll)
  | JoinAll => None
  end.

(** One step of subprocess [i]; [None] when it is blocked in a [get] or
    has returned. *)
Definition sub_step (i : nat) (s : pool) : option pool :=
  match nth_error (subprocesses s) i with
  | None => None
  | Some (AtTaskGet results) =>
      match tasks s with
      | [] => None
      | Work t :: rest =>
          Some (mkPool rest (idling s) (resume s)
                  (set_nth i (Processing results t) (subprocesses s))
                  (main s))
      | IdleTask :: rest =>
          Some (mkPool rest (idling s ++ [results]) (resume s)
                  (set_nth i AtResumeGet (subprocesses s)) (main s))
      | ExitTask :: rest =>
          Some (mkPool rest (idling s) (resume s)
                  (set_nth i Returned (subprocesses s)) (main s))
      end
  | Some (Processing results t) =>
      Some (mkPool (tasks s) (idling s) (resume s)
              (set_nth i (AtTaskGet
                            (add_result results (c_index_of t) (output t)))
                       (subprocesses s))
              (main s))
  | Some AtResumeGet =>
      match resume s with
      | [] => None
      | ResumeCmd :: rest =>
          Some (mkPool (tasks s) (idling s) rest
                  (set_nth i (AtTaskGet []) (subprocesses s)) (main s))
      | ExitCmd :: rest =>
          Some (mkPool (tasks s) (idling s) rest
                  (set_nth i Returned (subprocesses s)) (main s))
      end
  | Some Returned => None
  end.

Definition step_of (a : actor) (s : pool) : option pool :=
  match a with
  | Main => main_step s
  | Sub i => sub_step i s
  end.

(** [solve] after the subprocesses are started, before the first sweep
    step; [sweep] lists the tasks of every sweep step. *)
Definition solve_start (sweep : list (list task_args)) : pool :=
  mkPool [] [] [] (repeat (AtTaskGet []) number_of_processes)
         (next_sweep_step sweep).

(** The states of all interleavings. *)
Inductive reachable (sweep : list (list task_args)) : pool -> Prop :=
| reachable_start : reachable sweep (solve_start sweep)
| reachable_step s a s' :
    reachable sweep s -> step_of a s = Some s' -> reachable sweep s'.

(** A schedule, run from a state. *)
Fixpoint run (schedule : list actor) (s : pool) : option pool :=
  match schedule with
  | [] => Some s
  | a :: schedule' =>
      match step_of a s with
      | Some s' => run schedule' s'
      | None => None
      end
  end.

(** The outputs of the tasks of [order] for condition [c], as one pair of
    lists; [None] when no task is for [c]. *)
Definition gathered (c : nat) (order : list task_args)
    : option (list Q * list Q) :=
  match filter (fun t => Nat.eqb (c_index_of t) c) order with
  | [] => None
  | mine => Some (concat (map (fun t => fst (output t)) mine),
                  concat (map (fun t => snd (output t)) mine))
  end.

(** *** The invariant of the idle barrier *)

Open Scope nat_scope.

(** A results dict holds the outputs of the tasks of a trace. *)
Definition holds (results : results_dict) (trace : list task_args) : Prop :=
  NoDup (map fst results) /\
  forall c, results_get results c = gathered c trace.

Definition active (w : worker) : nat :=
  match w with
  | AtTaskGet _ | Processing _ _ => 1
  | AtResumeGet | Returned => 0
  end.

Definition num_active (ws : list worker) : nat := list_sum (map active ws).

(** A subprocess with nothing to report. *)
Definition fresh (w : worker) : Prop :=
  w = AtTaskGet [] \/ w = AtResumeGet \/ w = Returned.

(** What a subprocess has on it: the tasks whose outputs are in its
    results dict, and the task it is working on. *)
Definition worker_holds (w : worker) (trace : list task_args) : Prop :=
  match w with
  | AtTaskGet results => holds results trace
  | Processing results t =>
      exists trace', holds results trace' /\ trace = trace' ++ [t]
  | AtResumeGet | Returned => trace = []
  end.

(** The invariant while a sweep step is under way: [pending] idle markers
    are still to be put, [idle_count] reports were merged into [results].
    The task queue holds tasks, then idle markers; the resume queue holds
    only (left-over) resume commands; every marker not yet taken is matched
    by a running subprocess or a left-over resume command; every marker
    taken is matched by a report; and every task of the step is in exactly
    one place. *)
Definition sweep_inv (step_tasks todo : list task_args)
    (pending idle_count : nat) (results : results_dict) (s : pool) : Prop :=
  exists (queued : list task_args) (markers resumes : nat)
         (on_workers in_reports : list (list task_args))
         (merged : list task_args),
    tasks s = map Work queued ++ repeat IdleTask markers /\
    resume s = repeat ResumeCmd resumes /\
    num_active (subprocesses s) + resumes = markers + pending /\
    length (idling s) + idle_count + markers + pending
      = number_of_processes /\
    (markers + pending < number_of_processes -> queued = []) /\
    (todo = [] \/ pending = number_of_processes) /\
    Forall2 worker_holds (subprocesses s) on_workers /\
    Forall2 holds (idling s) in_reports /\
    holds results merged /\
    Permutation step_tasks
      (merged ++ concat in_reports ++ concat on_workers ++ queued ++ todo).

(** Between sweep steps: nothing queued, nothing reported, every
    subprocess without results, and [running] subprocesses or resume
    commands under way. *)
Definition quiet (running : nat) (s : pool) : Prop :=
  tasks s = [] /\
  idling s = [] /\
  Forall fresh (subprocesses s) /\
  exists resumes,
    resume s = repeat ResumeCmd resumes /\
    num_active (subprocesses s) + resumes = running.

(** The invariant of the whole run, by the place of the main process. *)
Definition pool_inv (s : pool) : Prop :=
  match main s with
  | PutTasks step_tasks todo _ =>
      sweep_inv step_tasks todo number_of_processes 0 [] s
  | PutIdle step_tasks k _ => sweep_inv step_tasks [] k 0 [] s
  | WaitForIdle step_tasks idle_count results _ =>
      sweep_inv step_tasks [] 0 idle_count results s
  | GotResults step_tasks idle_count results _ =>
      quiet 0 s /\
      idle_count = number_of_processes /\
      exists order,
        Permutation order step_tasks /\
        forall c, results_get results c = gathered c order
  | ResumeAll k _ =>
      exists running, running + k = number_of_processes /\ quiet running s
  | FinalIdle _ | ExitAll _ | JoinAll => True
  end.

Close Scope nat_scope.
End WorkerPool.

(* ===================================================================== *)
(** ** Predicates of the properties *)
(* ===================================================================== *)

(** A tour without gaps: at every iteration, some remaining point (hence the
    nearest one) is within the threshold of the current point. *)
Inductive gapless : SortState -> Prop :=
| gapless_done st :
    unsorted_points st = [] -> gapless st
| gapless_step st st' q :
    In q (unsorted_points st) ->
    get_sqr_dist (_next_point st) q <= 200 ->
    sort_body st = Ok st' ->
    gapless st' ->
    gapless st.

(** A tour of outliers only: every two points are farther apart than the
    threshold. *)
Fixpoint mutually_far (l : list TrackPoint) : Prop :=
  match l with
  | [] => True
  | p :: l' => Forall (fun q => 200 < get_sqr_dist p q) l' /\ mutually_far l'
  end.

(** The segment length of the specification: the Euclidean distance
    sqrt(dx^2 + dy^2) between two consecutive sorted points. *)
Definition euclidean_segment_length (prev cur : TrackPoint) : R :=
  (sqrt (Q2R (x cur - x prev) ^ 2 + Q2R (y cur - y prev) ^ 2))%R.

Definition distinct_timestamps (rows : list PosRow) : Prop :=
  forall i j ri rj,
    nth_error rows i = Some ri -> nth_error rows j = Some rj ->
    i <> j -> ~ Date ri == Date rj.

Definition key_le (a b : Q * nat) : Prop := fst a <= fst b.

(** Two gathered results put together, as [add_result] does it. *)
Definition join_results (a b : option (list Q * list Q))
    : option (list Q * list Q) :=
  match a, b with
  | None, _ => b
  | _, None => a
  | Some (xs, ys), Some (xs', ys') => Some (xs ++ xs', ys ++ ys')
  end.

(* ===================================================================== *)
(** ** Example inputs *)
(* ===================================================================== *)

Definition pt (a b : Z) : TrackPoint := Point (inject_Z a) (inject_Z b).

Definition iteration_example : SortState :=
  mkSortState [pt 500 0; pt 300 0; pt 300 0] [] [] (pt 0 0).

Definition unit_square : list TrackPoint := [pt 0 0; pt 1 0; pt 1 1; pt 0 1].

Definition two_outliers : list TrackPoint := [pt 0 0; pt 1000 0].

Definition two_neighbours : list TrackPoint := [pt 0 0; pt 1 0].

(** Three points in a row: the last one is far from the only sorted one. *)
Definition far_last_point : list TrackPoint := [pt 0 0; pt 100 0; pt 301 0].

Definition three_samples : dict (list PosRow) :=
  [("44"%string,
    [mkPosRow 0 0 0; mkPosRow 1 10 0; mkPosRow 2 20 10])].

(** The scenario of the specification: in the window of the only usable
    lap the driver has one sample, with x below the candidate's x. *)
Definition lap_1 : Lap := mkLap "44" (Some 1) 10 10 None None.
Definition lap_2 : Lap := mkLap "44" (Some 2) 100 90 None None.
Definition lap_3 : Lap := mkLap "44" (Some 3) 190 90 None None.

Definition one_sided_position : dict (list PosRow) :=
  [("44"%string, [mkPosRow 5 0 0; mkPosRow 100 5 0; mkPosRow 200 20 0])].

Definition one_sided_data : ConditionData :=
  mkConditionData one_sided_position [lap_1; lap_2; lap_3]
                  one_sided_position 0.

Definition one_sample : dict (list PosRow) :=
  [("44"%string, [mkPosRow 5 0 0])].

(** The scenario of the specification: two subprocesses, one condition,
    three drivers.  The condition returns the coordinates of the test point,
    so that the outputs of the three tasks differ. *)
Definition echo_condition (c_index : nat) (drv : String.string)
    (point : TrackPoint) : list Q * list Q :=
  ([x point], [y point]).

Definition three_tasks : list task_args :=
  [(0%nat, "a"%string, pt 1 2); (0%nat, "b"%string, pt 3 4);
   (0%nat, "c"%string, pt 5 6)].

Definition three_tasks_schedule : list actor :=
  [Main; Main; Sub 0; Main; Sub 1; Main; Main; Main; Main;
   Sub 0; Sub 0; Sub 1; Sub 1; Sub 0; Sub 0; Main; Main; Main].

Definition three_tasks_results : results_dict :=
  [(0%nat, ([inject_Z 3; inject_Z 1; inject_Z 5],
            [inject_Z 4; inject_Z 2; inject_Z 6]))].

Definition three_tasks_end : pool :=
  mkPool [] [] [] [AtResumeGet; AtResumeGet]
         (GotResults three_tasks 2 three_tasks_results []).
(* ===================================================================== *)
(** ** Further predicates and functions *)
(* ===================================================================== *)

(** [p] and [q] are neighbours in [l], [p] first. *)
Definition consecutive {A : Type} (l : list A) (p q : A) : Prop :=
  exists i, nth_error l i = Some p /\ nth_error l (S i) = Some q.

(** The length of the path from [prev] through [rest], as
    [_integrate_distance] measures it. *)
Fixpoint path_length (prev : TrackPoint) (rest : list TrackPoint) : R :=
  match rest with
  | [] => 0%R
  | cur :: rest' => (segment_length prev cur + path_length cur rest')%R
  end.

(** What a data frame built by [generate_track] looks like. *)
Definition well_formed_track (t : Track) : Prop :=
  (2 <= length (track_X t))%nat /\
  length (track_Y t) = length (track_X t) /\
  length (track_Distance t) = length (track_X t) /\
  length (track_Normalized t) = length (track_X t) /\
  hd_error (track_Distance t) = Some 0%R /\
  StronglySorted Rle (track_Distance t) /\
  Forall (fun v => (0 <= v <= 1)%R) (track_Normalized t) /\
  py_last (track_Normalized t) = Ok 1%R.

(** A car at constant velocity (2, 0), sampled at uneven times. *)
Definition uniform_motion : dict (list PosRow) :=
  [("44"%string, [mkPosRow 0 1 2; mkPosRow 1 3 2; mkPosRow 3 7 2])].

(** A lap whose window holds a sample on each side of the candidate. *)
Definition crossing_position : dict (list PosRow) :=
  [("44"%string,
    [mkPosRow 5 0 0; mkPosRow 8 6 0; mkPosRow 9 12 0;
     mkPosRow 95 5 0; mkPosRow 105 20 0; mkPosRow 200 20 0])].

Definition crossing_data : ConditionData :=
  mkConditionData crossing_position [lap_1; lap_2; lap_3]
                  crossing_position 0.

(** A driver with two laps only, and no position data at all. *)
Definition two_lap_data : ConditionData :=
  mkConditionData [] [lap_1; lap_2] [] 0.

(** Three laps, of which the second is usable, and no position data. *)
Definition no_position_data : ConditionData :=
  mkConditionData [] [lap_1; lap_2; lap_3] [] 0.

(* ===================================================================== *)
(** ** List helpers: [remove_duplicates] and [chunks] *)
(* ===================================================================== *)

Section RemoveDuplicates.

(** The items of [l_ref] are compared by [==], a decidable equality; the
    items of [l2] are not looked at. *)
Variables A B : Type.
Variable eq_dec : forall a b : A, {a = b} + {a <> b}.

(** [itm in l] *)
Definition py_in (itm : A) (l : list A) : bool :=
  if in_dec eq_dec itm l then true else false.

(** The [while l_ref:] loop of [remove_duplicates], from the four lists to
    the result and the two argument lists as the loop leaves them: the
    function pops from the lists of its caller.  [l2.pop(0)] raises
    [IndexError] on an empty list, after [l_ref.pop(0)] was done. *)
Fixpoint remove_duplicates_loop (l_ref : list A) (l2 : list B)
    (l_ref_out : list A) (l2_out : list B)
    : result (list A * list B) * (list A * list B) :=
  match l_ref with
  | [] => (Ok (l_ref_out, l2_out), ([], l2))
  | itm_ref :: l_ref' =>
      match l2 with
      | [] => (Raise IndexError, (l_ref', []))
      | itm_2 :: l2' =>
          if py_in itm_ref l_ref_out
          then remove_duplicates_loop l_ref' l2' l_ref_out l2_out
          else remove_duplicates_loop l_ref' l2' (l_ref_out ++ [itm_ref])
                                      (l2_out ++ [itm_2])
      end
  end.

(** [remove_duplicates] (same text in both files) *)
Definition remove_duplicates (l_ref : list A) (l2 : list B)
    : result (list A * list B) * (list A * list B) :=
  remove_duplicates_loop l_ref l2 [] [].

End RemoveDuplicates.

(** [range(0, stop, step)] for [step > 0]: [0, step, 2 * step, ...] below
    [stop], which are [ceil(stop / step)] numbers. *)
Definition py_range (stop step : nat) : list nat :=
  map (fun j => (j * step)%nat) (seq 0 ((stop + step - 1) / step)).

(** [l[a:b]] for [0 <= a], [0 <= b] *)
Definition slice {A : Type} (l : list A) (a b : nat) : list A :=
  firstn (b - a) (skipn a l).

(** [chunks] (testing.py), with the generator run to its end.  [range]
    raises [ValueError] for the step 0 and is empty for a negative step. *)
Definition chunks {A : Type} (lst : list A) (n : Z) : result (list (list A)) :=
  if (n =? 0)%Z then Raise ValueError
  else if (n <? 0)%Z then Ok []
  else
    let step := Z.to_nat n in
    Ok (map (fun i => slice lst i (i + step)) (py_range (length lst) step)).

(** The chunks of drivers that [s3_to_start_finish_v1] starts one
    subprocess each for: [chunks(drivers, int(len(drivers) /
    number_of_processes) + 1)] with [number_of_processes = 4]. *)
Definition drivers_chunks {A : Type} (drivers : list A)
    : result (list (list A)) :=
  let number_of_processes := 4%nat in
  chunks drivers (Z.of_nat (length drivers / number_of_processes) + 1).

(* ===================================================================== *)
(** ** Ranges of the track: [TrackMap.get_points_between] *)
(* ===================================================================== *)

Section PointsBetween.

(** The [TrackPoint] objects of [sorted_points].  The class defines no
    [__eq__], so [list.index] finds a point by its identity; of the objects
    only a decidable equality is used. *)
Variable A : Type.
Variable eq_dec : forall a b : A, {a = b} + {a <> b}.

(** [l.index(p)]: [ValueError] when [p] is not in [l]. *)
Fixpoint index_of (l : list A) (p : A) : result nat :=
  match l with
  | [] => Raise ValueError
  | a :: l' =>
      if eq_dec a p then Ok 0%nat
      else i <- index_of l' p ;; Ok (S i)
  end.

(** [TrackMap.get_points_between] *)
Definition get_points_between (sorted_points : list A) (point1 point2 : A)
    (short include_ref : bool) : result (list A) :=
  i1 <- index_of sorted_points point1 ;;
  i2 <- index_of sorted_points point2 ;;
  if short then
    let pnt_range :=
      slice sorted_points (Nat.min i1 i2 + 1) (Nat.max i1 i2) in
    if include_ref then
      if (i1 <? i2)%nat then Ok ([point1] ++ pnt_range ++ [point2])
      else Ok ([point2] ++ pnt_range ++ [point1])
    else Ok pnt_range
  else
    let first := firstn (Nat.min i1 i2) sorted_points in
    let second := skipn (Nat.max i1 i2 + 1) sorted_points in
    let pnt_range := second ++ first in
    if include_ref then
      if (i1 <? i2)%nat then Ok ([point2] ++ pnt_range ++ [point1])
      else Ok ([point1] ++ pnt_range ++ [point2])
    else Ok pnt_range.

End PointsBetween.

(* ===================================================================== *)
(** ** [get_closest_time_to] (testing.py) *)
(* ===================================================================== *)

(** [frame.iloc[abs((frame.index - t)).argsort()[0]]] for a frame given as
    its rows, each with its index value (a time, in seconds). *)
Definition get_closest_time_to {A : Type} (frame : list (Q * A)) (t : Q)
    : result (Q * A) :=
  i <- py_nth (argsort (map (fun row => Qabs (fst row - t)) frame)) 0 ;;
  py_nth frame i.

(* ===================================================================== *)
(** ** From position data to points: [TrackMap.__init__] *)
(* ===================================================================== *)

(** One row of the position data as [TrackMap] receives it: the sample and
    its [Status] column. *)
Record StatusRow : Type := mkStatusRow {
  sample : PosRow;
  Status : String.string
}.

(** Two rows of the columns X and Y that [drop_duplicates] takes for the
    same. *)
Definition same_xy (a b : Q * Q) : bool :=
  Qeq_bool (fst a) (fst b) && Qeq_bool (snd a) (snd b).

(** [frame.drop_duplicates()]: of equal rows the first is kept. *)
Fixpoint drop_duplicates_from (seen rows : list (Q * Q)) : list (Q * Q) :=
  match rows with
  | [] => []
  | r :: rows' =>
      if existsb (same_xy r) seen then drop_duplicates_from seen rows'
      else r :: drop_duplicates_from (r :: seen) rows'
  end.

Definition drop_duplicates (rows : list (Q * Q)) : list (Q * Q) :=
  drop_duplicates_from [] rows.

(** [TrackMap._unsorted_points_from_pos_data], called by [__init__] with
    [self.unsorted_points] empty; the result is [self.unsorted_points].
    [numbers[0]] raises [IndexError] when there is no driver. *)
Definition _unsorted_points_from_pos_data
    (_raw_pos_data : dict (list StatusRow)) : result (list TrackPoint) :=
  let numbers := map fst _raw_pos_data in
  _ <- py_nth numbers 0 ;;
  frames <- for_each (getitem _raw_pos_data) numbers ;;
  let combined := concat frames in
  let is_on_track :=
    filter (fun r => String.eqb (Status r) "OnTrack") combined in
  let no_dupl_combined :=
    drop_duplicates
      (map (fun r => (X (sample r), Y (sample r))) is_on_track) in
  Ok (map (fun data => Point (fst data) (snd data)) no_dupl_combined).

(** [TrackMap(pos_frame).generate_track()] of experimental.py. *)
Definition track_from_pos_data (pos_frame : dict (list StatusRow))
    : result Track :=
  unsorted_points <- _unsorted_points_from_pos_data pos_frame ;;
  Experimental.generate_track unsorted_points.

(** What [drop_duplicates] keeps. *)
Fixpoint distinct_xy (l : list (Q * Q)) : Prop :=
  match l with
  | [] => True
  | a :: l' => Forall (fun b => same_xy a b = false) l' /\ distinct_xy l'
  end.

(** Points of which no two have the same coordinates. *)
Fixpoint apart (l : list TrackPoint) : Prop :=
  match l with
  | [] => True
  | p :: l' => Forall (fun q => 0 < get_sqr_dist p q) l' /\ apart l'
  end.

(** Two cars on the unit square: a position reported twice and a sample
    taken off the track. *)
Definition square_position : dict (list StatusRow) :=
  [("44"%string,
    [mkStatusRow (mkPosRow 0 0 0) "OnTrack";
     mkStatusRow (mkPosRow 1 1 0) "OnTrack";
     mkStatusRow (mkPosRow 2 5 5) "OffTrack";
     mkStatusRow (mkPosRow 3 1 1) "OnTrack"]);
   ("77"%string,
    [mkStatusRow (mkPosRow 0 1 0) "OnTrack";
     mkStatusRow (mkPosRow 1 0 1) "OnTrack"])].

(* ===================================================================== *)
(** ** The worker pool from start to shutdown *)
(* ===================================================================== *)

Open Scope nat_scope.

(** Subprocesses blocked in [self.resume_queue.get()], and subprocesses
    that have returned from [run]. *)
Definition waiting (w : worker) : nat :=
  match w with
  | AtResumeGet => 1
  | AtTaskGet _ | Processing _ _ | Returned => 0
  end.

Definition returned (w : worker) : nat :=
  match w with
  | Returned => 1
  | AtTaskGet _ | Processing _ _ | AtResumeGet => 0
  end.

Definition num_waiting (ws : list worker) : nat := list_sum (map waiting ws).
Definition num_returned (ws : list worker) : nat := list_sum (map returned ws).

(** The invariant of the shutdown ([queue_idle_command], [exit_all],
    [join_all] at the end of [solve]): [pending] idle markers or exit
    commands are still to be put; the task queue holds idle markers only;
    the resume queue holds left-over resume commands, then exit commands;
    every running subprocess and every left-over resume command is matched
    by an idle marker, every left-over resume command by a waiting
    subprocess, and every subprocess that has not returned by an exit
    command. *)
Definition shutdown_inv (pending_idle pending_exit : nat) (s : pool) : Prop :=
  exists markers resumes exits,
    tasks s = repeat IdleTask markers /\
    resume s = repeat ResumeCmd resumes ++ repeat ExitCmd exits /\
    num_active (subprocesses s) + resumes = markers + pending_idle /\
    resumes <= num_waiting (subprocesses s) /\
    exits + pending_exit
      = num_active (subprocesses s) + num_waiting (subprocesses s).

(** The invariant of liveness, by the place of the main process: all
    [number_of_processes] subprocesses exist, and none has returned before
    the shutdown. *)
Definition live_inv (number_of_processes : nat) (s : pool) : Prop :=
  length (subprocesses s) = number_of_processes /\
  match main s with
  | FinalIdle k => shutdown_inv k number_of_processes s
  | ExitAll k => shutdown_inv 0 k s
  | JoinAll => shutdown_inv 0 0 s
  | PutTasks _ _ _ | PutIdle _ _ _ | WaitForIdle _ _ _ _
  | GotResults _ _ _ _ | ResumeAll _ _ =>
      num_returned (subprocesses s) = 0
  end.

(** How many steps the main process has before it, from the head of the
    sweep loop with the sweep steps [later] to come, and from each of its
    places: per sweep step one step for every task and one to go on, then
    [queue_idle_command], [wait_for_idle], the results and [resume_all]. *)
Fixpoint sweep_fuel (number_of_processes : nat)
    (later : list (list task_args)) : nat :=
  match later with
  | [] => 2 * number_of_processes + 2
  | step_tasks :: later' =>
      length step_tasks + 3 * number_of_processes + 5
      + sweep_fuel number_of_processes later'
  end.

Definition main_fuel (number_of_processes : nat) (m : coordinator) : nat :=
  match m with
  | PutTasks _ todo later =>
      length todo + 3 * number_of_processes + 5
      + sweep_fuel number_of_processes later
  | PutIdle _ k later =>
      k + 2 * number_of_processes + 4 + sweep_fuel number_of_processes later
  | WaitForIdle _ idle_count _ later =>
      (number_of_processes - idle_count) + number_of_processes + 3
      + sweep_fuel number_of_processes later
  | GotResults _ _ _ later =>
      number_of_processes + 2 + sweep_fuel number_of_processes later
  | ResumeAll k later => k + 1 + sweep_fuel number_of_processes later
  | FinalIdle k => k + number_of_processes + 2
  | ExitAll k => k + 1
  | JoinAll => 0
  end.

(** The steps a queued task and a subprocess still ask for. *)
Definition task_weight (t : task) : nat :=
  match t with
  | Work _ => 2
  | IdleTask | ExitTask => 1
  end.

Definition processing (w : worker) : nat :=
  match w with
  | Processing _ _ => 1
  | AtTaskGet _ | AtResumeGet | Returned => 0
  end.

(** A bound on the steps that all processes together can still take. *)
Definition steps_left (number_of_processes : nat) (s : pool) : nat :=
  3 * main_fuel number_of_processes (main s)
  + list_sum (map task_weight (tasks s))
  + length (resume s)
  + list_sum (map processing (subprocesses s)).

(** The end of [solve]: the main process is in [join_all], every
    subprocess has returned, and the task and resume queues are empty. *)
Definition all_joined (number_of_processes : nat) (s : pool) : Prop :=
  main s = JoinAll /\
  length (subprocesses s) = number_of_processes /\
  Forall (fun w => w = Returned) (subprocesses s) /\
  tasks s = [] /\ resume s = [].

(** The scenario of two subprocesses and three tasks, run to its end:
    [resume_all], the final idle markers, [exit_all], and the subprocesses
    leaving one after the other. *)
Definition three_tasks_shutdown : list actor :=
  three_tasks_schedule ++
  [Main; Main; Main; Main; Main; Main; Main; Main; Main; Main;
   Sub 0; Sub 0; Sub 0; Sub 0; Sub 0; Sub 1].

Definition three_tasks_joined : pool :=
  mkPool [] [[]; []] [] [Returned; Returned] JoinAll.

Close Scope nat_scope.

(** The tasks that [solve] puts on the task queue in one sweep step: for
    every condition, by its index in [self.conditions], one task per
    driver.  [add_condition] makes a new instance for every condition, so
    [self.conditions.index(condition)] is the place of the condition. *)
Definition sweep_step_tasks (number_of_conditions : nat)
    (drivers : list String.string) (test_point : TrackPoint)
    : list task_args :=
  flat_map (fun c_index => map (fun driver => (c_index, driver, test_point))
                               drivers)
           (seq 0 number_of_conditions).

(** [res[key]] on a results dict. *)
Definition results_getitem (results : results_dict) (key : nat)
    : result (list Q * list Q) :=
  match results_get results key with
  | Some v => Ok v
  | None => Raise KeyError
  end.

(** One sweep step for one condition and three drivers, run up to the
    return of [wait_for_idle]. *)
Definition one_condition_tasks : list task_args :=
  sweep_step_tasks 1 ["a"%string; "b"%string; "c"%string] (pt 1 2).

Definition one_condition_end : pool :=
  mkPool [] [] [] [AtResumeGet; AtResumeGet]
         (GotResults one_condition_tasks 2
            [(0%nat, ([1; 1; 1], [2; 2; 2]))] []).

(* ===================================================================== *)
(** ** Facts about the built-ins *)
(* ===================================================================== *)

Lemma Qltb_lt a b : Qltb a b = true <-> a < b.
Proof.
  unfold Qltb. rewrite negb_true_iff, <- not_true_iff_false, Qle_bool_iff.
  split; [apply Qnot_le_lt | apply Qlt_not_le].
Qed.

Lemma Qltb_ge a b : Qltb a b = false <-> b <= a.
Proof.
  unfold Qltb. rewrite negb_false_iff. apply Qle_bool_iff.
Qed.

Lemma fold_min_spec ds d :
  let m := fold_left (fun m v => if Qltb v m then v else m) ds d in
  In m (d :: ds) /\ forall v, In v (d :: ds) -> m <= v.
Proof.
  revert d; induction ds as [|a ds IH]; intros d; simpl.
  - split; [now left | intros v [<- | []]; apply Qle_refl].
  - destruct (IH (if Qltb a d then a else d)) as [Hin Hle].
    split.
    + destruct Hin as [<- | Hin]; [destruct (Qltb a d); auto | auto].
    + intros v Hv.
      assert (Hmd : fold_left (fun m v => if Qltb v m then v else m) ds
                      (if Qltb a d then a else d)
                    <= (if Qltb a d then a else d)) by (apply Hle; now left).
      destruct Hv as [<- | [<- | Hv]].
      * eapply Qle_trans; [apply Hmd |].
        destruct (Qltb a d) eqn:E; [apply Qltb_lt in E; qlra | apply Qle_refl].
      * eapply Qle_trans; [apply Hmd |].
        destruct (Qltb a d) eqn:E; [apply Qle_refl | apply Qltb_ge in E; qlra].
      * apply Hle. now right.
Qed.

Lemma py_min_spec l :
  l <> [] ->
  exists m, py_min l = Ok m /\ In m l /\ forall v, In v l -> m <= v.
Proof.
  destruct l as [|d ds]; [congruence | intros _].
  eexists; split; [reflexivity | apply fold_min_spec].
Qed.

Lemma py_index_spec l m :
  (exists v, In v l /\ v == m) ->
  exists i d, py_index l m = Ok i /\ nth_error l i = Some d /\ d == m /\
    forall j e, (j < i)%nat -> nth_error l j = Some e -> ~ e == m.
Proof.
  induction l as [|a l IH]; intros [v [Hin Hv]]; [destruct Hin |].
  simpl. destruct (Qeq_bool a m) eqn:E.
  - exists 0%nat, a. repeat split; auto.
    + now apply Qeq_bool_iff.
    + intros j e Hj. lia.
  - assert (Hne : ~ a == m).
    { intros H. apply Qeq_bool_iff in H. congruence. }
    destruct IH as (i & d & Hi & Hd & Hdm & Hfirst).
    { destruct Hin as [-> | Hin]; [contradiction | eauto]. }
    exists (S i), d. rewrite Hi. simpl. repeat split; auto.
    intros [|j] e Hj He; simpl in He.
    + injection He as <-. assumption.
    + eapply Hfirst; eauto. lia.
Qed.

Lemma py_pop_spec (A : Type) (l : list A) i p :
  nth_error l i = Some p ->
  py_pop l i = Ok (p, firstn i l ++ skipn (S i) l).
Proof.
  revert i; induction l as [|a l IH]; intros [|i] H; simpl in H;
    try discriminate.
  - injection H as ->. reflexivity.
  - simpl. rewrite (IH _ H). reflexivity.
Qed.

Lemma py_pop_perm (A : Type) (l : list A) i p r :
  py_pop l i = Ok (p, r) -> Permutation l (p :: r).
Proof.
  revert i p r; induction l as [|a l IH]; intros [|i] p r H; simpl in H;
    try discriminate.
  - injection H as <- <-. reflexivity.
  - destruct (py_pop l i) as [[b r']|e] eqn:E; simpl in H; try discriminate.
    injection H as <- <-.
    rewrite (IH _ _ _ E). apply perm_swap.
Qed.

Lemma py_last_app (A : Type) (l : list A) a : py_last (l ++ [a]) = Ok a.
Proof. unfold py_last. rewrite rev_app_distr. reflexivity. Qed.

Lemma get_sqr_dist_sym p q : get_sqr_dist p q = get_sqr_dist q p.
Proof.
  unfold get_sqr_dist. now rewrite (Qabs_Qminus (x q)), (Qabs_Qminus (y q)).
Qed.

(** What one run of the loop body does, in terms of the lists. *)
Lemma sort_body_spec st :
  unsorted_points st <> [] ->
  exists i p,
    nth_error (unsorted_points st) i = Some p /\
    (forall q, In q (unsorted_points st) ->
       get_sqr_dist (_next_point st) p <= get_sqr_dist (_next_point st) q) /\
    (forall j q, (j < i)%nat -> nth_error (unsorted_points st) j = Some q ->
       get_sqr_dist (_next_point st) p < get_sqr_dist (_next_point st) q) /\
    sort_body st =
      Ok (mkSortState
            (firstn i (unsorted_points st) ++ skipn (S i) (unsorted_points st))
            (if Qltb 200 (get_sqr_dist (_next_point st) p)
             then sorted_points st else sorted_points st ++ [_next_point st])
            (if Qltb 200 (get_sqr_dist (_next_point st) p)
             then excluded_points st ++ [_next_point st]
             else excluded_points st)
            p).
Proof.
  intros Hne. unfold sort_body. cbv zeta.
  set (cur := _next_point st). set (u := unsorted_points st) in *.
  destruct (@py_min_spec (map (get_sqr_dist cur) u)) as (m & Hm & Hin & Hle).
  { destruct u; [congruence | discriminate]. }
  destruct (@py_index_spec (map (get_sqr_dist cur) u) m)
    as (i & d & Hi & Hd & Hdm & Hfirst).
  { exists m. split; [assumption | reflexivity]. }
  rewrite Hm. cbn [bind]. rewrite Hi. cbn [bind].
  rewrite nth_error_map in Hd.
  destruct (nth_error u i) as [p|] eqn:Hp; simpl in Hd; [|discriminate].
  injection Hd as <-.
  exists i, p. rewrite (py_pop_spec _ _ _ _ Hp). cbn [bind].
  assert (Hcmp : Qltb 200 m = Qltb 200 (get_sqr_dist cur p)).
  { unfold Qltb. f_equal.
    destruct (Qle_bool m 200) eqn:E1, (Qle_bool (get_sqr_dist cur p) 200) eqn:E2;
      auto.
    - apply Qle_bool_iff in E1. rewrite <- Hdm in E1.
      apply Qle_bool_iff in E1. congruence.
    - apply Qle_bool_iff in E2. rewrite Hdm in E2.
      apply Qle_bool_iff in E2. congruence. }
  rewrite Hcmp. repeat split; auto.
  - intros q Hq. rewrite Hdm. apply Hle. now apply in_map.
  - intros j q Hj Hq.
    assert (Hq' : nth_error (map (get_sqr_dist cur) u) j
                  = Some (get_sqr_dist cur q)).
    { rewrite nth_error_map, Hq. reflexivity. }
    specialize (Hfirst _ _ Hj Hq').
    assert (m <= get_sqr_dist cur q).
    { apply Hle. apply in_map. eapply nth_error_In; eauto. }
    rewrite Hdm. apply Qle_lteq in H. destruct H as [H | H]; [assumption |].
    exfalso. apply Hfirst. symmetry. assumption.
Qed.

Lemma sort_loop_body_clause st r (Hr : sort_body st = r) q u
    (H : unsorted_points st = q :: u) :
  sort_loop_unfold_clause_1_clause_2 st (exist _ r Hr) q u H
  = (st' <- r ;; sort_loop st').
Proof. destruct r; reflexivity. Qed.

Lemma sort_loop_test_clause st l (H : unsorted_points st = l) :
  sort_loop_unfold_clause_1 st (exist _ l H)
  = match l with
    | [] => Ok st
    | _ :: _ => st' <- sort_body st ;; sort_loop st'
    end.
Proof.
  destruct l as [|q u]; [reflexivity |].
  cbn. apply sort_loop_body_clause.
Qed.

Lemma sort_loop_eq st :
  sort_loop st =
  match unsorted_points st with
  | [] => Ok st
  | _ :: _ => st' <- sort_body st ;; sort_loop st'
  end.
Proof.
  rewrite sort_loop_equation_1. apply sort_loop_test_clause.
Qed.

Lemma sort_loop_nil st :
  unsorted_points st = [] -> sort_loop st = Ok st.
Proof. intros H. rewrite sort_loop_eq, H. reflexivity. Qed.

Lemma sort_loop_step st st' :
  sort_body st = Ok st' -> sort_loop st = sort_loop st'.
Proof.
  intros H. rewrite sort_loop_eq.
  destruct (unsorted_points st) eqn:E.
  - unfold sort_body in H. rewrite E in H. discriminate.
  - rewrite H. reflexivity.
Qed.

(** The loop runs to completion: it returns, and with no unsorted point
    left. *)
Lemma sort_loop_total st :
  exists fin, sort_loop st = Ok fin /\ unsorted_points fin = [].
Proof.
  remember (length (unsorted_points st)) as n eqn:Hn.
  revert st Hn; induction n as [|n IH]; intros st Hn.
  - exists st. destruct (unsorted_points st) eqn:E; [|discriminate].
    split; [now apply sort_loop_nil | reflexivity].
  - destruct (sort_body_spec st) as (i & p & _ & _ & _ & Hb).
    { intros E. rewrite E in Hn. discriminate. }
    rewrite (sort_loop_step _ _ Hb). apply IH.
    apply sort_body_length in Hb. lia.
Qed.

(* ===================================================================== *)
(** ** Greedy sequencing, one iteration at a time *)
(* ===================================================================== *)

(** The loop neither loses nor duplicates a point. *)
Lemma sort_loop_perm st fin :
  sort_loop st = Ok fin ->
  Permutation (sorted_points fin ++ excluded_points fin ++ [_next_point fin])
    (sorted_points st ++ excluded_points st
       ++ _next_point st :: unsorted_points st).
Proof.
  remember (length (unsorted_points st)) as n eqn:Hn.
  revert st Hn; induction n as [|n IH]; intros st Hn Hloop.
  - destruct (unsorted_points st) eqn:E; [|discriminate].
    rewrite (sort_loop_nil st E) in Hloop. injection Hloop as <-.
    reflexivity.
  - assert (Hne : unsorted_points st <> []).
    { intros E. rewrite E in Hn. discriminate. }
    destruct (sort_body_spec st Hne) as (i & p & Hp & _ & _ & Hb).
    assert (Hperm : Permutation (unsorted_points st)
              (p :: firstn i (unsorted_points st)
                    ++ skipn (S i) (unsorted_points st))).
    { eapply py_pop_perm. apply py_pop_spec. exact Hp. }
    remember (firstn i (unsorted_points st) ++ skipn (S i) (unsorted_points st))
      as rest eqn:Hrest.
    pose proof (sort_body_length _ _ Hb) as Hlen. cbn in Hlen.
    rewrite (sort_loop_step _ _ Hb) in Hloop.
    apply IH in Hloop; [| cbn; lia]. cbn in Hloop.
    rewrite Hloop, Hperm.
    destruct (Qltb 200 (get_sqr_dist (_next_point st) p));
      rewrite <- ?app_assoc; cbn; apply Permutation_app_head;
      first [reflexivity | apply Permutation_middle].
Qed.

Lemma sort_loop_iterations st :
  sort_loop st = sort_iterations (length (unsorted_points st)) st.
Proof.
  remember (length (unsorted_points st)) as n eqn:Hn.
  revert st Hn; induction n as [|n IH]; intros st Hn.
  - destruct (unsorted_points st) eqn:E; [| discriminate].
    now apply sort_loop_nil.
  - destruct (sort_body_spec st) as (i & p & _ & _ & _ & Hb).
    { intros E. rewrite E in Hn. discriminate. }
    rewrite (sort_loop_step _ _ Hb). cbn [sort_iterations]. rewrite Hb.
    cbn [bind]. apply IH.
    apply sort_body_length in Hb. lia.
Qed.

(** C2.  The loop is the repetition of one iteration, for as long as an
    unsorted point is left.  With none left the loop returns the state as it
    is.  Otherwise the iteration picks the first remaining point [p] at
    minimum distance from the current point; if that distance exceeds 200 the
    current point (not [p]) goes to the excluded points, otherwise to the
    sorted points; in both cases [p] is popped and becomes the current point,
    and the loop goes on from there.  The loop returns after as many
    iterations as there were unsorted points, with none left, and with every
    point in the sorted points, in the excluded points or as the last current
    point, each once. *)
Theorem sort_loop_iteration (st : SortState) :
  (unsorted_points st = [] -> sort_loop st = Ok st) /\
  (unsorted_points st <> [] ->
   exists i p st',
     nth_error (unsorted_points st) i = Some p /\
     (forall q, In q (unsorted_points st) ->
        get_sqr_dist (_next_point st) p <= get_sqr_dist (_next_point st) q) /\
     (forall j q, (j < i)%nat -> nth_error (unsorted_points st) j = Some q ->
        get_sqr_dist (_next_point st) p < get_sqr_dist (_next_point st) q) /\
     sort_body st = Ok st' /\
     _next_point st' = p /\
     unsorted_points st' =
       firstn i (unsorted_points st) ++ skipn (S i) (unsorted_points st) /\
     (200 < get_sqr_dist (_next_point st) p ->
        excluded_points st' = excluded_points st ++ [_next_point st] /\
        sorted_points st' = sorted_points st) /\
     (get_sqr_dist (_next_point st) p <= 200 ->
        sorted_points st' = sorted_points st ++ [_next_point st] /\
        excluded_points st' = excluded_points st) /\
     length (unsorted_points st) = S (length (unsorted_points st')) /\
     sort_loop st = sort_loop st') /\
  exists fin,
    sort_loop st = Ok fin /\
    unsorted_points fin = [] /\
    sort_iterations (length (unsorted_points st)) st = Ok fin /\
    Permutation
      (sorted_points fin ++ excluded_points fin ++ [_next_point fin])
      (sorted_points st ++ excluded_points st
         ++ _next_point st :: unsorted_points st).
Proof.
  split; [apply sort_loop_nil |].
  split.
  - intros Hne.
    destruct (sort_body_spec st Hne) as (i & p & Hp & Hmin & Hfirst & Hb).
    exists i, p. eexists.
    split; [exact Hp |]. split; [exact Hmin |]. split; [exact Hfirst |].
    split; [exact Hb |]. cbn.
    split; [reflexivity |]. split; [reflexivity |].
    split; [| split; [| split]].
    + intros Hfar. apply Qltb_lt in Hfar. rewrite Hfar. auto.
    + intros Hnear. apply Qltb_ge in Hnear. rewrite Hnear. auto.
    + apply sort_body_length in Hb. exact Hb.
    + now apply sort_loop_step.
  - destruct (sort_loop_total st) as (fin & Hloop & Hfin).
    exists fin. split; [exact Hloop |]. split; [exact Hfin |].
    split; [now rewrite <- sort_loop_iterations |].
    now apply sort_loop_perm.
Qed.

Lemma sort_loop_iteration_witness :
  unsorted_points iteration_example <> [] /\
  (exists st',
     sort_body iteration_example = Ok st' /\
     excluded_points st' = [pt 0 0] /\
     sort_loop iteration_example = sort_loop st') /\
  sort_loop iteration_example
    = Ok (mkSortState [] [pt 300 0; pt 300 0] [pt 0 0] (pt 500 0)).
Proof.
  assert (H : unsorted_points iteration_example <> []) by discriminate.
  split; [exact H |].
  destruct (sort_loop_iteration iteration_example) as (_ & Hstep & Hrun).
  split.
  - destruct (Hstep H)
      as (i & p & st' & Hp & Hmin & _ & Hb & _ & _ & Hfar & _ & _ & Hloop).
    exists st'. split; [exact Hb |]. split; [| exact Hloop].
    apply Hfar.
    apply nth_error_In in Hp.
    destruct Hp as [<- | [<- | [<- | []]]]; reflexivity.
  - destruct Hrun as (fin & Hfin & _ & Hit & _).
    vm_compute in Hit. injection Hit as <-. exact Hfin.
Defined.

(* ===================================================================== *)
(** ** Sequencing a loop without gaps *)
(* ===================================================================== *)

Lemma gapless_loop st :
  gapless st ->
  exists fin,
    sort_loop st = Ok fin /\
    unsorted_points fin = [] /\
    excluded_points fin = excluded_points st /\
    Permutation (sorted_points fin ++ [_next_point fin])
                (sorted_points st ++ _next_point st :: unsorted_points st) /\
    (unsorted_points st <> [] ->
     exists s prev, sorted_points fin = s ++ [prev] /\
                    get_sqr_dist prev (_next_point fin) <= 200).
Proof.
  induction 1 as [st Hnil | st st' q Hq Hnear Hb Hgap IH].
  - exists st. rewrite (sort_loop_nil st Hnil), Hnil.
    repeat split; auto. congruence.
  - destruct IH as (fin & Hloop & Hfin & Hexc & Hperm & Hlast).
    assert (Hne : unsorted_points st <> []).
    { intros E. rewrite E in Hq. destruct Hq. }
    destruct (sort_body_spec st Hne) as (i & p & Hp & Hmin & _ & Hb').
    assert (Hle : get_sqr_dist (_next_point st) p <= 200).
    { eapply Qle_trans; [apply Hmin; exact Hq | exact Hnear]. }
    apply Qltb_ge in Hle. rewrite Hle in Hb'.
    remember (firstn i (unsorted_points st) ++ skipn (S i) (unsorted_points st))
      as rest eqn:Hrest.
    rewrite Hb in Hb'. injection Hb' as ->.
    cbn in Hexc, Hperm, Hlast, Hloop.
    exists fin. rewrite (sort_loop_step _ _ Hb). cbn.
    split; [exact Hloop |]. split; [exact Hfin |]. split; [exact Hexc |].
    split.
    + rewrite Hperm, <- app_assoc. cbn.
      apply Permutation_app_head, perm_skip.
      symmetry. eapply py_pop_perm. rewrite Hrest. apply py_pop_spec. exact Hp.
    + intros _. clear Hrest.
      destruct rest as [|r rs].
      * rewrite sort_loop_nil in Hloop by reflexivity.
        injection Hloop as <-. cbn.
        exists (sorted_points st), (_next_point st).
        split; [reflexivity | now apply Qltb_ge].
      * apply Hlast. discriminate.
Qed.

(** C3.  experimental.py: on at least two distinct points whose greedy tour
    has no gap, sequencing returns, the sorted points are the input points,
    each exactly once, and no point is excluded. *)
Theorem sort_points_gapless (points : list TrackPoint) :
  (2 <= length points)%nat ->
  NoDup points ->
  (exists st0, start_state points = Ok st0 /\ gapless st0) ->
  exists st,
    Experimental._sort_points points = Ok st /\
    Permutation points (sorted_points st) /\
    NoDup (sorted_points st) /\
    excluded_points st = [] /\
    unsorted_points st = [].
Proof.
  intros Hlen Hnd (st0 & Hst0 & Hgap).
  destruct points as [|p0 [|p1 rest]]; cbn in Hlen; try lia.
  cbn in Hst0. injection Hst0 as <-.
  destruct (gapless_loop _ Hgap) as (fin & Hloop & Hfin & Hexc & Hperm & Hlast).
  cbn in Hexc, Hperm, Hlast.
  destruct Hlast as (s & prev & Hs & Hprev); [discriminate |].
  unfold Experimental._sort_points. cbn [start_state py_pop bind].
  rewrite Hloop. cbn [bind]. rewrite Hs, py_last_app. cbn [bind].
  rewrite get_sqr_dist_sym.
  apply Qle_bool_iff in Hprev. rewrite Hprev.
  eexists. split; [reflexivity |]. cbn.
  rewrite <- Hs.
  assert (Hp : Permutation (p0 :: p1 :: rest)
                 (sorted_points fin ++ [_next_point fin]))
    by (symmetry; exact Hperm).
  repeat split; auto.
  eapply Permutation_NoDup; eauto.
Qed.

Ltac gapless_run :=
  repeat (first
    [ apply gapless_done; reflexivity
    | eapply gapless_step;
      [ left; reflexivity | vm_compute; discriminate | vm_compute; reflexivity | ] ]).

Lemma sort_points_gapless_witness :
  (2 <= length unit_square)%nat /\
  NoDup unit_square /\
  exists st,
    Experimental._sort_points unit_square = Ok st /\
    Permutation unit_square (sorted_points st) /\
    excluded_points st = [].
Proof.
  assert (Hlen : (2 <= length unit_square)%nat) by (cbn; lia).
  assert (Hnd : NoDup unit_square).
  { unfold unit_square. repeat constructor; cbn; intuition discriminate. }
  assert (Hgap : exists st0, start_state unit_square = Ok st0 /\ gapless st0).
  { eexists. split; [reflexivity |]. gapless_run. }
  split; [exact Hlen |]. split; [exact Hnd |].
  destruct (sort_points_gapless unit_square Hlen Hnd Hgap)
    as (st & Hst & Hperm & _ & Hexc & _).
  exists st. auto.
Defined.

(* ===================================================================== *)
(** ** A point set of outliers only *)
(* ===================================================================== *)

Lemma mutually_far_perm l l' :
  Permutation l l' -> mutually_far l -> mutually_far l'.
Proof.
  induction 1 as [| a l l' Hp IH | a b l | l l' l'' _ IH1 _ IH2]; cbn.
  - auto.
  - intros [Ha Hl]. split; [| auto].
    eapply Permutation_Forall; eauto.
  - intros [Hb [Ha Hl]]. inversion Hb as [| ? ? Hba Hbl]; subst.
    repeat split; auto.
    constructor; [rewrite get_sqr_dist_sym; exact Hba | exact Ha].
  - auto.
Qed.

Lemma far_loop st :
  mutually_far (_next_point st :: unsorted_points st) ->
  exists fin,
    sort_loop st = Ok fin /\
    unsorted_points fin = [] /\
    sorted_points fin = sorted_points st /\
    Permutation (excluded_points fin ++ [_next_point fin])
                (excluded_points st ++ _next_point st :: unsorted_points st).
Proof.
  remember (length (unsorted_points st)) as n eqn:Hn.
  revert st Hn; induction n as [|n IH]; intros st Hn Hfar.
  - destruct (unsorted_points st) eqn:E; [|discriminate].
    exists st. rewrite (sort_loop_nil st E), E. auto.
  - assert (Hne : unsorted_points st <> []).
    { intros E. rewrite E in Hn. discriminate. }
    destruct (sort_body_spec st Hne) as (i & p & Hp & _ & _ & Hb).
    assert (Hperm : Permutation (unsorted_points st)
              (p :: firstn i (unsorted_points st)
                    ++ skipn (S i) (unsorted_points st))).
    { eapply py_pop_perm. apply py_pop_spec. exact Hp. }
    remember (firstn i (unsorted_points st) ++ skipn (S i) (unsorted_points st))
      as rest eqn:Hrest.
    destruct Hfar as [Hcur Hrestfar].
    assert (Hd : 200 < get_sqr_dist (_next_point st) p).
    { rewrite Forall_forall in Hcur. apply Hcur.
      eapply nth_error_In; eauto. }
    apply Qltb_lt in Hd. rewrite Hd in Hb.
    pose proof (sort_body_length _ _ Hb) as Hlen. cbn in Hlen.
    destruct (IH (mkSortState rest (sorted_points st)
                    (excluded_points st ++ [_next_point st]) p))
      as (fin & Hloop & Hfin & Hsorted & Hexc).
    { cbn. lia. }
    { change (mutually_far (p :: rest)).
      eapply mutually_far_perm; [exact Hperm | exact Hrestfar]. }
    cbn in Hsorted, Hexc.
    exists fin. rewrite (sort_loop_step _ _ Hb).
    repeat split; auto.
    rewrite Hexc, <- app_assoc. cbn.
    apply Permutation_app_head, perm_skip. symmetry. exact Hperm.
Qed.

(** C4, as the code has it.  When every two points are farther apart than
    200, no track is produced.  experimental.py: sequencing raises
    [IndexError] (on an empty input at the first [pop], otherwise at
    [self.sorted_points[-1]], because every visited point was excluded).
    testing.py: sequencing of a non-empty input returns with no sorted point,
    every point but the last one excluded, and [_integrate_distance] then
    raises [ZeroDivisionError]. *)
Theorem generate_track_all_outliers (points : list TrackPoint) :
  mutually_far points ->
  Experimental._sort_points points = Raise IndexError /\
  Experimental.generate_track points = Raise IndexError /\
  (points <> [] ->
   (exists st, Testing._sort_points points = Ok st /\
               sorted_points st = [] /\
               Permutation (excluded_points st ++ [_next_point st]) points) /\
   Testing.generate_track points = Raise ZeroDivisionError).
Proof.
  intros Hfar.
  unfold Experimental.generate_track, Testing.generate_track.
  unfold Experimental._sort_points, Testing._sort_points.
  destruct points as [|p0 rest]; [repeat split; congruence |].
  cbn [start_state py_pop bind].
  destruct (far_loop (mkSortState rest [] [] p0) Hfar)
    as (fin & Hloop & Hfin & Hsorted & Hexc).
  cbn in Hsorted, Hexc.
  rewrite Hloop. cbn [bind]. rewrite Hsorted. cbn [py_last rev bind].
  repeat split; auto.
  - exists fin. auto.
  - unfold track_of_sorted, _integrate_distance. cbn.
    unfold py_div. destruct (Req_dec_T 0 0); [reflexivity | congruence].
Qed.

Lemma two_outliers_far : mutually_far two_outliers.
Proof. cbn. repeat constructor. Qed.

Lemma generate_track_all_outliers_witness :
  mutually_far two_outliers /\
  Experimental.generate_track two_outliers = Raise IndexError /\
  Testing.generate_track two_outliers = Raise ZeroDivisionError.
Proof.
  split; [exact two_outliers_far |].
  destruct (generate_track_all_outliers two_outliers two_outliers_far)
    as (_ & Hexp & Htest).
  split; [exact Hexp |].
  apply Htest. discriminate.
Defined.

(** C4, as stated, fails: on two points 1000 apart no one-point track comes
    out of either implementation; both raise. *)
Lemma generate_track_all_outliers_counterexample :
  mutually_far two_outliers /\
  ~ (exists t, Experimental.generate_track two_outliers = Ok t /\
               length (track_X t) = 1%nat) /\
  ~ (exists t, Testing.generate_track two_outliers = Ok t /\
               length (track_X t) = 1%nat).
Proof.
  split; [exact two_outliers_far |].
  split; intros (t & Ht & _).
  - vm_compute in Ht. discriminate.
  - unfold Testing.generate_track in Ht.
    replace (Testing._sort_points two_outliers)
      with (Ok (mkSortState [] [] [pt 0 0] (pt 1000 0))) in Ht
      by (vm_compute; reflexivity).
    unfold track_of_sorted, _integrate_distance in Ht. cbn in Ht.
    unfold py_div in Ht.
    destruct (Req_dec_T 0 0); [discriminate | congruence].
Qed.

(* ===================================================================== *)
(** ** The two sequencing implementations *)
(* ===================================================================== *)

(** testing.py returns with its last current point in neither list. *)
Lemma testing_sort_points_drops_last points st :
  NoDup points ->
  Testing._sort_points points = Ok st ->
  Permutation (sorted_points st ++ excluded_points st ++ [_next_point st])
    points /\
  ~ In (_next_point st) (sorted_points st ++ excluded_points st).
Proof.
  intros Hnd H. unfold Testing._sort_points in H.
  destruct points as [|p0 rest]; [discriminate |].
  cbn [start_state py_pop bind] in H.
  apply sort_loop_perm in H. cbn in H.
  split; [exact H |].
  assert (Hnd' : NoDup ((sorted_points st ++ excluded_points st)
                        ++ [_next_point st])).
  { rewrite <- app_assoc. eapply Permutation_NoDup; [symmetry; exact H | exact Hnd]. }
  apply NoDup_remove_2 in Hnd'. rewrite app_nil_r in Hnd'. exact Hnd'.
Qed.

(** experimental.py is testing.py followed by the test of the last point. *)
Lemma experimental_sort_points_after_testing points :
  Experimental._sort_points points =
  (st <- Testing._sort_points points ;;
   last_sorted <- py_last (sorted_points st) ;;
   if Qle_bool (get_sqr_dist (_next_point st) last_sorted) 200
   then Ok (mkSortState (unsorted_points st)
              (sorted_points st ++ [_next_point st])
              (excluded_points st) (_next_point st))
   else Ok st).
Proof.
  unfold Experimental._sort_points, Testing._sort_points.
  destruct (start_state points); reflexivity.
Qed.

(** C10, at a failing input.  On the two points (0,0) and (1,0) both
    implementations return; experimental.py's sorted points are both input
    points, testing.py's sorted points lack (1,0), which testing.py leaves in
    neither list. *)
Theorem sort_points_implementations_differ :
  Experimental._sort_points two_neighbours
    = Ok (mkSortState [] [pt 0 0; pt 1 0] [] (pt 1 0)) /\
  Testing._sort_points two_neighbours
    = Ok (mkSortState [] [pt 0 0] [] (pt 1 0)).
Proof. split; vm_compute; reflexivity. Qed.

(* ===================================================================== *)
(** ** Arc-length integration *)
(* ===================================================================== *)

Open Scope R_scope.

Lemma segment_length_nonneg p q : 0 <= segment_length p q.
Proof. apply sqrt_pos. Qed.

Lemma py_last_cons {A : Type} (a : A) (l : list A) (d : A) :
  py_last (a :: l) = Ok (last (a :: l) d).
Proof.
  destruct (@exists_last _ (a :: l)) as (l' & b & E); [discriminate |].
  rewrite E, py_last_app, last_last. reflexivity.
Qed.

Lemma for_each_ok {A B : Type} (f : A -> result B) (g : A -> B) l :
  (forall a, In a l -> f a = Ok (g a)) ->
  for_each f l = Ok (map g l).
Proof.
  induction l as [|a l IH]; intros H; cbn; [reflexivity |].
  rewrite (H a) by now left. cbn.
  rewrite IH by (intros; apply H; now right). reflexivity.
Qed.

Lemma integrate_from_sorted prev rest c :
  StronglySorted Rle (c :: integrate_from prev rest c).
Proof.
  revert prev c; induction rest as [|cur rest IH]; intros prev c; cbn.
  - repeat constructor.
  - specialize (IH cur (c + segment_length prev cur)).
    pose proof (segment_length_nonneg prev cur) as Hseg.
    constructor; [exact IH |].
    apply StronglySorted_inv in IH. destruct IH as [_ Hall].
    constructor; [rlra |].
    eapply Forall_impl; [| exact Hall]. cbn. intros r Hr. rlra.
Qed.

Lemma cumulative_distances_sorted sorted :
  StronglySorted Rle (cumulative_distances sorted).
Proof.
  unfold cumulative_distances. destruct sorted as [|p rest].
  - repeat constructor.
  - apply integrate_from_sorted.
Qed.

Lemma StronglySorted_map_div (l : list R) (t : R) :
  0 < t -> StronglySorted Rle l ->
  StronglySorted Rle (map (fun d => d / t) l).
Proof.
  intros Ht. induction 1 as [|a l Hl IH Ha]; cbn; constructor; auto.
  rewrite Forall_map. eapply Forall_impl; [| exact Ha].
  cbn. intros b Hab. unfold Rdiv.
  apply Rmult_le_compat_r; [| exact Hab].
  left. now apply Rinv_0_lt_compat.
Qed.

Lemma py_last_map {A B : Type} (f : A -> B) (l : list A) (a : A) :
  py_last l = Ok a -> py_last (map f l) = Ok (f a).
Proof.
  unfold py_last. rewrite <- map_rev.
  destruct (rev l); cbn; [discriminate | congruence].
Qed.

(** What [_integrate_distance] returns when the total is not zero. *)
Lemma integrate_distance_ok sorted total :
  py_last (cumulative_distances sorted) = Ok total ->
  total <> 0 ->
  _integrate_distance sorted =
    Ok (cumulative_distances sorted,
        map (fun d => d / total) (cumulative_distances sorted)).
Proof.
  intros Hlast Hne. unfold _integrate_distance. cbv zeta.
  rewrite (for_each_ok _ (fun d => d / total)); [reflexivity |].
  intros d _. rewrite Hlast. cbn. unfold py_div.
  destruct (Req_dec_T total 0); [contradiction | reflexivity].
Qed.

(** Each entry after the first adds the length of one more segment, where
    the length is the square root of [get_sqr_dist]. *)
Lemma cumulative_distances_step sorted i p q d :
  nth_error sorted i = Some p ->
  nth_error sorted (S i) = Some q ->
  nth_error (cumulative_distances sorted) i = Some d ->
  nth_error (cumulative_distances sorted) (S i)
    = Some (d + segment_length p q).
Proof.
  unfold cumulative_distances.
  destruct sorted as [|first rest]; [destruct i; discriminate |].
  generalize 0. intros c. revert first rest p q d c.
  induction i as [|i IH]; intros first rest p q d c Hp Hq Hd.
  - cbn in Hp, Hd. injection Hp as ->. injection Hd as ->.
    destruct rest as [|r rest]; [discriminate |].
    cbn in Hq. injection Hq as ->. reflexivity.
  - destruct rest as [|r rest]; [destruct i; discriminate |].
    cbn in Hp, Hq, Hd |- *.
    apply (IH r rest p q d (c + segment_length first r)); assumption.
Qed.

Lemma Q2R_inject_Z (z : Z) : Q2R (inject_Z z) = IZR z.
Proof. unfold Q2R, inject_Z. cbn. field. Qed.

Lemma segment_length_0_3_4 : segment_length (pt 0 0) (pt 3 4) = sqrt 7.
Proof.
  unfold segment_length. f_equal.
  replace (get_sqr_dist (pt 0 0) (pt 3 4)) with (inject_Z 7)
    by (vm_compute; reflexivity).
  apply Q2R_inject_Z.
Qed.

Lemma euclidean_segment_length_0_3_4 :
  euclidean_segment_length (pt 0 0) (pt 3 4) = 5.
Proof.
  unfold euclidean_segment_length.
  replace (x (pt 3 4) - x (pt 0 0))%Q with (inject_Z 3)
    by (vm_compute; reflexivity).
  replace (y (pt 3 4) - y (pt 0 0))%Q with (inject_Z 4)
    by (vm_compute; reflexivity).
  rewrite !Q2R_inject_Z.
  replace (3 ^ 2 + 4 ^ 2) with (5 * 5) by ring.
  apply sqrt_square. rlra.
Qed.

Lemma sqrt_7_neq_5 : sqrt 7 <> 5.
Proof.
  intros H. assert (H7 : sqrt 7 * sqrt 7 = 7) by (apply sqrt_sqrt; rlra).
  rewrite H in H7. rlra.
Qed.

(** C1, at a failing input.  For the sorted points (0,0), (3,4) the code
    returns the cumulative distances [0, sqrt 7] (normalised: [0, 1]): the
    segment length is the square root of |dx| + |dy| = 7, whereas the
    Euclidean segment length sqrt(dx^2 + dy^2) is 5. *)
Theorem integrate_distance_not_euclidean :
  _integrate_distance [pt 0 0; pt 3 4] = Ok ([0; sqrt 7], [0; 1]) /\
  euclidean_segment_length (pt 0 0) (pt 3 4) = 5 /\
  sqrt 7 <> 5.
Proof.
  split; [| split; [apply euclidean_segment_length_0_3_4 | apply sqrt_7_neq_5]].
  assert (Hpos : 0 < sqrt 7) by (apply sqrt_lt_R0; rlra).
  assert (Hcum : cumulative_distances [pt 0 0; pt 3 4] = [0; sqrt 7]).
  { unfold cumulative_distances. cbn [integrate_from].
    rewrite segment_length_0_3_4, Rplus_0_l. reflexivity. }
  rewrite (integrate_distance_ok _ (sqrt 7)).
  - rewrite Hcum. cbn [map]. repeat f_equal; field; rlra.
  - rewrite Hcum. reflexivity.
  - rlra.
Qed.

(** C5.  For a non-empty sorted sequence with positive total length,
    [_integrate_distance] returns and a track is built; the cumulative
    distances are non-decreasing, the normalised distances start at 0, are
    non-decreasing and end at exactly 1. *)
Theorem integrate_distance_monotone (sorted : list TrackPoint) (total : R) :
  sorted <> [] ->
  py_last (cumulative_distances sorted) = Ok total ->
  0 < total ->
  exists distances normalized,
    _integrate_distance sorted = Ok (distances, normalized) /\
    track_of_sorted sorted
      = Ok (mkTrack (map x sorted) (map y sorted) distances normalized) /\
    StronglySorted Rle distances /\
    hd_error normalized = Some 0 /\
    StronglySorted Rle normalized /\
    py_last normalized = Ok 1.
Proof.
  intros Hne Hlast Hpos.
  assert (Hne0 : total <> 0) by rlra.
  pose proof (integrate_distance_ok sorted total Hlast Hne0) as Hint.
  pose proof (cumulative_distances_sorted sorted) as Hsorted.
  exists (cumulative_distances sorted),
         (map (fun d => d / total) (cumulative_distances sorted)).
  split; [exact Hint |]. split; [| split; [exact Hsorted | split; [| split]]].
  - unfold track_of_sorted. rewrite Hint. cbn [bind]. unfold DataFrame.
    assert (Hlen : length (cumulative_distances sorted) = length sorted).
    { destruct sorted as [|p rest]; [congruence |].
      unfold cumulative_distances. cbn. f_equal. clear.
      generalize 0. revert p. induction rest as [|q rest IH]; intros p c; cbn;
        [reflexivity | f_equal; apply IH]. }
    rewrite !length_map, Hlen, !Nat.eqb_refl. reflexivity.
  - unfold cumulative_distances. cbn. f_equal. field. exact Hne0.
  - now apply StronglySorted_map_div.
  - rewrite (py_last_map (fun d => d / total) _ _ Hlast).
    f_equal. field. exact Hne0.
Qed.

(** The scenario of the specification: the four corners of the unit
    square, every edge of length 1. *)
Example unit_square_distances :
  _integrate_distance unit_square = Ok ([0; 1; 2; 3], [0; 1 / 3; 2 / 3; 1]).
Proof.
  assert (Hseg : forall a b c d,
            get_sqr_dist (pt a b) (pt c d)
              = inject_Z (Z.abs (c - a) + Z.abs (d - b)) ->
            segment_length (pt a b) (pt c d)
              = sqrt (IZR (Z.abs (c - a) + Z.abs (d - b)))).
  { intros a b c d H. unfold segment_length. now rewrite H, Q2R_inject_Z. }
  assert (Hcum : cumulative_distances unit_square = [0; 1; 2; 3]).
  { unfold cumulative_distances, unit_square. cbn [integrate_from].
    rewrite !Hseg by (vm_compute; reflexivity). cbn [Z.abs Z.sub Z.add Z.opp
      Z.pos_sub Pos.add Pos.succ].
    rewrite sqrt_1. repeat f_equal; rlra. }
  rewrite (integrate_distance_ok _ 3).
  - rewrite Hcum. cbn [map]. repeat f_equal; field.
  - rewrite Hcum. reflexivity.
  - rlra.
Qed.

Lemma integrate_distance_monotone_witness :
  two_neighbours <> [] /\
  py_last (cumulative_distances two_neighbours) = Ok 1 /\
  0 < 1 /\
  exists distances normalized,
    _integrate_distance two_neighbours = Ok (distances, normalized) /\
    StronglySorted Rle normalized /\
    py_last normalized = Ok 1.
Proof.
  assert (Hne : two_neighbours <> []) by discriminate.
  assert (Hlast : py_last (cumulative_distances two_neighbours) = Ok 1).
  { unfold cumulative_distances, two_neighbours. cbn. f_equal.
    unfold segment_length.
    replace (get_sqr_dist (pt 0 0) (pt 1 0)) with (inject_Z 1)
      by (vm_compute; reflexivity).
    rewrite Q2R_inject_Z, sqrt_1. rlra. }
  assert (Hpos : 0 < 1) by rlra.
  split; [exact Hne |]. split; [exact Hlast |]. split; [exact Hpos |].
  destruct (integrate_distance_monotone two_neighbours 1 Hne Hlast Hpos)
    as (d & n & Hint & _ & _ & _ & Hn & Hend).
  exists d, n. auto.
Defined.

Close Scope R_scope.

(* ===================================================================== *)
(** ** Position at a time: [interpolate_pos_from_time] *)
(* ===================================================================== *)

Lemma key_le_trans a b c : key_le a b -> key_le b c -> key_le a c.
Proof. unfold key_le. apply Qle_trans. Qed.

Lemma insert_sorted_perm k i l :
  Permutation (insert_sorted k i l) ((k, i) :: l).
Proof.
  induction l as [|[k' i'] l IH]; cbn; [reflexivity |].
  destruct (Qltb k k'); [reflexivity |].
  rewrite IH. apply perm_swap.
Qed.

Lemma insert_sorted_sorted k i l :
  Sorted key_le l -> Sorted key_le (insert_sorted k i l).
Proof.
  induction l as [|[k' i'] l IH]; cbn; intros Hs.
  - repeat constructor.
  - destruct (Qltb k k') eqn:E.
    + constructor; [exact Hs |]. constructor. unfold key_le. cbn.
      apply Qltb_lt in E. qlra.
    + apply Qltb_ge in E. inversion Hs as [| ? ? Hl Hhd]; subst.
      constructor; [now apply IH |].
      destruct l as [|[k'' i''] l]; cbn.
      * constructor. exact E.
      * destruct (Qltb k k''); constructor; [exact E |].
        now inversion Hhd.
Qed.

Lemma sort_keyed_acc l acc :
  Sorted key_le acc ->
  Permutation (fold_left (fun a ki => insert_sorted (fst ki) (snd ki) a) l acc)
              (l ++ acc) /\
  Sorted key_le (fold_left (fun a ki => insert_sorted (fst ki) (snd ki) a) l acc).
Proof.
  revert acc; induction l as [|[k i] l IH]; intros acc Hacc; cbn.
  - split; [reflexivity | exact Hacc].
  - destruct (IH (insert_sorted k i acc)) as [Hp Hs].
    { now apply insert_sorted_sorted. }
    split; [| exact Hs].
    rewrite Hp, insert_sorted_perm. symmetry. apply Permutation_middle.
Qed.

Lemma sort_keyed_spec l :
  Permutation (sort_keyed l) l /\ StronglySorted key_le (sort_keyed l).
Proof.
  destruct (sort_keyed_acc l []) as [Hp Hs]; [constructor |].
  rewrite app_nil_r in Hp. split; [exact Hp |].
  apply Sorted_StronglySorted; [| exact Hs].
  intros a b c. apply key_le_trans.
Qed.

Lemma in_combine_seq (keys : list Q) (s : nat) k i :
  In (k, i) (combine keys (seq s (length keys))) <->
  (s <= i)%nat /\ nth_error keys (i - s) = Some k.
Proof.
  revert s; induction keys as [|a keys IH]; intros s; cbn.
  - split; [tauto | intros [_ H]; destruct (i - s)%nat; discriminate].
  - rewrite IH. split.
    + intros [H | [Hle Hn]].
      * injection H as <- <-. rewrite Nat.sub_diag. auto.
      * split; [lia |]. replace (i - s)%nat with (S (i - S s)) by lia.
        exact Hn.
    + intros [Hle Hn]. destruct (i - s)%nat as [|m] eqn:E.
      * left. cbn in Hn. injection Hn as ->. f_equal. lia.
      * right. split; [lia |]. replace (i - S s)%nat with m by lia. exact Hn.
Qed.

Lemma map_snd_combine_seq (keys : list Q) (s : nat) :
  map snd (combine keys (seq s (length keys))) = seq s (length keys).
Proof.
  revert s; induction keys as [|a keys IH]; intros s; cbn; [reflexivity |].
  now rewrite IH.
Qed.

(** The first two positions of [argsort] are two different positions whose
    keys are the two smallest. *)
Lemma argsort_two_smallest (keys : list Q) :
  (2 <= length keys)%nat ->
  exists i0 i1 rest k0 k1,
    argsort keys = i0 :: i1 :: rest /\
    i0 <> i1 /\
    nth_error keys i0 = Some k0 /\
    nth_error keys i1 = Some k1 /\
    k0 <= k1 /\
    forall j kj, nth_error keys j = Some kj -> j <> i0 -> k1 <= kj.
Proof.
  intros Hlen. unfold argsort.
  set (P := combine keys (seq 0 (length keys))).
  destruct (sort_keyed_spec P) as [Hperm Hsorted].
  assert (HlenP : length P = length keys).
  { unfold P. rewrite length_combine, length_seq. lia. }
  assert (Hnd : NoDup (map snd (sort_keyed P))).
  { eapply Permutation_NoDup.
    - symmetry. apply Permutation_map. exact Hperm.
    - unfold P. rewrite map_snd_combine_seq. apply seq_NoDup. }
  assert (Hin : forall k i, In (k, i) (sort_keyed P) <->
                            nth_error keys i = Some k).
  { intros k i. split.
    - intros H. eapply Permutation_in in H; [| exact Hperm].
      apply in_combine_seq in H. destruct H as [_ H].
      now rewrite Nat.sub_0_r in H.
    - intros H. eapply Permutation_in; [symmetry; exact Hperm |].
      apply in_combine_seq. rewrite Nat.sub_0_r. split; [lia | exact H]. }
  pose proof (Permutation_length Hperm) as HlenS.
  destruct (sort_keyed P) as [|[k0 i0] [|[k1 i1] S]];
    cbn in HlenS; try lia.
  exists i0, i1, (map snd S), k0, k1. cbn in Hnd |- *.
  inversion Hnd as [| ? ? Hni0 Hnd']; subst.
  inversion Hsorted as [| ? ? Hs0 Hall0]; subst.
  inversion Hs0 as [| ? ? Hs1 Hall1]; subst.
  inversion Hall0 as [| ? ? Hk01 _]; subst.
  split; [reflexivity |].
  split; [intros E; apply Hni0; left; auto |].
  split; [apply Hin; now left |].
  split; [apply Hin; right; now left |].
  split; [exact Hk01 |].
  intros j kj Hj Hne. apply Hin in Hj.
  destruct Hj as [Hj | [Hj | Hj]].
  - injection Hj as _ <-. contradiction.
  - injection Hj as <- _. apply Qle_refl.
  - rewrite Forall_forall in Hall1. exact (Hall1 _ Hj).
Qed.

(** C8.  For a driver with at least two samples with distinct timestamps,
    [interpolate_pos_from_time] returns; the two samples it uses are the two
    whose timestamps are nearest the query time by absolute difference; the
    result is the linear interpolation of x and y by the time fraction; the
    result is a function of the inputs; and at the timestamp of either sample
    the result has that sample's coordinates. *)
Theorem interpolate_pos_from_time_spec
    (pos : dict (list PosRow)) (drv : String.string) (rows : list PosRow)
    (query_date : Q) :
  getitem pos drv = Ok rows ->
  (2 <= length rows)%nat ->
  distinct_timestamps rows ->
  exists i0 i1 r0 r1 p,
    i0 <> i1 /\
    nth_error rows i0 = Some r0 /\
    nth_error rows i1 = Some r1 /\
    Qabs (Date r0 - query_date) <= Qabs (Date r1 - query_date) /\
    (forall j r, nth_error rows j = Some r -> j <> i0 ->
       Qabs (Date r1 - query_date) <= Qabs (Date r - query_date)) /\
    interpolate_pos_from_time pos drv query_date = Ok p /\
    x p = X r0 + (X r1 - X r0) * (query_date - Date r0) / (Date r1 - Date r0) /\
    y p = Y r0 + (Y r1 - Y r0) * (query_date - Date r0) / (Date r1 - Date r0) /\
    (forall p', interpolate_pos_from_time pos drv query_date = Ok p' -> p' = p) /\
    (query_date == Date r0 -> x p == X r0 /\ y p == Y r0) /\
    (query_date == Date r1 -> x p == X r1 /\ y p == Y r1).
Proof.
  intros Hget Hlen Hdist.
  set (key := fun r => Qabs (Date r - query_date)).
  destruct (argsort_two_smallest (map key rows))
    as (i0 & i1 & rest & k0 & k1 & Hsort & Hne & H0 & H1 & Hle & Hmin).
  { now rewrite length_map. }
  rewrite nth_error_map in H0, H1.
  destruct (nth_error rows i0) as [r0|] eqn:E0; [|discriminate].
  destruct (nth_error rows i1) as [r1|] eqn:E1; [|discriminate].
  cbn [option_map] in H0, H1. injection H0 as <-. injection H1 as <-.
  assert (Hdt : ~ Date r1 - Date r0 == 0).
  { intros H. apply (Hdist i1 i0 r1 r0 E1 E0); [congruence | qlra]. }
  assert (Hdiv : forall a, q_div a (Date r1 - Date r0)
                           = Ok (a / (Date r1 - Date r0))).
  { intros a. unfold q_div.
    destruct (Qeq_bool (Date r1 - Date r0) 0) eqn:E; [| reflexivity].
    apply Qeq_bool_iff in E. contradiction. }
  assert (Hres : interpolate_pos_from_time pos drv query_date
    = Ok (Point
        (X r0 + (X r1 - X r0) * (query_date - Date r0) / (Date r1 - Date r0))
        (Y r0 + (Y r1 - Y r0) * (query_date - Date r0) / (Date r1 - Date r0)))).
  { unfold interpolate_pos_from_time. rewrite Hget. cbn [bind].
    fold key. rewrite Hsort. cbn [firstn iloc flat_map app].
    rewrite E0, E1. cbn [app py_nth nth_error bind].
    rewrite !Hdiv. reflexivity. }
  exists i0, i1, r0, r1. eexists.
  split; [exact Hne |]. split; [exact E0 |]. split; [exact E1 |].
  split; [exact Hle |].
  split.
  { intros j r Hj Hji. apply (Hmin j); [| exact Hji].
    rewrite nth_error_map, Hj. reflexivity. }
  split; [exact Hres |]. cbn [x y Point].
  split; [reflexivity |]. split; [reflexivity |].
  split; [intros p' Hp'; rewrite Hres in Hp'; now injection Hp' as <- |].
  split; intros Hq; split; rewrite Hq; field; exact Hdt.
Qed.

Lemma three_samples_distinct :
  distinct_timestamps [mkPosRow 0 0 0; mkPosRow 1 10 0; mkPosRow 2 20 10].
Proof.
  intros i j ri rj Hi Hj Hne.
  destruct i as [|[|[|i]]]; cbn in Hi;
    [injection Hi as <- .. | destruct i; discriminate];
  (destruct j as [|[|[|j]]]; cbn in Hj;
    [injection Hj as <- .. | destruct j; discriminate]);
  try congruence; cbn; intros H; vm_compute in H; discriminate.
Qed.

Lemma interpolate_pos_from_time_spec_witness :
  getitem three_samples "44"
    = Ok [mkPosRow 0 0 0; mkPosRow 1 10 0; mkPosRow 2 20 10] /\
  (2 <= 3)%nat /\
  distinct_timestamps [mkPosRow 0 0 0; mkPosRow 1 10 0; mkPosRow 2 20 10] /\
  exists p, interpolate_pos_from_time three_samples "44" (1 # 2) = Ok p.
Proof.
  assert (Hget : getitem three_samples "44"
            = Ok [mkPosRow 0 0 0; mkPosRow 1 10 0; mkPosRow 2 20 10])
    by reflexivity.
  assert (Hlen : (2 <= 3)%nat) by lia.
  split; [exact Hget |]. split; [exact Hlen |].
  split; [exact three_samples_distinct |].
  destruct (interpolate_pos_from_time_spec three_samples "44" _ (1 # 2)
              Hget Hlen three_samples_distinct)
    as (_ & _ & _ & _ & p & _ & _ & _ & _ & _ & Hp & _).
  exists p. exact Hp.
Defined.

(* ===================================================================== *)
(** ** The start/finish condition, lap by lap *)
(* ===================================================================== *)

Lemma min_index_map_spec {A : Type} (f : A -> Q) (ps : list A) :
  ps <> [] ->
  exists i p,
    min_index (map f ps) = Ok i /\
    nth_error ps i = Some p /\
    forall q, In q ps -> f p <= f q.
Proof.
  intros Hne. unfold min_index.
  destruct (py_min_spec (map f ps)) as (m & Hm & Hin & Hle).
  { destruct ps; [congruence | discriminate]. }
  destruct (py_index_spec (map f ps) m) as (i & d & Hi & Hd & Hdm & _).
  { exists m. split; [assumption | reflexivity]. }
  rewrite Hm. cbn [bind]. rewrite Hi.
  rewrite nth_error_map in Hd.
  destruct (nth_error ps i) as [p|] eqn:Hp; [| discriminate].
  cbn in Hd. injection Hd as <-.
  exists i, p. repeat split; auto.
  intros q Hq. rewrite Hdm. apply Hle. now apply in_map.
Qed.

Lemma side_steps_spec tp rows s :
  fold_left (side_step tp) rows s =
  mkSides
    (pos_distances s ++ map (get_sqr_dist tp)
       (filter (fun p => Qltb (x p) (x tp)) (map point_of_row rows)))
    (neg_distances s ++ map (get_sqr_dist tp)
       (filter (fun p => negb (Qltb (x p) (x tp))) (map point_of_row rows)))
    (pos_points s ++
       filter (fun p => Qltb (x p) (x tp)) (map point_of_row rows))
    (neg_points s ++
       filter (fun p => negb (Qltb (x p) (x tp))) (map point_of_row rows)).
Proof.
  revert s; induction rows as [|r rows IH]; intros s; cbn [fold_left map filter].
  - rewrite !app_nil_r. now destruct s.
  - rewrite IH. unfold side_step.
    destruct (Qltb (x (point_of_row r)) (x tp)); cbn;
      now rewrite <- ?app_assoc.
Qed.

Lemma split_sides_spec tp rows :
  split_sides tp rows =
  mkSides
    (map (get_sqr_dist tp)
       (filter (fun p => Qltb (x p) (x tp)) (map point_of_row rows)))
    (map (get_sqr_dist tp)
       (filter (fun p => negb (Qltb (x p) (x tp))) (map point_of_row rows)))
    (filter (fun p => Qltb (x p) (x tp)) (map point_of_row rows))
    (filter (fun p => negb (Qltb (x p) (x tp))) (map point_of_row rows)).
Proof. unfold split_sides. now rewrite side_steps_spec. Qed.

Lemma is_empty_map {A B : Type} (f : A -> B) l :
  is_empty (map f l) = is_empty l.
Proof. now destruct l. Qed.

Lemma in_query_window t_start t_end frame r :
  In r (query_window t_start t_end frame) <->
  In r frame /\ t_start < Date r /\ Date r < t_end.
Proof.
  unfold query_window. rewrite filter_In, andb_true_iff, !Qltb_lt. tauto.
Qed.

Lemma column_max_acc (l : list (option Q)) (acc : option Q) :
  let step := fun (acc : option Q) (v : option Q) =>
    match acc, v with
    | _, None => acc
    | None, Some q => Some q
    | Some m, Some q => if Qltb m q then Some q else Some m
    end in
  (fold_left step l acc = None ->
   acc = None /\ forall v, In v l -> v = None) /\
  (forall m, fold_left step l acc = Some m ->
   (acc = Some m \/ In (Some m) l) /\
   (forall q, acc = Some q \/ In (Some q) l -> q <= m)).
Proof.
  cbv zeta. revert acc; induction l as [|v l IH]; intros acc; cbn [fold_left].
  - split.
    + intros ->. split; [reflexivity | intros v []].
    + intros m ->. split; [now left |].
      intros q [E | []]. injection E as <-. qlra.
  - destruct (IH (match acc, v with
                  | _, None => acc
                  | None, Some q => Some q
                  | Some m, Some q => if Qltb m q then Some q else Some m
                  end)) as [IHn IHs].
    split.
    + intros H. apply IHn in H. destruct H as [Hacc Hl].
      destruct acc as [a|], v as [q|]; try discriminate.
      * destruct (Qltb a q); discriminate.
      * split; [reflexivity |]. intros v [<- | Hv]; auto.
    + intros m H. apply IHs in H. destruct H as [Hin Hmax].
      destruct acc as [a|], v as [q|].
      * destruct (Qltb a q) eqn:E.
        -- apply Qltb_lt in E. split.
           ++ destruct Hin as [Hin | Hin]; [| now right; right].
              right. left. exact Hin.
           ++ intros q' [Hq | [Hq | Hq]].
              ** injection Hq as <-.
                 assert (q <= m) by (apply Hmax; now left). qlra.
              ** injection Hq as <-. apply Hmax. now left.
              ** apply Hmax. now right.
        -- apply Qltb_ge in E. split.
           ++ destruct Hin as [Hin | Hin]; [now left | now right; right].
           ++ intros q' [Hq | [Hq | Hq]].
              ** apply Hmax. now left.
              ** injection Hq as <-.
                 assert (a <= m) by (apply Hmax; now left). qlra.
              ** apply Hmax. now right.
      * split.
        -- destruct Hin as [Hin | Hin]; [now left | now right; right].
        -- intros q' [Hq | [Hq | Hq]]; try discriminate.
           ++ apply Hmax. now left.
           ++ apply Hmax. now right.
      * split.
        -- destruct Hin as [Hin | Hin]; [| now right; right].
           right. left. exact Hin.
        -- intros q' [Hq | [Hq | Hq]]; try discriminate.
           ++ injection Hq as <-. apply Hmax. now left.
           ++ apply Hmax. now right.
      * split.
        -- destruct Hin as [Hin | Hin]; [discriminate | now right; right].
        -- intros q' [Hq | [Hq | Hq]]; try discriminate.
           apply Hmax. now right.
Qed.

(** [column.max()] is null when every entry is, and otherwise an entry that
    no other entry exceeds. *)
Lemma column_max_spec (l : list (option Q)) :
  (column_max l = None -> forall v, In v l -> v = None) /\
  (forall m, column_max l = Some m ->
   In (Some m) l /\ forall q, In (Some q) l -> q <= m).
Proof.
  unfold column_max. destruct (column_max_acc l None) as [Hn Hs]. split.
  - intros H. now apply Hn.
  - intros m H. apply Hs in H. destruct H as [[H | H] Hmax]; [discriminate |].
    split; [exact H |]. intros q Hq. apply Hmax. now right.
Qed.

Lemma in_sides tp t_start t_end frame p :
  (In p (pos_points (split_sides tp (query_window t_start t_end frame))) <->
   exists r, (In r frame /\ t_start < Date r /\ Date r < t_end) /\
             p = point_of_row r /\ X r < x tp) /\
  (In p (neg_points (split_sides tp (query_window t_start t_end frame))) <->
   exists r, (In r frame /\ t_start < Date r /\ Date r < t_end) /\
             p = point_of_row r /\ x tp <= X r).
Proof.
  rewrite split_sides_spec. cbn [pos_points neg_points].
  rewrite !filter_In, !in_map_iff, negb_true_iff, Qltb_lt, Qltb_ge.
  split; split.
  - intros [(r & <- & Hr) Hx]. exists r.
    apply in_query_window in Hr. auto.
  - intros (r & Hr & -> & Hx). split; [| exact Hx].
    exists r. split; [reflexivity |]. now apply in_query_window.
  - intros [(r & <- & Hr) Hx]. exists r.
    apply in_query_window in Hr. auto.
  - intros (r & Hr & -> & Hx). split; [| exact Hx].
    exists r. split; [reflexivity |]. now apply in_query_window.
Qed.

(** C7.  [for_driver] runs the lap loop over the rows of the laps table that
    are the driver's, in the order of the table, with the driver's highest
    lap number as the last lap.  A lap that fails the usability test adds
    nothing.  For a usable lap the samples considered are those of the
    driver whose date is strictly within 10 seconds of the approximate
    crossing time; they are split into those with x below the candidate's x
    and the others.  When one side is empty the lap adds nothing, nothing is
    raised and the loop goes on with the next lap; otherwise a sample nearest
    the candidate is taken from each side, and the loop goes on with the next
    lap once the point derived from the two samples is appended. *)
Theorem for_driver_lap
    (data : ConditionData) (drv : String.string) (test_point : TrackPoint)
    (drv_last_lap : option Q) (lap : Lap) (laps : list Lap)
    (res_x res_y : list Q) (drv_pos : list PosRow) :
  getitem (data_pos data) drv = Ok drv_pos ->
  let approx_time := data_session_start_date data + Time lap in
  let in_window (r : PosRow) :=
    In r drv_pos /\ approx_time - 10 < Date r /\ Date r < approx_time + 10 in
  let before (p : TrackPoint) :=
    exists r, in_window r /\ p = point_of_row r /\ X r < x test_point in
  let after (p : TrackPoint) :=
    exists r, in_window r /\ p = point_of_row r /\ x test_point <= X r in
  let s :=
    split_sides test_point
      (query_window (approx_time - 10) (approx_time + 10) drv_pos) in
  (exists last,
     for_driver data drv test_point =
       for_laps data drv test_point last
         (filter (fun l => String.eqb (Driver l) drv) (data_laps data))
         [] [] /\
     (forall l,
        In l (filter (fun l => String.eqb (Driver l) drv) (data_laps data))
        <-> In l (data_laps data) /\ Driver l = drv) /\
     (last = None ->
      forall l, In l (data_laps data) -> Driver l = drv ->
                NumberOfLaps l = None) /\
     (forall m, last = Some m ->
        (exists l, In l (data_laps data) /\ Driver l = drv /\
                   NumberOfLaps l = Some m) /\
        (forall l n, In l (data_laps data) -> Driver l = drv ->
                     NumberOfLaps l = Some n -> n <= m))) /\
  (forall r, in_window r ->
     (before (point_of_row r) /\ ~ after (point_of_row r)) \/
     (after (point_of_row r) /\ ~ before (point_of_row r))) /\
  (forall p, In p (pos_points s) <-> before p) /\
  (forall p, In p (neg_points s) <-> after p) /\
  (lap_skipped drv_last_lap lap = true ->
   for_lap data drv test_point drv_last_lap lap = Ok None /\
   for_laps data drv test_point drv_last_lap (lap :: laps) res_x res_y
   = for_laps data drv test_point drv_last_lap laps res_x res_y) /\
  (lap_skipped drv_last_lap lap = false ->
   ((forall p, ~ before p) \/ (forall p, ~ after p) ->
    for_lap data drv test_point drv_last_lap lap = Ok None /\
    for_laps data drv test_point drv_last_lap (lap :: laps) res_x res_y
    = for_laps data drv test_point drv_last_lap laps res_x res_y) /\
   (forall b a, before b -> after a ->
    exists p_a p_b,
      before p_a /\
      (forall q, before q ->
         get_sqr_dist test_point p_a <= get_sqr_dist test_point q) /\
      after p_b /\
      (forall q, after q ->
         get_sqr_dist test_point p_b <= get_sqr_dist test_point q) /\
      for_lap data drv test_point drv_last_lap lap
      = (r <- lap_start_point data drv test_point lap p_a p_b ;;
         Ok (Some r)) /\
      for_laps data drv test_point drv_last_lap (lap :: laps) res_x res_y
      = (r <- lap_start_point data drv test_point lap p_a p_b ;;
         for_laps data drv test_point drv_last_lap laps
                  (res_x ++ [fst r]) (res_y ++ [snd r])))).
Proof.
  intros Hget approx_time in_window before after s.
  assert (Hpos : forall p, In p (pos_points s) <-> before p).
  { intros p. apply (proj1 (in_sides _ _ _ _ p)). }
  assert (Hneg : forall p, In p (neg_points s) <-> after p).
  { intros p. apply (proj2 (in_sides _ _ _ _ p)). }
  split.
  { exists (column_max (map NumberOfLaps
              (filter (fun l => String.eqb (Driver l) drv) (data_laps data)))).
    destruct (column_max_spec (map NumberOfLaps
                (filter (fun l => String.eqb (Driver l) drv)
                        (data_laps data)))) as [Hnone Hsome].
    assert (Hin : forall l,
              In l (filter (fun l => String.eqb (Driver l) drv)
                           (data_laps data))
              <-> In l (data_laps data) /\ Driver l = drv).
    { intros l. rewrite filter_In, String.eqb_eq. reflexivity. }
    split; [reflexivity |]. split; [exact Hin |]. split.
    - intros E l Hl Hd. apply (Hnone E). apply in_map. apply Hin. auto.
    - intros m E. destruct (Hsome m E) as [Hm Hmax]. split.
      + apply in_map_iff in Hm. destruct Hm as (l & El & Hl).
        apply Hin in Hl. exists l. tauto.
      + intros l n Hl Hd En. apply Hmax. rewrite <- En.
        apply in_map. apply Hin. auto. }
  split.
  { intros r Hr.
    destruct (Qlt_le_dec (X r) (x test_point)) as [Hx | Hx].
    - left. split; [exists r; auto |].
      intros (r' & _ & E & Hx').
      assert (E' : X r' = X r) by (injection E; auto).
      rewrite E' in Hx'. qlra.
    - right. split; [exists r; auto |].
      intros (r' & _ & E & Hx').
      assert (E' : X r' = X r) by (injection E; auto).
      rewrite E' in Hx'. qlra. }
  split; [exact Hpos |]. split; [exact Hneg |].
  split.
  { intros Hskip.
    assert (H : for_lap data drv test_point drv_last_lap lap = Ok None).
    { unfold for_lap. rewrite Hskip. reflexivity. }
    split; [exact H |]. cbn [for_laps]. rewrite H. reflexivity. }
  intros Hskip.
  assert (Hlap : for_lap data drv test_point drv_last_lap lap =
    if is_empty (neg_points s) || is_empty (pos_points s) then Ok None
    else
      i_a <- min_index (map (get_sqr_dist test_point) (pos_points s)) ;;
      p_a <- py_nth (pos_points s) i_a ;;
      i_b <- min_index (map (get_sqr_dist test_point) (neg_points s)) ;;
      p_b <- py_nth (neg_points s) i_b ;;
      r <- lap_start_point data drv test_point lap p_a p_b ;;
      Ok (Some r)).
  { unfold for_lap. rewrite Hskip, Hget. cbn [bind]. cbv zeta.
    unfold s, approx_time. rewrite split_sides_spec.
    cbn [pos_distances neg_distances pos_points neg_points].
    rewrite !is_empty_map. reflexivity. }
  split.
  - intros Hempty.
    assert (H : for_lap data drv test_point drv_last_lap lap = Ok None).
    { rewrite Hlap. destruct Hempty as [Hb | Ha].
      - destruct (pos_points s) as [|b l] eqn:E.
        + cbn. now rewrite orb_true_r.
        + exfalso. apply (Hb b). apply Hpos. now left.
      - destruct (neg_points s) as [|a l] eqn:E.
        + reflexivity.
        + exfalso. apply (Ha a). apply Hneg. now left. }
    split; [exact H |]. cbn [for_laps]. rewrite H. reflexivity.
  - intros b a Hb Ha.
    apply Hpos in Hb. apply Hneg in Ha.
    assert (Hbne : pos_points s <> []) by (intros E; rewrite E in Hb; exact Hb).
    assert (Hane : neg_points s <> []) by (intros E; rewrite E in Ha; exact Ha).
    destruct (min_index_map_spec (get_sqr_dist test_point) _ Hbne)
      as (ia & p_a & Hia & Hpa & Hmina).
    destruct (min_index_map_spec (get_sqr_dist test_point) _ Hane)
      as (ib & p_b & Hib & Hpb & Hminb).
    exists p_a, p_b.
    assert (H : for_lap data drv test_point drv_last_lap lap
                = (r <- lap_start_point data drv test_point lap p_a p_b ;;
                   Ok (Some r))).
    { rewrite Hlap.
      destruct (neg_points s); [congruence |].
      destruct (pos_points s); [congruence |].
      cbn [is_empty orb]. rewrite Hia. cbn [bind].
      unfold py_nth at 1. rewrite Hpa. cbn [bind].
      rewrite Hib. cbn [bind].
      unfold py_nth at 1. rewrite Hpb. reflexivity. }
    split; [apply Hpos; eapply nth_error_In; eauto |].
    split; [intros q Hq; apply Hmina; now apply Hpos |].
    split; [apply Hneg; eapply nth_error_In; eauto |].
    split; [intros q Hq; apply Hminb; now apply Hneg |].
    split; [exact H |].
    cbn [for_laps]. rewrite H.
    destruct (lap_start_point data drv test_point lap p_a p_b) as [[px py]|e];
      reflexivity.
Qed.

Lemma for_driver_lap_witness :
  (getitem (data_pos one_sided_data) "44"
     = Ok [mkPosRow 5 0 0; mkPosRow 100 5 0; mkPosRow 200 20 0] /\
   for_lap one_sided_data "44" (pt 10 0) (Some 3) lap_2 = Ok None /\
   for_laps one_sided_data "44" (pt 10 0) (Some 3) [lap_2; lap_3] [] []
   = for_laps one_sided_data "44" (pt 10 0) (Some 3) [lap_3] [] []) /\
  (getitem (data_pos crossing_data) "44"
     = Ok [mkPosRow 5 0 0; mkPosRow 8 6 0; mkPosRow 9 12 0;
           mkPosRow 95 5 0; mkPosRow 105 20 0; mkPosRow 200 20 0] /\
   for_lap crossing_data "44" (pt 10 0) (Some 3) lap_2
   = (r <- lap_start_point crossing_data "44" (pt 10 0) lap_2
             (point_of_row (mkPosRow 95 5 0))
             (point_of_row (mkPosRow 105 20 0)) ;;
      Ok (Some r)) /\
   for_lap crossing_data "44" (pt 10 0) (Some 3) lap_2
   = Ok (Some (120 # 15, 0 # 15))).
Proof.
  split.
  - assert (Hget : getitem (data_pos one_sided_data) "44"
              = Ok [mkPosRow 5 0 0; mkPosRow 100 5 0; mkPosRow 200 20 0])
      by reflexivity.
    split; [exact Hget |].
    destruct (for_driver_lap one_sided_data "44" (pt 10 0) (Some 3) lap_2
                [lap_3] [] [] _ Hget) as (_ & _ & _ & _ & _ & Husable).
    destruct (Husable eq_refl) as [Hempty _].
    apply Hempty. right.
    intros p (r & (Hr & Hlo & Hhi) & _ & Hx).
    destruct Hr as [<- | [<- | [<- | []]]];
      first [ now vm_compute in Hlo | now vm_compute in Hhi
            | apply Hx; reflexivity ].
  - assert (Hget : getitem (data_pos crossing_data) "44"
              = Ok [mkPosRow 5 0 0; mkPosRow 8 6 0; mkPosRow 9 12 0;
                    mkPosRow 95 5 0; mkPosRow 105 20 0; mkPosRow 200 20 0])
      by reflexivity.
    split; [exact Hget |].
    destruct (for_driver_lap crossing_data "44" (pt 10 0) (Some 3) lap_2
                [lap_3] [] [] _ Hget) as (_ & _ & _ & _ & _ & Husable).
    destruct (Husable eq_refl) as [_ Hfound].
    destruct (Hfound (point_of_row (mkPosRow 95 5 0))
                     (point_of_row (mkPosRow 105 20 0)))
      as (p_a & p_b & Hb & _ & Ha & _ & Hlap & _).
    + exists (mkPosRow 95 5 0). split; [| split; [reflexivity |]].
      * split; [cbn; tauto |]. split; reflexivity.
      * reflexivity.
    + exists (mkPosRow 105 20 0). split; [| split; [reflexivity |]].
      * split; [cbn; tauto |]. split; reflexivity.
      * discriminate.
    + assert (Ea : p_a = point_of_row (mkPosRow 95 5 0)).
      { destruct Hb as (r & (Hr & Hlo & Hhi) & -> & Hx).
        destruct Hr as [<- | [<- | [<- | [<- | [<- | [<- | []]]]]]];
          first [ reflexivity | now vm_compute in Hlo | now vm_compute in Hhi
                | now vm_compute in Hx ]. }
      assert (Eb : p_b = point_of_row (mkPosRow 105 20 0)).
      { destruct Ha as (r & (Hr & Hlo & Hhi) & -> & Hx).
        destruct Hr as [<- | [<- | [<- | [<- | [<- | [<- | []]]]]]];
          first [ reflexivity | now vm_compute in Hlo | now vm_compute in Hhi
                | exfalso; apply Hx; reflexivity ]. }
      subst p_a p_b. split; [exact Hlap |].
      rewrite Hlap. vm_compute. reflexivity.
Defined.

Example for_driver_one_sided :
  for_driver one_sided_data "44" (pt 10 0) = Ok ([], []).
Proof. vm_compute. reflexivity. Qed.

(* ===================================================================== *)
(** ** Time at a position: [get_time_from_pos] *)
(* ===================================================================== *)

Lemma getattr_X_raises p : getattr p "X" = Raise AttributeError.
Proof. reflexivity. Qed.

(** The method never returns: whatever the arguments, it raises, and the
    position data is as before the call. *)
Lemma get_time_from_pos_raises pos sorted drv px py t0 t1 :
  exists e, get_time_from_pos pos sorted drv px py t0 t1 = (Raise e, pos).
Proof.
  unfold get_time_from_pos.
  destruct (getitem pos drv) as [drv_pos|e]; [| eauto].
  destruct (get_closest_point sorted (Point px py)) as [c|e]; [| eauto].
  rewrite getattr_X_raises. eauto.
Qed.

(** C9, at a failing input.  The track has the single point (0,0) and
    driver 44 has one sample, at date 5, on that point.  Asked for the time
    at (0,0) within [0, 10], the method raises [AttributeError] (the track
    point has no attribute [X]) instead of returning 5; the position data is
    unchanged, because the right-hand side raises before the assignment to
    [drv_pos.X].  The same holds for every input: the method never returns a
    date or [None]. *)
Theorem get_time_from_pos_attribute_error :
  get_time_from_pos one_sample [pt 0 0] "44" 0 0 0 10
    = (Raise AttributeError, one_sample) /\
  forall pos sorted drv px py t0 t1 r pos',
    get_time_from_pos pos sorted drv px py t0 t1 = (r, pos') ->
    pos' = pos /\ forall v, r <> Ok v.
Proof.
  split; [reflexivity |].
  intros pos sorted drv px py t0 t1 r pos' H.
  destruct (get_time_from_pos_raises pos sorted drv px py t0 t1) as [e He].
  rewrite He in H. injection H as <- <-.
  split; [reflexivity | discriminate].
Qed.

(* ===================================================================== *)
(** ** Results dicts *)
(* ===================================================================== *)

Lemma results_get_add results k d c :
  results_get (add_result results k d) c =
  if Nat.eqb k c then join_results (results_get results k) (Some d)
  else results_get results c.
Proof.
  induction results as [|[k' [xs ys]] rest IH]; cbn.
  - destruct (Nat.eqb k c); destruct d; reflexivity.
  - destruct (Nat.eqb k' k) eqn:E; cbn.
    + apply Nat.eqb_eq in E. subst k'.
      destruct (Nat.eqb k c); [destruct d |]; reflexivity.
    + destruct (Nat.eqb k' c) eqn:E'.
      * apply Nat.eqb_eq in E'. subst k'.
        rewrite Nat.eqb_sym, E. reflexivity.
      * exact IH.
Qed.

Lemma add_result_keys results k d :
  NoDup (map fst results) ->
  NoDup (map fst (add_result results k d)) /\
  forall c, In c (map fst (add_result results k d)) <->
            c = k \/ In c (map fst results).
Proof.
  induction results as [|[k' [xs ys]] rest IH]; cbn; intros Hnd.
  - split; [repeat constructor; auto | intros c; intuition].
  - inversion Hnd as [| ? ? Hnotin Hrest]; subst.
    destruct (Nat.eqb k' k) eqn:E; cbn.
    + apply Nat.eqb_eq in E. subst k'.
      split; [constructor; auto | intros c; intuition].
    + destruct (IH Hrest) as [Hnd' Hin].
      split.
      * constructor; [| exact Hnd']. rewrite Hin. intros [-> | H].
        -- rewrite Nat.eqb_refl in E. discriminate.
        -- contradiction.
      * intros c. rewrite Hin. intuition.
Qed.

Lemma results_get_None results c :
  ~ In c (map fst results) -> results_get results c = None.
Proof.
  induction results as [|[k v] rest IH]; cbn; intros H; [reflexivity |].
  destruct (Nat.eqb k c) eqn:E.
  - apply Nat.eqb_eq in E. tauto.
  - apply IH. tauto.
Qed.

Lemma join_results_None_r a : join_results a None = a.
Proof. destruct a as [[xs ys]|]; reflexivity. Qed.

Lemma join_results_assoc a b c :
  join_results (join_results a b) c = join_results a (join_results b c).
Proof.
  destruct a as [[xa ya]|], b as [[xb yb]|], c as [[xc yc]|]; cbn;
    rewrite <- ?app_assoc; reflexivity.
Qed.

Lemma merge_report_spec res results c :
  NoDup (map fst res) ->
  NoDup (map fst results) ->
  NoDup (map fst (merge_report results res)) /\
  results_get (merge_report results res) c
  = join_results (results_get results c) (results_get res c).
Proof.
  unfold merge_report.
  revert results; induction res as [|[k d] res IH]; cbn; intros results Hr Hacc.
  - split; [exact Hacc | now rewrite join_results_None_r].
  - inversion Hr as [| ? ? Hnotin Hres]; subst.
    destruct (add_result_keys results k d Hacc) as [Hnd' _].
    destruct (IH (add_result results k d) Hres Hnd') as [Hnd Hget].
    split; [exact Hnd |].
    rewrite Hget, results_get_add.
    destruct (Nat.eqb k c) eqn:E.
    + apply Nat.eqb_eq in E. subst c.
      rewrite (results_get_None res k Hnotin). apply join_results_None_r.
    + reflexivity.
Qed.

Section IdleBarrier.

Variable number_of_processes : nat.
Variable conditions : nat -> String.string -> TrackPoint -> list Q * list Q.

Lemma gathered_app c tr1 tr2 :
  gathered conditions c (tr1 ++ tr2) = join_results (gathered conditions c tr1) (gathered conditions c tr2).
Proof.
  unfold gathered. rewrite filter_app.
  destruct (filter _ tr1) as [|a l1]; cbn; [reflexivity |].
  destruct (filter _ tr2) as [|b l2]; cbn.
  - now rewrite app_nil_r.
  - rewrite !map_app, !concat_app. cbn. now rewrite <- !app_assoc.
Qed.

Lemma gathered_one c t :
  gathered conditions c [t] = if Nat.eqb (c_index_of t) c then Some (output conditions t) else None.
Proof.
  unfold gathered. cbn. destruct (Nat.eqb (c_index_of t) c); [| reflexivity].
  cbn. rewrite !app_nil_r. now destruct (output conditions t).
Qed.

Lemma holds_nil : holds conditions [] [].
Proof. split; [constructor | reflexivity]. Qed.

Lemma holds_add results trace t :
  holds conditions results trace ->
  holds conditions (add_result results (c_index_of t) (output conditions t)) (trace ++ [t]).
Proof.
  intros [Hnd Hget]. split.
  - now apply add_result_keys.
  - intros c. rewrite results_get_add, gathered_app, gathered_one, <- !Hget.
    destruct (Nat.eqb (c_index_of t) c) eqn:E.
    + apply Nat.eqb_eq in E. now subst c.
    + now rewrite join_results_None_r.
Qed.

Lemma holds_merge results trace res trace' :
  holds conditions results trace -> holds conditions res trace' ->
  holds conditions (merge_report results res) (trace ++ trace').
Proof.
  intros [Hnd Hget] [Hnd' Hget']. split.
  - now apply merge_report_spec.
  - intros c. rewrite gathered_app, <- Hget, <- Hget'.
    now apply merge_report_spec.
Qed.

(* ===================================================================== *)
(** ** The idle barrier: an invariant of all interleavings *)
(* ===================================================================== *)

Ltac split_all := repeat match goal with |- _ /\ _ => split end.

(** Lists up to the order of their elements, for [aac_reflexivity]. *)
#[local] Instance app_Permutation_assoc (A : Type) :
  Associative (@Permutation A) (@app A).
Proof. intros l1 l2 l3. now rewrite app_assoc. Qed.

#[local] Instance app_Permutation_comm (A : Type) :
  Commutative (@Permutation A) (@app A).
Proof. intros l1 l2. apply Permutation_app_comm. Qed.

#[local] Instance app_Permutation_unit (A : Type) :
  Unit (@Permutation A) (@app A) (@nil A).
Proof. split; intros l; [reflexivity | now rewrite app_nil_r]. Qed.

Lemma set_nth_split {A : Type} (l : list A) i a :
  nth_error l i = Some a ->
  exists l1 l2, l = l1 ++ a :: l2 /\
                forall b, set_nth i b l = l1 ++ b :: l2.
Proof.
  revert i; induction l as [|c l IH]; intros [|i] H; cbn in H;
    try discriminate.
  - injection H as ->. exists [], l. auto.
  - destruct (IH i H) as (l1 & l2 & -> & Hset).
    exists (c :: l1), l2. split; [reflexivity |].
    intros b. cbn. now rewrite Hset.
Qed.

Lemma num_active_split ws1 w ws2 :
  num_active (ws1 ++ w :: ws2)
  = (num_active ws1 + active w + num_active ws2)%nat.
Proof.
  unfold num_active. rewrite map_app, list_sum_app.
  change (list_sum (map active (w :: ws2)))
    with (active w + list_sum (map active ws2))%nat.
  lia.
Qed.

Lemma num_active_0 ws :
  num_active ws = 0%nat -> Forall (fun w => w = AtResumeGet \/ w = Returned) ws.
Proof.
  induction ws as [|w ws IH]; intros H; constructor.
  - destruct w; cbn in H; try discriminate; auto.
  - apply IH. unfold num_active in *. destruct w; cbn in H; try discriminate;
      exact H.
Qed.

Lemma tasks_head (tsq : list task_args) (j : nat) (hd : task) rest :
  map Work tsq ++ repeat IdleTask j = hd :: rest ->
  (exists t tsq', tsq = t :: tsq' /\ hd = Work t /\
                  rest = map Work tsq' ++ repeat IdleTask j) \/
  (exists j', tsq = [] /\ j = S j' /\ hd = IdleTask /\
              rest = map Work [] ++ repeat IdleTask j').
Proof.
  destruct tsq as [|t tsq]; cbn; intros H.
  - right. destruct j as [|j]; cbn in H; [discriminate |].
    injection H as <- <-. eauto.
  - left. injection H as <- <-. eauto.
Qed.

Open Scope nat_scope.

Lemma worker_holds_split ws1 w ws2 on_workers :
  Forall2 (worker_holds conditions) (ws1 ++ w :: ws2) on_workers ->
  exists tr1 tr tr2,
    on_workers = tr1 ++ tr :: tr2 /\
    worker_holds conditions w tr /\
    forall w' tr', worker_holds conditions w' tr' ->
      Forall2 (worker_holds conditions) (ws1 ++ w' :: ws2) (tr1 ++ tr' :: tr2).
Proof.
  intros H. apply Forall2_app_inv_l in H.
  destruct H as (tr1 & tr2' & H1 & H2 & ->).
  inversion H2 as [| ? tr ? tr2 Hw H2' ]; subst.
  exists tr1, tr, tr2. repeat split; auto.
  intros w' tr' Hw'. apply Forall2_app; [exact H1 |]. now constructor.
Qed.

Lemma sub_step_main i s s' :
  sub_step conditions i s = Some s' -> main s' = main s.
Proof.
  unfold sub_step. intros H.
  destruct (nth_error (subprocesses s) i) as [[res | res t | |]|];
    try discriminate.
  - destruct (tasks s) as [|[t | |] rest]; try discriminate;
      injection H as <-; reflexivity.
  - injection H as <-; reflexivity.
  - destruct (resume s) as [|[|] rest]; try discriminate;
      injection H as <-; reflexivity.
Qed.

(** Steps of subprocesses keep the invariant of the sweep step. *)
Lemma sub_step_sweep_inv step_tasks todo pending idle_count results i s s' :
  sweep_inv number_of_processes conditions step_tasks todo pending idle_count results s ->
  sub_step conditions i s = Some s' ->
  sweep_inv number_of_processes conditions step_tasks todo pending idle_count results s'.
Proof.
  intros (queued & markers & resumes & on_workers & in_reports & merged
          & Htasks & Hresume & Hrun & Hcount & Hqueued & Htodo
          & Hworkers & Hreports & Hmerged & Hperm) Hstep.
  unfold sub_step in Hstep.
  destruct (nth_error (subprocesses s) i) as [w|] eqn:Hw; [| discriminate].
  destruct (set_nth_split _ _ _ Hw) as (ws1 & ws2 & Hws & Hset).
  rewrite Hws in Hworkers, Hrun. rewrite num_active_split in Hrun.
  destruct (worker_holds_split _ _ _ _ Hworkers)
    as (tr1 & tr & tr2 & -> & Hwtr & Hupd).
  rewrite concat_app in Hperm. cbn [concat] in Hperm.
  destruct w as [res | res t | |]; cbn [active] in Hrun.
  - (* in task_queue.get() *)
    destruct (tasks s) as [|hd rest] eqn:Eq; [discriminate |].
    symmetry in Htasks.
    destruct (tasks_head _ _ _ _ Htasks)
      as [(t & queued' & -> & -> & Hrest) | (markers' & -> & -> & -> & Hrest)].
    + (* a task tuple *)
      injection Hstep as <-. unfold sweep_inv.
      cbn [subprocesses tasks idling resume].
      exists queued', markers, resumes,
             (tr1 ++ (tr ++ [t]) :: tr2), in_reports, merged.
      rewrite Hset, num_active_split. cbn [active].
      split_all; auto.
      * intros Hlt. specialize (Hqueued Hlt). discriminate.
      * apply Hupd. cbn. eauto.
      * rewrite Hperm, concat_app. cbn [concat].
        change (t :: queued') with ([t] ++ queued'). aac_reflexivity.
    + (* an idle marker *)
      injection Hstep as <-. unfold sweep_inv.
      cbn [subprocesses tasks idling resume].
      exists [], markers', resumes, (tr1 ++ [] :: tr2),
             (in_reports ++ [tr]), merged.
      rewrite Hset, num_active_split, length_app. cbn [active length].
      split_all; auto; try lia.
      * apply Hupd. reflexivity.
      * apply Forall2_app; [exact Hreports |]. now constructor.
      * rewrite Hperm, !concat_app. cbn [concat]. aac_reflexivity.
  - (* working on a task *)
    injection Hstep as <-. unfold sweep_inv.
      cbn [subprocesses tasks idling resume].
    exists queued, markers, resumes, (tr1 ++ tr :: tr2), in_reports, merged.
    rewrite Hset, num_active_split, concat_app. cbn [active concat].
    split_all; auto.
    apply Hupd. destruct Hwtr as (trace' & Hres & ->). cbn.
    now apply holds_add.
  - (* in resume_queue.get() *)
    destruct (resume s) as [|cmd rest] eqn:Eq; [discriminate |].
    destruct resumes as [|resumes']; [discriminate |].
    cbn in Hresume. injection Hresume as -> ->.
    injection Hstep as <-. unfold sweep_inv.
      cbn [subprocesses tasks idling resume].
    cbn in Hwtr. subst tr.
    exists queued, markers, resumes', (tr1 ++ [] :: tr2), in_reports, merged.
    rewrite Hset, num_active_split, concat_app. cbn [active concat].
    split_all; auto; try lia.
    apply Hupd. apply holds_nil.
  - discriminate.
Qed.

Lemma fresh_holds ws :
  Forall fresh ws ->
  Forall2 (worker_holds conditions) ws (map (fun _ => []) ws) /\
  concat (map (fun _ : worker => @nil task_args) ws) = [].
Proof.
  induction 1 as [|w ws Hw _ [IH1 IH2]]; cbn; [split; constructor |].
  split; [| exact IH2]. constructor; [| exact IH1].
  destruct Hw as [-> | [-> | ->]]; cbn; auto. apply holds_nil.
Qed.

(** Steps of subprocesses keep the state between sweep steps. *)
Lemma sub_step_quiet running i s s' :
  quiet running s -> sub_step conditions i s = Some s' -> quiet running s'.
Proof.
  intros (Htasks & Hidling & Hfresh & resumes & Hresume & Hrun) Hstep.
  unfold sub_step in Hstep.
  destruct (nth_error (subprocesses s) i) as [w|] eqn:Hw; [| discriminate].
  destruct (set_nth_split _ _ _ Hw) as (ws1 & ws2 & Hws & Hset).
  rewrite Hws in Hfresh, Hrun. rewrite num_active_split in Hrun.
  apply Forall_app in Hfresh. destruct Hfresh as [Hf1 Hf2].
  pose proof (Forall_inv Hf2) as Hfw.
  pose proof (Forall_inv_tail Hf2) as Hf2'.
  destruct w as [res | res t | |]; cbn [active] in Hrun.
  - rewrite Htasks in Hstep. discriminate.
  - destruct Hfw as [H | [H | H]]; discriminate.
  - destruct (resume s) as [|cmd rest] eqn:Eq; [discriminate |].
    destruct resumes as [|resumes']; [discriminate |].
    cbn in Hresume. injection Hresume as -> ->.
    injection Hstep as <-. unfold quiet.
    cbn [subprocesses tasks idling resume].
    rewrite Hset, num_active_split. cbn [active].
    split_all; auto.
    + apply Forall_app. split; [exact Hf1 |].
      constructor; [left; reflexivity | exact Hf2'].
    + exists resumes'. split; [reflexivity | lia].
  - discriminate.
Qed.

Lemma sub_step_inv i s s' :
  pool_inv number_of_processes conditions s -> sub_step conditions i s = Some s' -> pool_inv number_of_processes conditions s'.
Proof.
  intros Hinv Hstep. unfold pool_inv in *.
  rewrite (sub_step_main _ _ _ Hstep).
  destruct (main s); auto.
  - eapply sub_step_sweep_inv; eauto.
  - eapply sub_step_sweep_inv; eauto.
  - eapply sub_step_sweep_inv; eauto.
  - destruct Hinv as (Hq & Hrest). split; [| exact Hrest].
    eapply sub_step_quiet; eauto.
  - destruct Hinv as (running & Hk & Hq). exists running.
    split; [exact Hk |]. eapply sub_step_quiet; eauto.
Qed.

Lemma quiet_next_sweep_step later tq iq rq ws :
  quiet number_of_processes (mkPool tq iq rq ws (ResumeAll 0 later)) ->
  pool_inv number_of_processes conditions (mkPool tq iq rq ws (next_sweep_step number_of_processes later)).
Proof.
  intros (Htasks & Hidling & Hfresh & resumes & Hresume & Hrun).
  cbn in Htasks, Hidling, Hfresh, Hresume, Hrun.
  unfold pool_inv. destruct later as [|step_tasks later]; cbn; [exact I |].
  destruct (fresh_holds _ Hfresh) as [Hholds Hnil].
  exists [], 0, resumes, (map (fun _ => []) ws), [], [].
  cbn [subprocesses tasks idling resume].
  subst tq iq. rewrite Hnil.
  split_all; auto; try lia; try apply holds_nil; try reflexivity.
Qed.

Hypothesis some_process : 0 < number_of_processes.

Lemma main_step_inv s s' :
  pool_inv number_of_processes conditions s -> main_step number_of_processes s = Some s' -> pool_inv number_of_processes conditions s'.
Proof.
  destruct s as [tq iq rq ws m].
  unfold pool_inv, main_step. cbn [main tasks idling resume subprocesses].
  intros Hinv Hstep.
  destruct m as [ts [|t todo] later | ts [|k] later | ts count res later
                | ts count res later | [|k] later | [|k] | [|k] | ];
    try (injection Hstep as <-; cbn [main]; exact I).
  - (* all tasks put *)
    injection Hstep as <-. cbn [main].
    destruct Hinv as (queued & markers & resumes & on_workers & in_reports
      & merged & H1 & H2 & H3 & H4 & H5 & H6 & H7 & H8 & H9 & H10).
    exists queued, markers, resumes, on_workers, in_reports, merged.
    split_all; auto.
  - (* put one task *)
    injection Hstep as <-. cbn [main].
    destruct Hinv as (queued & markers & resumes & on_workers & in_reports
      & merged & H1 & H2 & H3 & H4 & H5 & H6 & H7 & H8 & H9 & H10).
    cbn [tasks idling resume subprocesses] in *.
    assert (markers = 0) by lia. subst markers.
    exists (queued ++ [t]), 0, resumes, on_workers, in_reports, merged.
    cbn [tasks idling resume subprocesses].
    split_all; auto; try lia.
    + rewrite H1, map_app. cbn. now rewrite !app_nil_r.
    + rewrite H10. change (t :: todo) with ([t] ++ todo). aac_reflexivity.
  - (* all idle markers put *)
    injection Hstep as <-. cbn [main]. exact Hinv.
  - (* put one idle marker *)
    injection Hstep as <-. cbn [main].
    destruct Hinv as (queued & markers & resumes & on_workers & in_reports
      & merged & H1 & H2 & H3 & H4 & H5 & H6 & H7 & H8 & H9 & H10).
    cbn [tasks idling resume subprocesses] in *.
    exists queued, (S markers), resumes, on_workers, in_reports, merged.
    cbn [tasks idling resume subprocesses].
    split_all; auto; try lia.
    + rewrite H1, <- app_assoc. f_equal. symmetry. apply repeat_cons.
    + intros Hlt. apply H5. lia.
  - (* wait_for_idle *)
    destruct Hinv as (queued & markers & resumes & on_workers & in_reports
      & merged & H1 & H2 & H3 & H4 & H5 & H6 & H7 & H8 & H9 & H10).
    cbn [tasks idling resume subprocesses] in *.
    destruct (Nat.eqb count number_of_processes) eqn:E.
    + (* all reports received *)
      apply Nat.eqb_eq in E. injection Hstep as <-. cbn [main].
      assert (markers = 0) by lia. subst markers.
      assert (Hiq : iq = []) by (destruct iq; [reflexivity | cbn in H4; lia]).
      subst iq.
      assert (Hrep : in_reports = []) by (inversion H8; reflexivity).
      subst in_reports.
      assert (resumes = 0) by lia. subst resumes.
      assert (Hact : num_active ws = 0) by lia.
      assert (Hqueued : queued = []) by (apply H5; lia).
      subst queued. cbn in H1, H2. subst tq rq.
      apply num_active_0 in Hact.
      assert (Hnone : concat on_workers = []).
      { clear - H7 Hact. induction H7 as [|w tr ws trs Hw _ IH]; [reflexivity |].
        pose proof (Forall_inv Hact) as Hw'.
        pose proof (Forall_inv_tail Hact) as Hact'.
        cbn. rewrite (IH Hact').
        destruct Hw' as [-> | ->]; cbn in Hw; now subst tr. }
      rewrite Hnone in H10. cbn in H10. rewrite app_nil_r in H10.
      split; [| split; [exact E |]].
      * unfold quiet. cbn [tasks idling resume subprocesses].
        split_all; auto.
        -- eapply Forall_impl; [| exact Hact]. unfold fresh. tauto.
        -- exists 0. split; [reflexivity | lia].
      * exists merged. split; [symmetry; exact H10 | apply H9].
    + (* one more report *)
      apply Nat.eqb_neq in E.
      destruct iq as [|r iq]; [discriminate |].
      injection Hstep as <-. cbn [main].
      destruct in_reports as [|tr in_reports']; [inversion H8 |].
      apply Forall2_cons_iff in H8. destruct H8 as [Hr H8'].
      exists queued, markers, resumes, on_workers, in_reports',
             (merged ++ tr).
      cbn [tasks idling resume subprocesses length] in *.
      split_all; auto; try lia.
      * now apply holds_merge.
      * rewrite H10. cbn [concat]. aac_reflexivity.
  - (* results handed to the statistics: resume_all next *)
    injection Hstep as <-. cbn [main].
    destruct Hinv as (Hq & _). exists 0. split; [reflexivity | exact Hq].
  - (* all resume commands put: next sweep step *)
    injection Hstep as <-.
    destruct Hinv as (running & Hk & Hq).
    apply quiet_next_sweep_step.
    replace number_of_processes with running by lia. exact Hq.
  - (* put one resume command *)
    injection Hstep as <-. cbn [main].
    destruct Hinv as (running & Hk & Htasks & Hidling & Hfresh
                      & resumes & Hresume & Hrun).
    cbn [tasks idling resume subprocesses] in *.
    exists (S running). split; [lia |].
    unfold quiet. cbn [tasks idling resume subprocesses].
    split_all; auto.
    exists (S resumes). split; [| lia].
    rewrite Hresume. symmetry. apply repeat_cons.
  - discriminate.
Qed.

Lemma num_active_repeat n : num_active (repeat (AtTaskGet []) n) = n.
Proof.
  induction n as [|n IH]; [reflexivity |].
  change (repeat (AtTaskGet []) (S n))
    with ([] ++ AtTaskGet [] :: repeat (AtTaskGet []) n).
  rewrite num_active_split, IH. reflexivity.
Qed.

Lemma solve_start_inv sweep :
  pool_inv number_of_processes conditions (solve_start number_of_processes sweep).
Proof.
  apply quiet_next_sweep_step. unfold quiet.
  cbn [tasks idling resume subprocesses].
  split_all; auto.
  - apply Forall_forall. intros w Hw. apply repeat_spec in Hw.
    left. exact Hw.
  - exists 0. split; [reflexivity |]. rewrite num_active_repeat. lia.
Qed.

Lemma reachable_inv sweep s :
  reachable number_of_processes conditions sweep s -> pool_inv number_of_processes conditions s.
Proof.
  induction 1 as [| s a s' _ IH Hstep]; [apply solve_start_inv |].
  destruct a as [|i]; cbn in Hstep.
  - eapply main_step_inv; eauto.
  - eapply sub_step_inv; eauto.
Qed.

Lemma run_reachable sweep schedule s s' :
  reachable number_of_processes conditions sweep s ->
  run number_of_processes conditions schedule s = Some s' ->
  reachable number_of_processes conditions sweep s'.
Proof.
  revert s; induction schedule as [|a schedule IH]; cbn; intros s Hs Hrun.
  - injection Hrun as <-. exact Hs.
  - destruct (step_of number_of_processes conditions a s) as [s1|] eqn:E;
      [| discriminate].
    eapply IH; [| exact Hrun]. eapply reachable_step; eauto.
Qed.

(** C6.  In every interleaving of the main process and the subprocesses,
    when [wait_for_idle] has returned in a sweep step, it has received
    exactly [number_of_processes] reports and no report is left on the idle
    queue; for every condition the merged result is the concatenation, list
    by list, of the outputs of all tasks of the step for that condition,
    each task once, in some order; no task of the step is left on the task
    queue. *)
Theorem idle_barrier_gathers_all (sweep : list (list task_args)) (s : pool)
    (step_tasks : list task_args) (idle_count : nat)
    (results : results_dict) (later : list (list task_args)) :
  reachable number_of_processes conditions sweep s ->
  main s = GotResults step_tasks idle_count results later ->
  idle_count = number_of_processes /\
  idling s = [] /\
  tasks s = [] /\
  exists order,
    Permutation order step_tasks /\
    forall c, results_get results c = gathered conditions c order.
Proof.
  intros Hreach Hmain. apply reachable_inv in Hreach.
  unfold pool_inv in Hreach. rewrite Hmain in Hreach.
  destruct Hreach as ((Htasks & Hidling & _) & Hcount & Horder).
  auto.
Qed.

Close Scope nat_scope.

End IdleBarrier.

Lemma three_tasks_run :
  run 2 echo_condition three_tasks_schedule (solve_start 2 [three_tasks])
  = Some three_tasks_end.
Proof. vm_compute. reflexivity. Qed.

Lemma idle_barrier_gathers_all_witness :
  (0 < 2)%nat /\
  reachable 2 echo_condition [three_tasks] three_tasks_end /\
  exists order,
    Permutation order three_tasks /\
    forall c, results_get three_tasks_results c
              = gathered echo_condition c order.
Proof.
  assert (Hpos : (0 < 2)%nat) by lia.
  assert (Hreach : reachable 2 echo_condition [three_tasks] three_tasks_end).
  { eapply run_reachable; [apply reachable_start | exact three_tasks_run]. }
  split; [exact Hpos |]. split; [exact Hreach |].
  destruct (idle_barrier_gathers_all 2 echo_condition Hpos [three_tasks]
              three_tasks_end three_tasks 2 three_tasks_results []
              Hreach eq_refl) as (_ & _ & _ & Horder).
  exact Horder.
Defined.

(* ===================================================================== *)
(** ** Further properties: the distance and the nearest track point *)
(* ===================================================================== *)

Lemma Qabs_zero_iff a : Qabs a == 0 <-> a == 0.
Proof.
  split; intros H.
  - revert H. apply Qabs_case; intros Ha H; qlra.
  - rewrite H. reflexivity.
Qed.

Lemma get_sqr_dist_nonneg p q : 0 <= get_sqr_dist p q.
Proof.
  unfold get_sqr_dist.
  pose proof (Qabs_nonneg (x q - x p)). pose proof (Qabs_nonneg (y q - y p)).
  qlra.
Qed.

(** X1.  [get_sqr_dist] is a distance: never negative, the same in both
    directions, zero exactly between points of equal coordinates, and it
    obeys the triangle inequality. *)
Theorem get_sqr_dist_metric (p q r : TrackPoint) :
  0 <= get_sqr_dist p q /\
  get_sqr_dist p q = get_sqr_dist q p /\
  (get_sqr_dist p q == 0 <-> x p == x q /\ y p == y q) /\
  get_sqr_dist p r <= get_sqr_dist p q + get_sqr_dist q r.
Proof.
  unfold get_sqr_dist.
  pose proof (Qabs_nonneg (x q - x p)) as Hx.
  pose proof (Qabs_nonneg (y q - y p)) as Hy.
  split; [qlra |]. split; [apply get_sqr_dist_sym |]. split.
  - split.
    + intros H.
      assert (Hx0 : Qabs (x q - x p) == 0) by qlra.
      assert (Hy0 : Qabs (y q - y p) == 0) by qlra.
      apply (proj1 (Qabs_zero_iff _)) in Hx0.
      apply (proj1 (Qabs_zero_iff _)) in Hy0. split; qlra.
    + intros [Ex Ey].
      assert (Hx0 : Qabs (x q - x p) == 0) by (apply Qabs_zero_iff; qlra).
      assert (Hy0 : Qabs (y q - y p) == 0) by (apply Qabs_zero_iff; qlra).
      qlra.
  - pose proof (Qabs_triangle (x q - x p) (x r - x q)) as Tx.
    pose proof (Qabs_triangle (y q - y p) (y r - y q)) as Ty.
    assert (Ex : x q - x p + (x r - x q) == x r - x p) by ring.
    assert (Ey : y q - y p + (y r - y q) == y r - y p) by ring.
    rewrite Ex in Tx. rewrite Ey in Ty. qlra.
Qed.

(** The smallest value of a non-empty list of distances and the first
    position where it occurs. *)
Lemma first_minimum {A : Type} (f : A -> Q) (ps : list A) :
  ps <> [] ->
  exists m i p,
    py_min (map f ps) = Ok m /\
    py_index (map f ps) m = Ok i /\
    nth_error ps i = Some p /\
    f p == m /\
    (forall q, In q ps -> f p <= f q) /\
    (forall j q, (j < i)%nat -> nth_error ps j = Some q -> f p < f q).
Proof.
  intros Hne.
  destruct (py_min_spec (map f ps)) as (m & Hm & Hin & Hle).
  { destruct ps; [congruence | discriminate]. }
  destruct (py_index_spec (map f ps) m) as (i & d & Hi & Hd & Hdm & Hfirst).
  { exists m. split; [assumption | reflexivity]. }
  rewrite nth_error_map in Hd.
  destruct (nth_error ps i) as [p|] eqn:Hp; [| discriminate].
  cbn in Hd. injection Hd as <-.
  exists m, i, p. repeat split; auto.
  - intros q Hq. rewrite Hdm. apply Hle. now apply in_map.
  - intros j q Hj Hq.
    assert (Hq' : nth_error (map f ps) j = Some (f q))
      by (rewrite nth_error_map, Hq; reflexivity).
    specialize (Hfirst _ _ Hj Hq').
    assert (Hmq : m <= f q) by (apply Hle, in_map; eapply nth_error_In; eauto).
    rewrite Hdm. apply Qle_lteq in Hmq. destruct Hmq as [H | H]; [exact H |].
    exfalso. apply Hfirst. symmetry. exact H.
Qed.

(** X2.  [get_closest_point] raises [ValueError] on a track without points.
    Otherwise it returns a point of the track that is nearest to the given
    point, and among the nearest ones the first in track order. *)
Theorem get_closest_point_spec (sorted : list TrackPoint) (point : TrackPoint) :
  match sorted with
  | [] => get_closest_point sorted point = Raise ValueError
  | _ :: _ =>
      exists i p,
        get_closest_point sorted point = Ok p /\
        nth_error sorted i = Some p /\
        (forall q, In q sorted ->
           get_sqr_dist p point <= get_sqr_dist q point) /\
        (forall j q, (j < i)%nat -> nth_error sorted j = Some q ->
           get_sqr_dist p point < get_sqr_dist q point)
  end.
Proof.
  destruct sorted as [|p0 rest]; [reflexivity |].
  destruct (first_minimum (fun tp => get_sqr_dist tp point) (p0 :: rest))
    as (m & i & p & Hm & Hi & Hp & _ & Hmin & Hfirst); [discriminate |].
  exists i, p. unfold get_closest_point. cbv zeta.
  rewrite Hm. cbn [bind]. rewrite Hi. cbn [bind].
  unfold py_nth. rewrite Hp. auto.
Qed.

(* ===================================================================== *)
(** ** Further properties: what sequencing keeps and when it raises *)
(* ===================================================================== *)

(** X3.  Sequencing in experimental.py duplicates no point and loses at most
    the point visited last.  When [_sort_points] returns, no unsorted point
    is left and the sorted points held a last point [last_sorted] when the
    loop ended.  If the point visited last is within 200 of [last_sorted] it
    was appended to the sorted points, and the sorted and the excluded points
    together are the input points, each once.  Otherwise it is in neither
    list, and the sorted points, the excluded points and that point are
    together the input points, each once. *)
Theorem sort_points_conservation
    (points : list TrackPoint) (st : SortState) :
  Experimental._sort_points points = Ok st ->
  unsorted_points st = [] /\
  exists sorted_before last_sorted,
    py_last sorted_before = Ok last_sorted /\
    ((get_sqr_dist (_next_point st) last_sorted <= 200 /\
      sorted_points st = sorted_before ++ [_next_point st] /\
      Permutation (sorted_points st ++ excluded_points st) points) \/
     (200 < get_sqr_dist (_next_point st) last_sorted /\
      sorted_points st = sorted_before /\
      Permutation
        (sorted_points st ++ excluded_points st ++ [_next_point st])
        points)).
Proof.
  intros H. rewrite experimental_sort_points_after_testing in H.
  destruct (Testing._sort_points points) as [t|e] eqn:Ht;
    cbn [bind] in H; [| discriminate].
  destruct (py_last (sorted_points t)) as [l|e] eqn:Hl;
    cbn [bind] in H; [| discriminate].
  unfold Testing._sort_points in Ht.
  destruct points as [|p0 rest]; [discriminate |].
  cbn [start_state py_pop bind] in Ht.
  assert (Hfin : unsorted_points t = []).
  { destruct (sort_loop_total (mkSortState rest [] [] p0)) as (fin & Hf & E).
    rewrite Ht in Hf. injection Hf as <-. exact E. }
  apply sort_loop_perm in Ht. cbn in Ht.
  destruct (Qle_bool (get_sqr_dist (_next_point t) l) 200) eqn:Hq;
    injection H as <-; cbn.
  - split; [exact Hfin |]. exists (sorted_points t), l.
    split; [exact Hl |]. left.
    split; [now apply Qle_bool_iff |]. split; [reflexivity |].
    rewrite <- Ht, <- app_assoc.
    apply Permutation_app_head, Permutation_app_comm.
  - split; [exact Hfin |]. exists (sorted_points t), l.
    split; [exact Hl |]. right.
    split; [| split; [reflexivity | exact Ht]].
    apply Qltb_lt. unfold Qltb. now rewrite Hq.
Qed.

Lemma sort_points_conservation_witness :
  Experimental._sort_points far_last_point
    = Ok (mkSortState [] [pt 0 0] [pt 100 0] (pt 301 0)) /\
  200 < get_sqr_dist (pt 301 0) (pt 0 0) /\
  Permutation ([pt 0 0] ++ [pt 100 0] ++ [pt 301 0]) far_last_point.
Proof.
  assert (H : Experimental._sort_points far_last_point
              = Ok (mkSortState [] [pt 0 0] [pt 100 0] (pt 301 0)))
    by (vm_compute; reflexivity).
  split; [exact H |].
  destruct (sort_points_conservation _ _ H)
    as (_ & s & l & Hl & [(_ & Hs & _) | (Hfar & Hs & Hperm)]).
  - cbn in Hs. change [pt 0 0] with ([] ++ [pt 0 0]) in Hs.
    apply app_inj_tail in Hs. destruct Hs as [_ E].
    vm_compute in E. discriminate E.
  - cbn in Hs. subst s. cbn in Hl. injection Hl as <-.
    split; [exact Hfar | exact Hperm].
Defined.

(* ===================================================================== *)
(** ** Further properties: when a track comes out and what it looks like *)
(* ===================================================================== *)

Open Scope R_scope.

Lemma path_length_nonneg prev rest : 0 <= path_length prev rest.
Proof.
  revert prev; induction rest as [|cur rest IH]; intros prev; cbn; [rlra |].
  pose proof (segment_length_nonneg prev cur). specialize (IH cur). rlra.
Qed.

Lemma last_integrate_from prev rest c :
  last (c :: integrate_from prev rest c) 0 = c + path_length prev rest.
Proof.
  revert prev c; induction rest as [|cur rest IH]; intros prev c.
  - cbn. rlra.
  - change (last (c :: integrate_from prev (cur :: rest) c) 0)
      with (last ((c + segment_length prev cur)
                  :: integrate_from cur rest (c + segment_length prev cur)) 0).
    rewrite IH. cbn. rlra.
Qed.

Lemma segment_length_zero p q :
  segment_length p q = 0 <-> (get_sqr_dist p q == 0)%Q.
Proof.
  unfold segment_length.
  assert (Hnn : 0 <= Q2R (get_sqr_dist p q)).
  { replace 0 with (Q2R 0) by (unfold Q2R; cbn; field).
    apply Qle_Rle. apply get_sqr_dist_nonneg. }
  split; intros H.
  - apply sqrt_eq_0 in H; [| exact Hnn].
    apply eqR_Qeq. rewrite H. unfold Q2R. cbn. field.
  - apply Qeq_eqR in H. rewrite H.
    replace (Q2R 0) with 0 by (unfold Q2R; cbn; field). apply sqrt_0.
Qed.

Lemma consecutive_cons {A : Type} (a : A) l p q :
  consecutive l p q -> consecutive (a :: l) p q.
Proof. intros (i & H1 & H2). exists (S i). auto. Qed.

Lemma consecutive_head {A : Type} (a b : A) l : consecutive (a :: b :: l) a b.
Proof. exists 0%nat. auto. Qed.

Lemma consecutive_inv {A : Type} (a b : A) l p q :
  consecutive (a :: b :: l) p q ->
  (p = a /\ q = b) \/ consecutive (b :: l) p q.
Proof.
  intros ([|i] & H1 & H2); cbn in H1, H2.
  - left. split; congruence.
  - right. exists i. auto.
Qed.

(** Either every two neighbours coincide and the path has length 0, or two
    neighbours differ and the path has positive length. *)
Lemma path_length_cases prev rest :
  ((forall p q, consecutive (prev :: rest) p q ->
      (get_sqr_dist p q == 0)%Q) /\
   path_length prev rest = 0) \/
  ((exists p q, consecutive (prev :: rest) p q /\
      ~ (get_sqr_dist p q == 0)%Q) /\
   0 < path_length prev rest).
Proof.
  revert prev; induction rest as [|cur rest IH]; intros prev.
  - left. split; [| reflexivity].
    intros p q ([|i] & _ & H); [discriminate | destruct i; discriminate].
  - cbn [path_length].
    pose proof (segment_length_nonneg prev cur) as Hseg.
    pose proof (path_length_nonneg cur rest) as Hrest.
    destruct (Qeq_dec (get_sqr_dist prev cur) 0) as [Hz | Hnz].
    + destruct (IH cur) as [[Hall Hlen] | [(p & q & Hc & Hpq) Hlen]].
      * left. split.
        -- intros p q Hc. apply consecutive_inv in Hc.
           destruct Hc as [[-> ->] | Hc]; auto.
        -- apply segment_length_zero in Hz. rlra.
      * right. split; [| rlra].
        exists p, q. split; [now apply consecutive_cons | exact Hpq].
    + right. split.
      * exists prev, cur. split; [apply consecutive_head | exact Hnz].
      * assert (segment_length prev cur <> 0)
          by (intros E; apply Hnz, segment_length_zero, E).
        rlra.
Qed.

Lemma py_last_cumulative_distances sorted :
  py_last (cumulative_distances sorted)
  = Ok match sorted with
       | [] => 0
       | first :: rest => 0 + path_length first rest
       end.
Proof.
  unfold cumulative_distances. rewrite (py_last_cons _ _ 0). f_equal.
  destruct sorted as [|first rest]; [reflexivity |].
  apply last_integrate_from.
Qed.

Lemma integrate_distance_zero sorted :
  py_last (cumulative_distances sorted) = Ok 0 ->
  _integrate_distance sorted = Raise ZeroDivisionError.
Proof.
  intros H. unfold _integrate_distance. cbv zeta.
  unfold cumulative_distances in *. cbn [for_each]. rewrite H. cbn [bind].
  unfold py_div. destruct (Req_dec_T 0 0); [reflexivity | congruence].
Qed.

(** X4.  [_integrate_distance] raises [ZeroDivisionError] when no two
    neighbours among the sorted points differ in their coordinates (in
    particular for fewer than two points), and returns when two neighbours
    differ. *)
Theorem integrate_distance_returns (sorted : list TrackPoint) :
  ((forall p q, consecutive sorted p q -> (get_sqr_dist p q == 0)%Q) /\
   _integrate_distance sorted = Raise ZeroDivisionError) \/
  ((exists p q, consecutive sorted p q /\ ~ (get_sqr_dist p q == 0)%Q) /\
   exists distances normalized,
     _integrate_distance sorted = Ok (distances, normalized)).
Proof.
  pose proof (py_last_cumulative_distances sorted) as Hlast.
  destruct sorted as [|first rest].
  - left. split; [| now apply integrate_distance_zero].
    intros p q (i & H & _). destruct i; discriminate.
  - destruct (path_length_cases first rest) as [[Hall Hlen] | [Hex Hlen]].
    + left. split; [exact Hall |]. apply integrate_distance_zero.
      rewrite Hlast, Hlen. f_equal. rlra.
    + right. split; [exact Hex |].
      eexists. eexists. apply integrate_distance_ok with (1 := Hlast). rlra.
Qed.

Lemma StronglySorted_le_last (l : list R) (d v : R) :
  StronglySorted Rle l -> In v l -> v <= last l d.
Proof.
  intros Hs. revert v.
  induction Hs as [|a l Hl IH Ha]; intros v Hin; [destruct Hin |].
  destruct l as [|b l].
  - destruct Hin as [<- | []]. cbn. rlra.
  - change (last (a :: b :: l) d) with (last (b :: l) d).
    destruct Hin as [<- | Hin]; [| now apply IH].
    apply Rle_trans with b; [apply (Forall_inv Ha) | apply IH; now left].
Qed.

Lemma length_integrate_from prev rest c :
  length (integrate_from prev rest c) = length rest.
Proof.
  revert prev c; induction rest as [|cur rest IH]; intros prev c; cbn;
    [reflexivity | now rewrite IH].
Qed.

(** The part of [generate_track] after sequencing either raises
    [ZeroDivisionError] or builds a well-formed data frame of the sorted
    points. *)
Lemma track_of_sorted_cases sorted :
  track_of_sorted sorted = Raise ZeroDivisionError \/
  exists t,
    track_of_sorted sorted = Ok t /\
    track_X t = map x sorted /\ track_Y t = map y sorted /\
    well_formed_track t.
Proof.
  pose proof (py_last_cumulative_distances sorted) as Hlast.
  set (total := match sorted with
                | [] => 0
                | first :: rest => 0 + path_length first rest
                end) in Hlast.
  assert (Htotal : 0 <= total).
  { unfold total. destruct sorted as [|first rest]; [rlra |].
    pose proof (path_length_nonneg first rest). rlra. }
  destruct (Req_dec_T total 0) as [Hz | Hnz].
  - left. unfold track_of_sorted.
    rewrite integrate_distance_zero; [reflexivity |]. now rewrite Hlast, Hz.
  - right.
    assert (Hpos : 0 < total) by rlra.
    assert (Hlen : length (cumulative_distances sorted) = length sorted).
    { destruct sorted as [|first rest]; [unfold total in Hnz; congruence |].
      unfold cumulative_distances. cbn. now rewrite length_integrate_from. }
    assert (Htwo : (2 <= length sorted)%nat).
    { destruct sorted as [|first [|second rest]]; cbn; try lia;
        unfold total in Hnz; cbn in Hnz; exfalso; apply Hnz; rlra. }
    pose proof (cumulative_distances_sorted sorted) as Hsorted.
    exists (mkTrack (map x sorted) (map y sorted) (cumulative_distances sorted)
              (map (fun d => d / total) (cumulative_distances sorted))).
    split.
    { unfold track_of_sorted.
      rewrite (integrate_distance_ok sorted total Hlast Hnz). cbn [bind].
      unfold DataFrame. rewrite !length_map, Hlen, !Nat.eqb_refl. reflexivity. }
    split; [reflexivity |]. split; [reflexivity |].
    unfold well_formed_track. cbn [track_X track_Y track_Distance track_Normalized].
    rewrite !length_map, Hlen.
    repeat match goal with |- _ /\ _ => split end; auto;
      try (now apply StronglySorted_map_div);
      try (rewrite (py_last_map (fun d => d / total) _ _ Hlast);
           f_equal; field; exact Hnz).
    apply Forall_map. rewrite Forall_forall. intros v Hv.
    assert (H0 : 0 <= v).
    { unfold cumulative_distances in Hsorted, Hv.
      destruct Hv as [<- | Hv]; [rlra |].
      apply StronglySorted_inv in Hsorted. destruct Hsorted as [_ Hall].
      rewrite Forall_forall in Hall. now apply Hall. }
    assert (H1 : v <= total).
    { pose proof (StronglySorted_le_last _ 0 v Hsorted Hv) as H.
      assert (Hl : Ok (last (cumulative_distances sorted) 0) = Ok total).
      { rewrite <- Hlast. unfold cumulative_distances. symmetry.
        apply py_last_cons. }
      injection Hl as Hl. rewrite <- Hl. exact H. }
    split.
    + apply Rmult_le_pos; [exact H0 | left; now apply Rinv_0_lt_compat].
    + apply Rmult_le_reg_r with total; [exact Hpos |].
      unfold Rdiv. rewrite Rmult_assoc, Rinv_l by exact Hnz. rlra.
Qed.

Lemma sort_points_raise_IndexError points e :
  (Experimental._sort_points points = Raise e -> e = IndexError) /\
  (Testing._sort_points points = Raise e -> e = IndexError).
Proof.
  rewrite experimental_sort_points_after_testing.
  unfold Testing._sort_points.
  destruct points as [|p0 rest]; cbn [start_state py_pop bind];
    [split; congruence |].
  destruct (sort_loop_total (mkSortState rest [] [] p0)) as (st & -> & _).
  cbn [bind]. split; [| discriminate].
  unfold py_last. destruct (rev (sorted_points st)); cbn [bind];
    [congruence |].
  destruct (Qle_bool _ _); discriminate.
Qed.

(** X5.  When [generate_track] returns, in either file, the data frame has
    at least two points and four columns of equal length, the distances
    start at 0 and never decrease, and the normalised distances lie between
    0 and 1 and end at 1.  When it raises, it raises [IndexError] or
    [ZeroDivisionError]; building the data frame never fails. *)
Theorem generate_track_well_formed (points : list TrackPoint) :
  (forall t, Experimental.generate_track points = Ok t ->
             well_formed_track t) /\
  (forall t, Testing.generate_track points = Ok t -> well_formed_track t) /\
  (forall e, Experimental.generate_track points = Raise e ->
             e = IndexError \/ e = ZeroDivisionError) /\
  (forall e, Testing.generate_track points = Raise e ->
             e = IndexError \/ e = ZeroDivisionError).
Proof.
  unfold Experimental.generate_track, Testing.generate_track.
  repeat match goal with |- _ /\ _ => split end.
  - intros t H.
    destruct (Experimental._sort_points points) as [st|e]; [| discriminate].
    cbn [bind] in H.
    destruct (track_of_sorted_cases (sorted_points st))
      as [E | (t' & E & _ & _ & Hwf)]; rewrite E in H; [discriminate |].
    now injection H as <-.
  - intros t H.
    destruct (Testing._sort_points points) as [st|e]; [| discriminate].
    cbn [bind] in H.
    destruct (track_of_sorted_cases (sorted_points st))
      as [E | (t' & E & _ & _ & Hwf)]; rewrite E in H; [discriminate |].
    now injection H as <-.
  - intros e H.
    destruct (Experimental._sort_points points) as [st|e'] eqn:Es.
    + cbn [bind] in H.
      destruct (track_of_sorted_cases (sorted_points st))
        as [E | (t' & E & _)]; rewrite E in H; [| discriminate].
      injection H as <-. now right.
    + cbn [bind] in H. injection H as <-. left.
      exact (proj1 (sort_points_raise_IndexError points e') Es).
  - intros e H.
    destruct (Testing._sort_points points) as [st|e'] eqn:Es.
    + cbn [bind] in H.
      destruct (track_of_sorted_cases (sorted_points st))
        as [E | (t' & E & _)]; rewrite E in H; [| discriminate].
      injection H as <-. now right.
    + cbn [bind] in H. injection H as <-. left.
      exact (proj2 (sort_points_raise_IndexError points e') Es).
Qed.

Lemma generate_track_unit_square :
  Experimental.generate_track unit_square
  = Ok (mkTrack (map x unit_square) (map y unit_square)
                [0; 1; 2; 3] [0; 1 / 3; 2 / 3; 1]).
Proof.
  unfold Experimental.generate_track.
  replace (Experimental._sort_points unit_square)
    with (Ok (mkSortState [] unit_square [] (pt 0 1)))
    by (vm_compute; reflexivity).
  cbn [bind sorted_points]. unfold track_of_sorted.
  rewrite unit_square_distances. reflexivity.
Qed.

Lemma generate_track_well_formed_witness :
  Experimental.generate_track unit_square
  = Ok (mkTrack (map x unit_square) (map y unit_square)
                [0; 1; 2; 3] [0; 1 / 3; 2 / 3; 1]) /\
  well_formed_track (mkTrack (map x unit_square) (map y unit_square)
                             [0; 1; 2; 3] [0; 1 / 3; 2 / 3; 1]).
Proof.
  split; [exact generate_track_unit_square |].
  destruct (generate_track_well_formed unit_square) as (Hwf & _).
  apply Hwf. exact generate_track_unit_square.
Defined.

Close Scope R_scope.

(* ===================================================================== *)
(** ** Further properties: interpolation of the position *)
(* ===================================================================== *)

Lemma getitem_Raise {V : Type} (d : dict V) k e :
  getitem d k = Raise e -> e = KeyError /\ ~ In k (map fst d).
Proof.
  induction d as [|[k' v] d IH]; cbn.
  - intros H. injection H as <-. auto.
  - destruct (String.eqb k' k) eqn:E; [discriminate |].
    intros H. destruct (IH H) as [-> Hn]. split; [reflexivity |].
    intros [-> | Hin]; [| contradiction].
    now rewrite String.eqb_refl in E.
Qed.

Lemma getitem_Ok {V : Type} (d : dict V) k v :
  getitem d k = Ok v -> In k (map fst d).
Proof.
  induction d as [|[k' v'] d IH]; cbn; [discriminate |].
  destruct (String.eqb k' k) eqn:E.
  - apply String.eqb_eq in E. auto.
  - auto.
Qed.

Lemma q_div_cases a b :
  (b == 0 /\ q_div a b = Raise ZeroDivisionError) \/
  (~ b == 0 /\ q_div a b = Ok (a / b)).
Proof.
  unfold q_div. destruct (Qeq_bool b 0) eqn:E.
  - left. split; [now apply Qeq_bool_iff | reflexivity].
  - right. split; [| reflexivity].
    intros H. apply Qeq_bool_iff in H. congruence.
Qed.

(** With two samples or more, the method comes down to the arithmetic on
    the two samples first in the order of [argsort]. *)
Lemma interpolate_two_closest pos drv rows query_date :
  getitem pos drv = Ok rows ->
  (2 <= length rows)%nat ->
  exists i0 i1 r0 r1,
    i0 <> i1 /\
    nth_error rows i0 = Some r0 /\
    nth_error rows i1 = Some r1 /\
    interpolate_pos_from_time pos drv query_date =
      (dx <- q_div ((X r1 - X r0) * (query_date - Date r0))
                   (Date r1 - Date r0) ;;
       dy <- q_div ((Y r1 - Y r0) * (query_date - Date r0))
                   (Date r1 - Date r0) ;;
       Ok (Point (X r0 + dx) (Y r0 + dy))).
Proof.
  intros Hget Hlen.
  set (key := fun r => Qabs (Date r - query_date)).
  destruct (argsort_two_smallest (map key rows))
    as (i0 & i1 & rest & k0 & k1 & Hsort & Hne & H0 & H1 & _).
  { now rewrite length_map. }
  rewrite nth_error_map in H0, H1.
  destruct (nth_error rows i0) as [r0|] eqn:E0; [|discriminate].
  destruct (nth_error rows i1) as [r1|] eqn:E1; [|discriminate].
  exists i0, i1, r0, r1.
  split; [exact Hne |]. split; [exact E0 |]. split; [exact E1 |].
  unfold interpolate_pos_from_time. rewrite Hget. cbn [bind].
  fold key. rewrite Hsort. cbn [firstn iloc flat_map app].
  rewrite E0, E1. cbn [app py_nth nth_error bind]. reflexivity.
Qed.

(** X6.  [interpolate_pos_from_time] raises [KeyError] exactly for a driver
    who is not a key of the position data, and [IndexError] exactly for a
    driver with fewer than two samples. *)
Theorem interpolate_pos_from_time_errors
    (pos : dict (list PosRow)) (drv : String.string) (query_date : Q) :
  (interpolate_pos_from_time pos drv query_date = Raise KeyError <->
   ~ In drv (map fst pos)) /\
  (interpolate_pos_from_time pos drv query_date = Raise IndexError <->
   exists rows, getitem pos drv = Ok rows /\ (length rows < 2)%nat).
Proof.
  destruct (getitem pos drv) as [rows | e] eqn:Hget.
  - pose proof (getitem_Ok _ _ _ Hget) as Hin.
    destruct (le_lt_dec 2 (length rows)) as [Hlen | Hlen].
    + destruct (interpolate_two_closest pos drv rows query_date Hget Hlen)
        as (i0 & i1 & r0 & r1 & _ & _ & _ & ->).
      assert (Hno : forall e,
        (dx <- q_div ((X r1 - X r0) * (query_date - Date r0))
                     (Date r1 - Date r0) ;;
         dy <- q_div ((Y r1 - Y r0) * (query_date - Date r0))
                     (Date r1 - Date r0) ;;
         Ok (Point (X r0 + dx) (Y r0 + dy))) = Raise e ->
        e = ZeroDivisionError).
      { intros e.
        destruct (q_div_cases ((X r1 - X r0) * (query_date - Date r0))
                              (Date r1 - Date r0)) as [[_ ->] | [_ ->]];
          cbn [bind]; [congruence |].
        destruct (q_div_cases ((Y r1 - Y r0) * (query_date - Date r0))
                              (Date r1 - Date r0)) as [[_ ->] | [_ ->]];
          cbn [bind]; congruence. }
      split; split.
      * intros H. apply Hno in H. discriminate.
      * intros H. contradiction.
      * intros H. apply Hno in H. discriminate.
      * intros (rows' & Hr & Hl). injection Hr as <-. lia.
    + assert (Hres : interpolate_pos_from_time pos drv query_date
                     = Raise IndexError).
      { unfold interpolate_pos_from_time. rewrite Hget. cbn [bind].
        destruct rows as [|r [|r' rows]]; [reflexivity | reflexivity |].
        cbn in Hlen. lia. }
      rewrite Hres. split; split.
      * discriminate.
      * intros H. contradiction.
      * intros _. exists rows. auto.
      * reflexivity.
  - destruct (getitem_Raise _ _ _ Hget) as [-> Hn].
    assert (Hres : interpolate_pos_from_time pos drv query_date
                   = Raise KeyError).
    { unfold interpolate_pos_from_time. rewrite Hget. reflexivity. }
    rewrite Hres. split; split.
    + intros _. exact Hn.
    + reflexivity.
    + discriminate.
    + intros (rows & Hr & _). discriminate.
Qed.

(** X7.  Linear interpolation is exact on uniform motion: when every sample
    of the driver lies on one line [X = vx * Date + x0], [Y = vy * Date + y0]
    and the timestamps are distinct, the method returns the point of that
    line at the query time, whichever two samples it picks and also outside
    the sampled time range. *)
Theorem interpolate_pos_from_time_uniform_motion
    (pos : dict (list PosRow)) (drv : String.string) (rows : list PosRow)
    (query_date vx x0 vy y0 : Q) :
  getitem pos drv = Ok rows ->
  (2 <= length rows)%nat ->
  distinct_timestamps rows ->
  (forall r, In r rows ->
     X r == vx * Date r + x0 /\ Y r == vy * Date r + y0) ->
  exists p,
    interpolate_pos_from_time pos drv query_date = Ok p /\
    x p == vx * query_date + x0 /\
    y p == vy * query_date + y0.
Proof.
  intros Hget Hlen Hdist Hline.
  destruct (interpolate_two_closest pos drv rows query_date Hget Hlen)
    as (i0 & i1 & r0 & r1 & Hne & E0 & E1 & ->).
  assert (Hdt : ~ Date r1 - Date r0 == 0).
  { intros H. apply (Hdist i1 i0 r1 r0 E1 E0); [congruence | qlra]. }
  destruct (q_div_cases ((X r1 - X r0) * (query_date - Date r0))
                        (Date r1 - Date r0)) as [[H _] | [_ ->]];
    [contradiction |].
  destruct (q_div_cases ((Y r1 - Y r0) * (query_date - Date r0))
                        (Date r1 - Date r0)) as [[H _] | [_ ->]];
    [contradiction |].
  cbn [bind]. eexists. split; [reflexivity |]. cbn [x y Point].
  destruct (Hline r0 (nth_error_In _ _ E0)) as [HX0 HY0].
  destruct (Hline r1 (nth_error_In _ _ E1)) as [HX1 HY1].
  rewrite HX0, HX1, HY0, HY1. split; field; exact Hdt.
Qed.

Lemma uniform_motion_distinct :
  distinct_timestamps [mkPosRow 0 1 2; mkPosRow 1 3 2; mkPosRow 3 7 2].
Proof.
  intros i j ri rj Hi Hj Hne.
  destruct i as [|[|[|i]]]; cbn in Hi;
    [injection Hi as <- .. | destruct i; discriminate];
  (destruct j as [|[|[|j]]]; cbn in Hj;
    [injection Hj as <- .. | destruct j; discriminate]);
  try congruence; cbn; intros H; vm_compute in H; discriminate.
Qed.

Lemma uniform_motion_line r :
  In r [mkPosRow 0 1 2; mkPosRow 1 3 2; mkPosRow 3 7 2] ->
  X r == 2 * Date r + 1 /\ Y r == 0 * Date r + 2.
Proof.
  intros [<- | [<- | [<- | []]]]; split; reflexivity.
Qed.

Lemma interpolate_pos_from_time_uniform_motion_witness :
  getitem uniform_motion "44"
    = Ok [mkPosRow 0 1 2; mkPosRow 1 3 2; mkPosRow 3 7 2] /\
  (2 <= 3)%nat /\
  exists p,
    interpolate_pos_from_time uniform_motion "44" 10 = Ok p /\
    x p == 2 * 10 + 1 /\ y p == 0 * 10 + 2.
Proof.
  assert (Hget : getitem uniform_motion "44"
            = Ok [mkPosRow 0 1 2; mkPosRow 1 3 2; mkPosRow 3 7 2])
    by reflexivity.
  assert (Hlen : (2 <= 3)%nat) by lia.
  split; [exact Hget |]. split; [exact Hlen |].
  exact (interpolate_pos_from_time_uniform_motion uniform_motion "44" _ 10
           2 1 0 2 Hget Hlen uniform_motion_distinct uniform_motion_line).
Defined.

(* ===================================================================== *)
(** ** Further properties: the start/finish condition over all laps *)
(* ===================================================================== *)

Lemma for_lap_skipped data drv tp last lap :
  lap_skipped last lap = true -> for_lap data drv tp last lap = Ok None.
Proof. intros H. unfold for_lap. now rewrite H. Qed.

Lemma for_laps_all_skipped data drv tp last laps res_x res_y :
  forallb (lap_skipped last) laps = true ->
  for_laps data drv tp last laps res_x res_y = Ok (res_x, res_y).
Proof.
  induction laps as [|lap laps IH]; cbn [forallb for_laps];
    [reflexivity |].
  intros H. apply andb_true_iff in H. destruct H as [Hs Hrest].
  rewrite (for_lap_skipped _ _ _ _ _ Hs). cbn [bind]. now apply IH.
Qed.

Lemma for_laps_no_position data drv tp last laps res_x res_y :
  ~ In drv (map fst (data_pos data)) ->
  forallb (lap_skipped last) laps = false ->
  for_laps data drv tp last laps res_x res_y = Raise KeyError.
Proof.
  intros Hn.
  induction laps as [|lap laps IH]; cbn [forallb for_laps];
    [discriminate |].
  intros H. destruct (lap_skipped last lap) eqn:Hs.
  - rewrite (for_lap_skipped _ _ _ _ _ Hs). cbn [bind]. now apply IH.
  - unfold for_lap. rewrite Hs.
    destruct (getitem (data_pos data) drv) as [v | e] eqn:Hget.
    + apply getitem_Ok in Hget. contradiction.
    + apply getitem_Raise in Hget. destruct Hget as [-> _]. reflexivity.
Qed.

(** X8.  A driver none of whose laps is usable (all are a first lap, a last
    lap, an in-lap, an out-lap or without lap number; in particular a driver
    with no laps) gets two empty lists from [for_driver], whatever the
    position data.  A driver with a usable lap but no position data makes it
    raise [KeyError]. *)
Theorem for_driver_unusable_laps
    (data : ConditionData) (drv : String.string) (test_point : TrackPoint) :
  let drv_laps := filter (fun lap => String.eqb (Driver lap) drv)
                         (data_laps data) in
  let drv_last_lap := column_max (map NumberOfLaps drv_laps) in
  (forallb (lap_skipped drv_last_lap) drv_laps = true ->
   for_driver data drv test_point = Ok ([], [])) /\
  (forallb (lap_skipped drv_last_lap) drv_laps = false ->
   ~ In drv (map fst (data_pos data)) ->
   for_driver data drv test_point = Raise KeyError).
Proof.
  intros drv_laps drv_last_lap. unfold for_driver.
  fold drv_laps. fold drv_last_lap. split.
  - apply for_laps_all_skipped.
  - intros H Hn. now apply for_laps_no_position.
Qed.

Lemma for_driver_unusable_laps_witness :
  for_driver two_lap_data "44" (pt 10 0) = Ok ([], []) /\
  for_driver no_position_data "44" (pt 10 0) = Raise KeyError.
Proof.
  split.
  - apply (proj1 (for_driver_unusable_laps two_lap_data "44" (pt 10 0))).
    reflexivity.
  - apply (proj2 (for_driver_unusable_laps no_position_data "44" (pt 10 0))).
    + reflexivity.
    + intros [].
Defined.

Lemma for_laps_appends data drv tp last laps res_x res_y res_x' res_y' :
  for_laps data drv tp last laps res_x res_y = Ok (res_x', res_y') ->
  exists more_x more_y,
    res_x' = res_x ++ more_x /\
    res_y' = res_y ++ more_y /\
    length more_x = length more_y /\
    (length more_x
     <= length (filter (fun lap => negb (lap_skipped last lap)) laps))%nat.
Proof.
  revert res_x res_y.
  induction laps as [|lap laps IH]; intros res_x res_y; cbn [for_laps].
  - intros H. injection H as <- <-. exists [], [].
    rewrite !app_nil_r. cbn. auto.
  - destruct (for_lap data drv tp last lap) as [[[px py] |] | e] eqn:E;
      cbn [bind]; [| | discriminate].
    + intros H. apply IH in H.
      destruct H as (mx & my & -> & -> & Hlen & Hle).
      exists (px :: mx), (py :: my). rewrite <- !app_assoc. cbn [app length].
      split; [reflexivity |]. split; [reflexivity |].
      split; [now rewrite Hlen |].
      cbn [filter].
      destruct (lap_skipped last lap) eqn:Hs.
      * rewrite (for_lap_skipped _ _ _ _ _ Hs) in E. discriminate.
      * cbn [negb length]. lia.
    + intros H. apply IH in H.
      destruct H as (mx & my & -> & -> & Hlen & Hle).
      exists mx, my. split; [reflexivity |]. split; [reflexivity |].
      split; [exact Hlen |].
      cbn [filter]. destruct (negb (lap_skipped last lap)); cbn [length]; lia.
Qed.

(** X9.  When [for_driver] returns, its two lists have the same length, and
    that length is at most the number of usable laps of the driver: each
    such lap gives one point or none. *)
Theorem for_driver_result_lengths
    (data : ConditionData) (drv : String.string) (test_point : TrackPoint)
    (res_x res_y : list Q) :
  for_driver data drv test_point = Ok (res_x, res_y) ->
  let drv_laps := filter (fun lap => String.eqb (Driver lap) drv)
                         (data_laps data) in
  let drv_last_lap := column_max (map NumberOfLaps drv_laps) in
  length res_x = length res_y /\
  (length res_x
   <= length (filter (fun lap => negb (lap_skipped drv_last_lap lap))
                     drv_laps))%nat.
Proof.
  intros H drv_laps drv_last_lap. unfold for_driver in H. cbv zeta in H.
  apply for_laps_appends in H.
  destruct H as (mx & my & -> & -> & Hlen & Hle). cbn [app]. auto.
Qed.

Lemma for_driver_crossing :
  for_driver crossing_data "44" (pt 10 0) = Ok ([120 # 15], [0 # 15]).
Proof. vm_compute. reflexivity. Qed.

Lemma for_driver_result_lengths_witness :
  for_driver crossing_data "44" (pt 10 0) = Ok ([120 # 15], [0 # 15]) /\
  length [120 # 15] = length [0 # 15] /\
  (length [120 # 15] <= 1)%nat.
Proof.
  split; [exact for_driver_crossing |].
  exact (for_driver_result_lengths crossing_data "44" (pt 10 0) _ _
           for_driver_crossing).
Defined.

(** X10.  In a usable lap whose window holds a sample before the candidate
    point in x and a sample at or after it, the crossing time is computed
    without error: the two chosen samples [ra] and [rb] lie in the window
    with [X ra < x < X rb] or [x = X rb], so the divisor is positive; the
    crossing time lies between their two timestamps and hence inside the
    window; and the lap then fails or succeeds as the position lookup at the
    start of the lap does. *)
Theorem for_lap_crossing_time
    (data : ConditionData) (drv : String.string) (test_point : TrackPoint)
    (drv_last_lap : option Q) (lap : Lap) (drv_pos : list PosRow)
    (r1 r2 : PosRow) :
  getitem (data_pos data) drv = Ok drv_pos ->
  lap_skipped drv_last_lap lap = false ->
  let approx_time := data_session_start_date data + Time lap in
  let window := query_window (approx_time - 10) (approx_time + 10) drv_pos in
  In r1 window -> X r1 < x test_point ->
  In r2 window -> x test_point <= X r2 ->
  exists ra rb,
    In ra window /\ In rb window /\
    X ra < x test_point /\ x test_point <= X rb /\
    let test_date :=
      Date ra + (Date rb - Date ra) * (x test_point - X ra) / (X rb - X ra) in
    (Date ra <= test_date <= Date rb \/ Date rb <= test_date <= Date ra) /\
    approx_time - 10 < test_date /\ test_date < approx_time + 10 /\
    for_lap data drv test_point drv_last_lap lap =
      (p <- interpolate_pos_from_time (data_track data) drv
              (test_date - LastLapTime lap) ;;
       Ok (Some (x p, y p))).
Proof.
  intros Hget Hskip approx_time window Hin1 Hx1 Hin2 Hx2.
  set (pts := map point_of_row window).
  set (before := filter (fun p => Qltb (x p) (x test_point)) pts).
  set (after := filter (fun p => negb (Qltb (x p) (x test_point))) pts).
  assert (Hb : before <> []).
  { intros E. assert (H : In (point_of_row r1) before).
    { apply filter_In. split; [now apply in_map |]. now apply Qltb_lt. }
    rewrite E in H. destruct H. }
  assert (Ha : after <> []).
  { intros E. assert (H : In (point_of_row r2) after).
    { apply filter_In. split; [now apply in_map |].
      apply negb_true_iff. now apply Qltb_ge. }
    rewrite E in H. destruct H. }
  destruct (min_index_map_spec (get_sqr_dist test_point) before Hb)
    as (i_a & p_a & Hia & Hpa & _).
  destruct (min_index_map_spec (get_sqr_dist test_point) after Ha)
    as (i_b & p_b & Hib & Hpb & _).
  apply nth_error_In in Hpa as Hina. apply nth_error_In in Hpb as Hinb.
  apply filter_In in Hina. destruct Hina as [Hina Hxa].
  apply filter_In in Hinb. destruct Hinb as [Hinb Hxb].
  apply in_map_iff in Hina. destruct Hina as (ra & Era & Hra).
  apply in_map_iff in Hinb. destruct Hinb as (rb & Erb & Hrb).
  apply Qltb_lt in Hxa. apply negb_true_iff, Qltb_ge in Hxb.
  subst p_a p_b. cbn [point_of_row x] in Hxa, Hxb.
  exists ra, rb.
  split; [exact Hra |]. split; [exact Hrb |].
  split; [exact Hxa |]. split; [exact Hxb |].
  intros test_date.
  assert (Hden : 0 < X rb - X ra) by qlra.
  set (t := (x test_point - X ra) / (X rb - X ra)).
  assert (Ht0 : 0 <= t).
  { unfold t. apply Qle_shift_div_l; [exact Hden | qlra]. }
  assert (Ht1 : t <= 1).
  { unfold t. apply Qle_shift_div_r; [exact Hden | qlra]. }
  assert (Htd : test_date == Date ra + (Date rb - Date ra) * t).
  { unfold test_date, t. field. qlra. }
  apply in_query_window in Hra as Hwa. apply in_query_window in Hrb as Hwb.
  destruct Hwa as (_ & Ha0 & Ha1). destruct Hwb as (_ & Hb0 & Hb1).
  assert (Hconv : test_date == (1 - t) * Date ra + t * Date rb)
    by (rewrite Htd; ring).
  assert (Hbetween :
    Date ra <= test_date <= Date rb \/ Date rb <= test_date <= Date ra).
  { destruct (Qlt_le_dec (Date rb) (Date ra)) as [Hlt | Hle].
    - right.
      assert (H1 : 0 <= (Date ra - Date rb) * t)
        by (apply Qmult_le_0_compat; qlra).
      assert (H2 : 0 <= (Date ra - Date rb) * (1 - t))
        by (apply Qmult_le_0_compat; qlra).
      split; qlra.
    - left.
      assert (H1 : 0 <= (Date rb - Date ra) * t)
        by (apply Qmult_le_0_compat; qlra).
      assert (H2 : 0 <= (Date rb - Date ra) * (1 - t))
        by (apply Qmult_le_0_compat; qlra).
      split; qlra. }
  split; [exact Hbetween |].
  split; [destruct Hbetween; qlra |].
  split; [destruct Hbetween; qlra |].
  unfold for_lap. rewrite Hskip, Hget. cbn [bind]. fold approx_time.
  fold window. rewrite split_sides_spec.
  cbn [neg_distances pos_distances pos_points neg_points].
  fold pts. fold before. fold after.
  rewrite !is_empty_map.
  destruct before as [|b0 before'] eqn:Eb; [congruence |].
  destruct after as [|a0 after'] eqn:Ea; [congruence |].
  cbn [is_empty orb]. rewrite Hia. cbn [bind].
  unfold py_nth at 1. rewrite Hpa. cbn [bind].
  rewrite Hib. cbn [bind].
  unfold py_nth at 1. rewrite Hpb. cbn [bind].
  unfold lap_start_point. cbn [date_number point_of_row date x y bind].
  destruct (q_div_cases ((Date rb - Date ra) * (x test_point - X ra))
                        (X rb - X ra)) as [[H _] | [_ ->]]; [qlra |].
  cbn [bind]. fold test_date.
  destruct (interpolate_pos_from_time (data_track data) drv
              (test_date - LastLapTime lap)); reflexivity.
Qed.

Lemma for_lap_crossing_time_witness :
  exists ra rb,
    In ra [mkPosRow 95 5 0; mkPosRow 105 20 0] /\
    In rb [mkPosRow 95 5 0; mkPosRow 105 20 0] /\
    X ra < 10 /\ 10 <= X rb.
Proof.
  destruct (for_lap_crossing_time crossing_data "44" (pt 10 0) (Some 3) lap_2
              [mkPosRow 5 0 0; mkPosRow 8 6 0; mkPosRow 9 12 0;
               mkPosRow 95 5 0; mkPosRow 105 20 0; mkPosRow 200 20 0]
              (mkPosRow 95 5 0) (mkPosRow 105 20 0))
    as (ra & rb & Ha & Hb & Hxa & Hxb & _).
  - reflexivity.
  - reflexivity.
  - vm_compute. auto.
  - reflexivity.
  - vm_compute. auto.
  - vm_compute. discriminate.
  - exists ra, rb. auto.
Defined.

(* ===================================================================== *)
(** ** Further properties: [remove_duplicates] *)
(* ===================================================================== *)

Ltac split_conj := repeat match goal with |- _ /\ _ => split end.

Section RemoveDuplicatesFacts.

Variables A B : Type.
Variable eq_dec : forall a b : A, {a = b} + {a <> b}.

Lemma py_in_true itm l : py_in A eq_dec itm l = true <-> In itm l.
Proof.
  unfold py_in. destruct (in_dec eq_dec itm l); split; auto; discriminate.
Qed.

Lemma remove_duplicates_loop_short l_ref l2 out_ref out_2 :
  (length l2 < length l_ref)%nat ->
  remove_duplicates_loop A B eq_dec l_ref l2 out_ref out_2
  = (Raise IndexError, (skipn (S (length l2)) l_ref, [])).
Proof.
  revert l2 out_ref out_2.
  induction l_ref as [|a l_ref IH]; intros l2 out_ref out_2 Hlen;
    [cbn in Hlen; lia |].
  destruct l2 as [|b l2]; cbn [remove_duplicates_loop].
  - reflexivity.
  - cbn [length] in Hlen.
    destruct (py_in A eq_dec a out_ref); rewrite IH by lia; reflexivity.
Qed.

Lemma remove_duplicates_loop_spec l_ref l2 out_ref out_2 :
  (length l_ref <= length l2)%nat ->
  NoDup out_ref ->
  exists more_ref more_2,
    remove_duplicates_loop A B eq_dec l_ref l2 out_ref out_2
    = (Ok (out_ref ++ more_ref, out_2 ++ more_2),
       ([], skipn (length l_ref) l2)) /\
    NoDup (out_ref ++ more_ref) /\
    (forall a, In a more_ref <-> In a l_ref /\ ~ In a out_ref) /\
    length more_2 = length more_ref /\
    forall i a b,
      nth_error more_ref i = Some a -> nth_error more_2 i = Some b ->
      exists j,
        nth_error l_ref j = Some a /\ nth_error l2 j = Some b /\
        forall j', (j' < j)%nat -> nth_error l_ref j' <> Some a.
Proof.
  revert l2 out_ref out_2.
  induction l_ref as [|a l_ref IH]; intros l2 out_ref out_2 Hlen Hnd.
  - exists [], []. cbn. rewrite !app_nil_r.
    split_conj; auto.
    + intros a. tauto.
    + intros i a b H. destruct i; discriminate.
  - destruct l2 as [|b l2]; [cbn in Hlen; lia |].
    cbn [length] in Hlen. cbn [remove_duplicates_loop].
    destruct (py_in A eq_dec a out_ref) eqn:E.
    + apply py_in_true in E.
      destruct (IH l2 out_ref out_2) as (mr & m2 & -> & Hnd' & Hin & Hl & Hp);
        [lia | exact Hnd |].
      exists mr, m2. split_conj; auto.
      * intros c. rewrite Hin. cbn. intuition congruence.
      * intros i c d Hc Hd.
        destruct (Hp i c d Hc Hd) as (j & Hj1 & Hj2 & Hj3).
        exists (S j). split_conj; auto.
        intros [|j'] Hlt; cbn.
        -- intros H. injection H as ->.
           assert (Hc' : In c mr) by (eapply nth_error_In; eauto).
           apply Hin in Hc'. tauto.
        -- apply Hj3. lia.
    + assert (Hn : ~ In a out_ref).
      { intros H. apply py_in_true in H. congruence. }
      destruct (IH l2 (out_ref ++ [a]) (out_2 ++ [b]))
        as (mr & m2 & -> & Hnd' & Hin & Hl & Hp); [lia | |].
      { apply NoDup_app; [exact Hnd | repeat constructor; intros [] |].
        intros c Hc [<- | []]. contradiction. }
      exists (a :: mr), (b :: m2). rewrite <- !app_assoc in *. cbn [app] in *.
      split_conj; auto.
      * intros c. cbn [In]. rewrite Hin, in_app_iff. cbn [In].
        destruct (eq_dec a c) as [-> | Hne]; intuition congruence.
      * cbn. now rewrite Hl.
      * intros [|i] c d Hc Hd; cbn in Hc, Hd.
        -- injection Hc as <-. injection Hd as <-.
           exists 0%nat. split_conj; auto. intros j' Hj'. lia.
        -- destruct (Hp i c d Hc Hd) as (j & Hj1 & Hj2 & Hj3).
           exists (S j). split_conj; auto.
           intros [|j'] Hlt; cbn.
           ++ intros H. injection H as ->.
              assert (Hc' : In c mr) by (eapply nth_error_In; eauto).
              apply Hin in Hc'. rewrite in_app_iff in Hc'. cbn in Hc'. tauto.
           ++ apply Hj3. lia.
Qed.

(** X11.  [remove_duplicates] raises [IndexError] exactly when [l2] is
    shorter than [l_ref]; by then it has emptied [l2] and removed one item
    more from [l_ref].  Otherwise it returns two lists of equal length: the
    first holds every item of [l_ref] once, and each item is paired with the
    item of [l2] at the place of its first occurrence in [l_ref]; the
    caller's [l_ref] is left empty and [l2] without its first
    [len(l_ref)] items. *)
Theorem remove_duplicates_spec (l_ref : list A) (l2 : list B) :
  ((length l2 < length l_ref)%nat /\
   remove_duplicates A B eq_dec l_ref l2
   = (Raise IndexError, (skipn (S (length l2)) l_ref, []))) \/
  ((length l_ref <= length l2)%nat /\
   exists l_ref_out l2_out,
     remove_duplicates A B eq_dec l_ref l2
     = (Ok (l_ref_out, l2_out), ([], skipn (length l_ref) l2)) /\
     NoDup l_ref_out /\
     (forall a, In a l_ref_out <-> In a l_ref) /\
     length l2_out = length l_ref_out /\
     forall i a b,
       nth_error l_ref_out i = Some a -> nth_error l2_out i = Some b ->
       exists j,
         nth_error l_ref j = Some a /\ nth_error l2 j = Some b /\
         forall j', (j' < j)%nat -> nth_error l_ref j' <> Some a).
Proof.
  unfold remove_duplicates.
  destruct (le_lt_dec (length l_ref) (length l2)) as [Hle | Hlt].
  - right. split; [exact Hle |].
    destruct (remove_duplicates_loop_spec l_ref l2 [] [] Hle (NoDup_nil A))
      as (mr & m2 & E & Hnd & Hin & Hl & Hp).
    exists mr, m2. cbn [app] in *. split_conj; auto.
    intros a. rewrite Hin. cbn. tauto.
  - left. split; [exact Hlt |]. now apply remove_duplicates_loop_short.
Qed.

Lemma remove_duplicates_loop_NoDup l_ref l2 out_ref out_2 :
  NoDup (out_ref ++ l_ref) ->
  length l2 = length l_ref ->
  remove_duplicates_loop A B eq_dec l_ref l2 out_ref out_2
  = (Ok (out_ref ++ l_ref, out_2 ++ l2), ([], [])).
Proof.
  revert l2 out_ref out_2.
  induction l_ref as [|a l_ref IH]; intros l2 out_ref out_2 Hnd Hlen.
  - destruct l2; [| discriminate]. cbn. now rewrite !app_nil_r.
  - destruct l2 as [|b l2]; [discriminate |].
    cbn [remove_duplicates_loop].
    destruct (py_in A eq_dec a out_ref) eqn:E.
    + apply py_in_true in E. apply NoDup_remove_2 in Hnd.
      exfalso. apply Hnd. apply in_or_app. now left.
    + rewrite IH.
      * now rewrite <- !app_assoc.
      * now rewrite <- app_assoc.
      * cbn in Hlen. lia.
Qed.

(** X12.  [remove_duplicates] changes nothing twice: on lists of equal
    length of which the first has no duplicates it returns the two lists as
    they are; so it returns its own result unchanged. *)
Theorem remove_duplicates_idempotent
    (l_ref l_ref_out : list A) (l2 l2_out : list B) (rest : list A * list B) :
  remove_duplicates A B eq_dec l_ref l2 = (Ok (l_ref_out, l2_out), rest) ->
  remove_duplicates A B eq_dec l_ref_out l2_out
  = (Ok (l_ref_out, l2_out), ([], [])).
Proof.
  unfold remove_duplicates. intros H.
  destruct (le_lt_dec (length l_ref) (length l2)) as [Hle | Hlt].
  - destruct (remove_duplicates_loop_spec l_ref l2 [] [] Hle (NoDup_nil A))
      as (out1 & out2 & E & Hnd & _ & Hl & _).
    rewrite E in H. injection H as <- <- _. cbn [app] in *.
    now rewrite remove_duplicates_loop_NoDup.
  - rewrite remove_duplicates_loop_short in H by exact Hlt. discriminate.
Qed.

End RemoveDuplicatesFacts.

Lemma remove_duplicates_idempotent_witness :
  remove_duplicates nat nat Nat.eq_dec [1; 2; 1; 3]%nat [10; 20; 30; 40; 50]%nat
  = (Ok ([1; 2; 3]%nat, [10; 20; 40]%nat), ([], [50%nat])) /\
  remove_duplicates nat nat Nat.eq_dec [1; 2; 3]%nat [10; 20; 40]%nat
  = (Ok ([1; 2; 3]%nat, [10; 20; 40]%nat), ([], [])).
Proof.
  assert (H : remove_duplicates nat nat Nat.eq_dec
                [1; 2; 1; 3]%nat [10; 20; 30; 40; 50]%nat
              = (Ok ([1; 2; 3]%nat, [10; 20; 40]%nat), ([], [50%nat])))
    by reflexivity.
  split; [exact H |].
  exact (remove_duplicates_idempotent nat nat Nat.eq_dec _ _ _ _ _ H).
Defined.

(* ===================================================================== *)
(** ** Further properties: [chunks] *)
(* ===================================================================== *)

Lemma firstn_add {A : Type} (a b : nat) (l : list A) :
  firstn (a + b) l = firstn a l ++ firstn b (skipn a l).
Proof.
  revert l; induction a as [|a IH]; intros l; [reflexivity |].
  destruct l as [|c l]; cbn; [now rewrite firstn_nil | now rewrite IH].
Qed.

Lemma slice_step {A : Type} (l : list A) (i step : nat) :
  slice l i (i + step) = firstn step (skipn i l).
Proof. unfold slice. f_equal. lia. Qed.

Lemma concat_slices {A : Type} (l : list A) (step m : nat) :
  concat (map (fun i => slice l i (i + step))
              (map (fun j => (j * step)%nat) (seq 0 m)))
  = firstn (m * step) l.
Proof.
  induction m as [|m IH]; [reflexivity |].
  rewrite seq_S, !map_app, concat_app, IH. cbn [map concat plus].
  rewrite app_nil_r, slice_step.
  replace (S m * step)%nat with (m * step + step)%nat by lia.
  now rewrite firstn_add.
Qed.

Lemma ceil_div_bounds (len step : nat) :
  (0 < step)%nat ->
  let m := ((len + step - 1) / step)%nat in
  (len <= m * step)%nat /\ (m * step < len + step)%nat.
Proof.
  intros Hs m.
  pose proof (Nat.div_mod_eq (len + step - 1) step) as E.
  pose proof (Nat.mod_upper_bound (len + step - 1) step ltac:(lia)) as Hm.
  fold m in E. nia.
Qed.

Lemma length_slice_step {A : Type} (l : list A) (i step : nat) :
  length (slice l i (i + step)) = Nat.min step (length l - i).
Proof. now rewrite slice_step, length_firstn, length_skipn. Qed.

Lemma chunks_positive {A : Type} (lst : list A) (n : Z) :
  (0 < n)%Z ->
  exists cs,
    chunks lst n = Ok cs /\
    concat cs = lst /\
    length cs = ((length lst + Z.to_nat n - 1) / Z.to_nat n)%nat /\
    (forall i c, nth_error cs i = Some c ->
       (1 <= length c <= Z.to_nat n)%nat /\
       ((S i < length cs)%nat -> length c = Z.to_nat n)).
Proof.
  intros Hpos. unfold chunks.
  destruct (Z.eqb_spec n 0) as [-> | Hn0]; [lia |].
  destruct (Z.ltb_spec n 0) as [Hneg | _]; [lia |].
  set (step := Z.to_nat n). assert (Hs : (0 < step)%nat) by lia.
  destruct (ceil_div_bounds (length lst) step Hs) as [Hlo Hhi].
  set (m := ((length lst + step - 1) / step)%nat) in *.
  eexists. split; [reflexivity |]. unfold py_range. fold m.
  split_conj.
  - rewrite concat_slices. apply firstn_all2. exact Hlo.
  - now rewrite !length_map, length_seq.
  - intros i c Hc. rewrite !length_map, length_seq.
    rewrite map_map, nth_error_map in Hc.
    destruct (nth_error (seq 0 m) i) as [j|] eqn:Ej; [| discriminate].
    cbn in Hc. injection Hc as <-.
    assert (Hi : (i < m)%nat).
    { assert (Hs' : nth_error (seq 0 m) i <> None) by congruence.
      apply nth_error_Some in Hs'. now rewrite length_seq in Hs'. }
    rewrite nth_error_seq in Ej.
    destruct (Nat.ltb_spec i m); [| lia]. injection Ej as <-.
    rewrite length_slice_step. cbn [plus]. split; [nia | intros Hlt; nia].
Qed.

(** X13.  [chunks] raises [ValueError] for the size 0 and yields nothing for
    a negative size.  For a size [n > 0] it yields [ceil(len(lst) / n)]
    chunks that, put together, are [lst]; every chunk but the last has
    [n] items and the last has between 1 and [n]. *)
Theorem chunks_spec {A : Type} (lst : list A) (n : Z) :
  ((n = 0)%Z /\ chunks lst n = Raise ValueError) \/
  ((n < 0)%Z /\ chunks lst n = Ok []) \/
  ((0 < n)%Z /\
   exists cs,
     chunks lst n = Ok cs /\
     concat cs = lst /\
     length cs = ((length lst + Z.to_nat n - 1) / Z.to_nat n)%nat /\
     (forall i c, nth_error cs i = Some c ->
        (1 <= length c <= Z.to_nat n)%nat /\
        ((S i < length cs)%nat -> length c = Z.to_nat n))).
Proof.
  destruct (Z.lt_trichotomy n 0) as [Hneg | [-> | Hpos]].
  - right. left. split; [exact Hneg |]. unfold chunks.
    destruct (Z.eqb_spec n 0); [lia |].
    destruct (Z.ltb_spec n 0); [reflexivity | lia].
  - left. auto.
  - right. right. split; [exact Hpos |]. now apply chunks_positive.
Qed.

(** X14.  [s3_to_start_finish_v1] never starts more than its four
    subprocesses, and it starts exactly four only when
    [len(drivers) % 4 + len(drivers) // 4 >= 4]; for every other number of
    drivers (such as 4, 8 or 12) it starts fewer subprocesses than the four
    results it then waits for. *)
Theorem drivers_chunks_count {A : Type} (drivers : list A) :
  exists cs,
    drivers_chunks drivers = Ok cs /\
    concat cs = drivers /\
    (length cs <= 4)%nat /\
    (length cs = 4%nat <->
     (4 <= length drivers mod 4 + length drivers / 4)%nat).
Proof.
  unfold drivers_chunks. cbv zeta.
  set (q := (length drivers / 4)%nat).
  destruct (chunks_positive drivers (Z.of_nat q + 1))
    as (cs & -> & Hcat & Hlen & _); [lia |].
  exists cs. split; [reflexivity |]. split; [exact Hcat |].
  replace (Z.to_nat (Z.of_nat q + 1)) with (S q) in Hlen by lia.
  pose proof (Nat.div_mod_eq (length drivers) 4) as E. fold q in E.
  pose proof (Nat.mod_upper_bound (length drivers) 4 ltac:(lia)) as Hr.
  set (r := (length drivers mod 4)%nat) in *.
  destruct (ceil_div_bounds (length drivers) (S q) ltac:(lia)) as [Hlo Hhi].
  rewrite <- Hlen in Hlo, Hhi.
  split; [nia |]. split; intros H; nia.
Qed.

(* ===================================================================== *)
(** ** Further properties: [get_points_between] *)
(* ===================================================================== *)

Section PointsBetweenFacts.

Variable A : Type.
Variable eq_dec : forall a b : A, {a = b} + {a <> b}.

Lemma index_of_Raise l p e :
  index_of A eq_dec l p = Raise e -> e = ValueError /\ ~ In p l.
Proof.
  induction l as [|a l IH]; cbn.
  - intros H. injection H as <-. auto.
  - destruct (eq_dec a p) as [-> | Hne]; [discriminate |].
    destruct (index_of A eq_dec l p) as [i | e'] eqn:E; cbn [bind];
      [discriminate |].
    intros H. injection H as <-. destruct (IH eq_refl) as [-> Hn].
    split; [reflexivity |]. intros [-> | Hin]; contradiction.
Qed.

Lemma index_of_Ok l p i : index_of A eq_dec l p = Ok i -> In p l.
Proof.
  revert i; induction l as [|a l IH]; intros i; cbn; [discriminate |].
  destruct (eq_dec a p) as [-> | Hne]; [now left |].
  destruct (index_of A eq_dec l p) as [j | e]; cbn [bind]; [| discriminate].
  intros _. right. now apply (IH j).
Qed.

Lemma index_of_split l p :
  In p l ->
  exists before after,
    l = before ++ p :: after /\ ~ In p before /\
    index_of A eq_dec l p = Ok (length before).
Proof.
  induction l as [|a l IH]; [intros [] |].
  intros Hin. cbn [index_of].
  destruct (eq_dec a p) as [-> | Hne].
  - exists [], l. auto.
  - destruct Hin as [-> | Hin]; [congruence |].
    destruct (IH Hin) as (before & after & -> & Hn & ->).
    exists (a :: before), after. cbn [bind app length].
    split_conj; auto. intros [-> | H]; contradiction.
Qed.

Lemma index_of_app_notin l1 l2 p :
  ~ In p l1 ->
  index_of A eq_dec (l1 ++ l2) p
  = (i <- index_of A eq_dec l2 p ;; Ok (length l1 + i)%nat).
Proof.
  induction l1 as [|a l1 IH]; intros Hn; cbn [app index_of length].
  - destruct (index_of A eq_dec l2 p); reflexivity.
  - destruct (eq_dec a p) as [-> | Hne]; [exfalso; apply Hn; now left |].
    rewrite IH by (intros H; apply Hn; now right).
    destruct (index_of A eq_dec l2 p); reflexivity.
Qed.

(** Two different points of the track, with the track cut at the first
    occurrence of each. *)
Lemma two_points_split l p1 p2 :
  In p1 l -> In p2 l -> p1 <> p2 ->
  exists lo hi before middle after,
    l = before ++ lo :: middle ++ hi :: after /\
    index_of A eq_dec l lo = Ok (length before) /\
    index_of A eq_dec l hi = Ok (length before + 1 + length middle)%nat /\
    ((lo = p1 /\ hi = p2) \/ (lo = p2 /\ hi = p1)) /\
    ~ In lo before /\ ~ In hi before /\ ~ In hi middle.
Proof.
  intros H1 H2 Hne.
  destruct (index_of_split l p1 H1) as (b1 & a1 & E1 & Hn1 & I1).
  assert (Hcase : In p2 b1 \/ In p2 a1).
  { rewrite E1 in H2. apply in_app_or in H2.
    destruct H2 as [H | [H | H]]; auto. congruence. }
  destruct (in_dec eq_dec p2 b1) as [Hb | Hnb].
  - (* p2 comes first *)
    destruct (index_of_split b1 p2 Hb) as (b & m & Eb & Hnb2 & _).
    exists p2, p1, b, m, a1.
    assert (El : l = b ++ p2 :: m ++ p1 :: a1).
    { rewrite E1, Eb, <- app_assoc. reflexivity. }
    assert (Hp1 : ~ In p1 b /\ ~ In p1 m).
    { rewrite Eb in Hn1. split; intros H; apply Hn1; apply in_or_app;
        [now left | right; now right]. }
    split; [exact El |]. split_conj; try tauto.
    + rewrite El at 1. rewrite index_of_app_notin by exact Hnb2.
      cbn [index_of]. destruct (eq_dec p2 p2); [| congruence].
      cbn [bind]. f_equal. lia.
    + rewrite I1. f_equal. rewrite Eb, length_app. cbn [length]. lia.
  - (* p1 comes first *)
    assert (Ha : In p2 a1) by tauto.
    destruct (index_of_split a1 p2 Ha) as (m & a & Ea & Hnm & Im).
    exists p1, p2, b1, m, a.
    assert (El : l = b1 ++ p1 :: m ++ p2 :: a) by (now rewrite E1, Ea).
    split; [exact El |]. split_conj; try tauto.
    + rewrite E1 at 1. rewrite index_of_app_notin by exact Hnb.
      cbn [index_of]. destruct (eq_dec p1 p2); [congruence |].
      rewrite Im. cbn [bind]. f_equal. lia.
Qed.

Lemma slice_middle (before middle after : list A) lo hi :
  slice (before ++ lo :: middle ++ hi :: after)
        (length before + 1) (length before + 1 + length middle)
  = middle.
Proof.
  unfold slice.
  replace (length before + 1 + length middle - (length before + 1))%nat
    with (length middle) by lia.
  replace (before ++ lo :: middle ++ hi :: after)
    with ((before ++ [lo]) ++ middle ++ hi :: after)
    by (now rewrite <- app_assoc).
  rewrite skipn_app, skipn_all2 by (rewrite length_app; cbn; lia).
  rewrite length_app. cbn [length app].
  replace (length before + 1 - (length before + 1))%nat with 0%nat by lia.
  cbn [skipn]. rewrite firstn_app, firstn_all2 by lia.
  rewrite Nat.sub_diag. cbn [firstn]. now rewrite app_nil_r.
Qed.

Lemma firstn_before (before rest : list A) :
  firstn (length before) (before ++ rest) = before.
Proof.
  rewrite firstn_app, Nat.sub_diag, firstn_all2 by lia.
  cbn [firstn]. now rewrite app_nil_r.
Qed.

Lemma skipn_after (before middle after : list A) lo hi :
  skipn (length before + 1 + length middle + 1)
        (before ++ lo :: middle ++ hi :: after)
  = after.
Proof.
  replace (before ++ lo :: middle ++ hi :: after)
    with ((before ++ lo :: middle ++ [hi]) ++ after).
  - rewrite skipn_app, skipn_all2.
    + rewrite !length_app. cbn [length]. rewrite length_app. cbn [length].
      replace (length before + 1 + length middle + 1
               - (length before + S (length middle + 1)))%nat
        with 0%nat by lia.
      reflexivity.
    + rewrite !length_app. cbn [length]. rewrite length_app. cbn [length].
      lia.
  - rewrite <- app_assoc. cbn [app]. rewrite <- app_assoc. reflexivity.
Qed.

(** X15.  [get_points_between] raises [ValueError] when one of the two
    points is not a track point.  For two different track points, of which
    [lo] comes first in the track and [hi] second, the track is
    [before ++ [lo] ++ middle ++ [hi] ++ after] and the short range is
    [middle], the long range is [after ++ before]; with [include_ref] the
    short range runs from [lo] to [hi] and the long range from [hi] round
    the end of the list to [lo].  The order of the two arguments makes no
    difference.  Asked for one track point twice, the short range is empty,
    or holds that point twice with [include_ref], and the long range is the
    rest of the track. *)
Theorem get_points_between_spec
    (sorted_points : list A) (point1 point2 : A) :
  (~ In point1 sorted_points \/ ~ In point2 sorted_points ->
   forall short include_ref,
     get_points_between A eq_dec sorted_points point1 point2 short include_ref
     = Raise ValueError) /\
  (In point1 sorted_points -> In point2 sorted_points -> point1 <> point2 ->
   exists lo hi before middle after,
     sorted_points = before ++ lo :: middle ++ hi :: after /\
     ((lo = point1 /\ hi = point2) \/ (lo = point2 /\ hi = point1)) /\
     ~ In lo before /\ ~ In hi before /\ ~ In hi middle /\
     (forall p q,
        (p = point1 /\ q = point2) \/ (p = point2 /\ q = point1) ->
        get_points_between A eq_dec sorted_points p q true true
        = Ok (lo :: middle ++ [hi]) /\
        get_points_between A eq_dec sorted_points p q true false
        = Ok middle /\
        get_points_between A eq_dec sorted_points p q false true
        = Ok (hi :: (after ++ before) ++ [lo]) /\
        get_points_between A eq_dec sorted_points p q false false
        = Ok (after ++ before))) /\
  (In point1 sorted_points ->
   exists before after,
     sorted_points = before ++ point1 :: after /\
     ~ In point1 before /\
     get_points_between A eq_dec sorted_points point1 point1 true true
     = Ok [point1; point1] /\
     get_points_between A eq_dec sorted_points point1 point1 true false
     = Ok [] /\
     get_points_between A eq_dec sorted_points point1 point1 false true
     = Ok (point1 :: (after ++ before) ++ [point1]) /\
     get_points_between A eq_dec sorted_points point1 point1 false false
     = Ok (after ++ before)).
Proof.
  split; [| split].
  - intros Hn short include_ref. unfold get_points_between.
    destruct (index_of A eq_dec sorted_points point1) as [i1 | e1] eqn:E1.
    + destruct (index_of A eq_dec sorted_points point2) as [i2 | e2] eqn:E2.
      * apply index_of_Ok in E1. apply index_of_Ok in E2. tauto.
      * apply index_of_Raise in E2. destruct E2 as [-> _]. reflexivity.
    + apply index_of_Raise in E1. destruct E1 as [-> _]. reflexivity.
  - intros H1 H2 Hne.
    destruct (two_points_split sorted_points point1 point2 H1 H2 Hne)
      as (lo & hi & before & middle & after & El & Ilo & Ihi & Hwho
          & Hn1 & Hn2 & Hn3).
    exists lo, hi, before, middle, after.
    split; [exact El |]. split; [exact Hwho |].
    split; [exact Hn1 |]. split; [exact Hn2 |]. split; [exact Hn3 |].
    assert (Hmin : Nat.min (length before)
                     (length before + 1 + length middle) = length before)
      by lia.
    assert (Hmax : Nat.max (length before)
                     (length before + 1 + length middle)
                   = (length before + 1 + length middle)%nat) by lia.
    assert (Hmin' : Nat.min (length before + 1 + length middle)
                      (length before) = length before) by lia.
    assert (Hmax' : Nat.max (length before + 1 + length middle)
                      (length before)
                    = (length before + 1 + length middle)%nat) by lia.
    assert (Hlt : (length before <? length before + 1 + length middle)%nat
                  = true) by (apply Nat.ltb_lt; lia).
    assert (Hge : (length before + 1 + length middle <? length before)%nat
                  = false) by (apply Nat.ltb_ge; lia).
    assert (Hs : slice sorted_points (length before + 1)
                   (length before + 1 + length middle) = middle)
      by (rewrite El; apply slice_middle).
    assert (Hf : firstn (length before) sorted_points = before)
      by (rewrite El; apply firstn_before).
    assert (Hk : skipn (length before + 1 + length middle + 1) sorted_points
                 = after) by (rewrite El; apply skipn_after).
    intros p q Hpq. unfold get_points_between.
    destruct Hwho as [[-> ->] | [-> ->]];
      destruct Hpq as [[-> ->] | [-> ->]];
      rewrite ?Ilo, ?Ihi; cbn [bind];
      rewrite ?Hmin, ?Hmax, ?Hmin', ?Hmax', ?Hlt, ?Hge, ?Hs, ?Hf, ?Hk;
      cbn [app]; auto.
  - intros H1.
    destruct (index_of_split sorted_points point1 H1)
      as (before & after & El & Hn & I1).
    exists before, after. split; [exact El |]. split; [exact Hn |].
    assert (Hf : firstn (length before) sorted_points = before)
      by (rewrite El; apply firstn_before).
    assert (Hk : skipn (length before + 1) sorted_points = after).
    { rewrite El.
      replace (before ++ point1 :: after)
        with ((before ++ [point1]) ++ after) by (now rewrite <- app_assoc).
      rewrite skipn_app, skipn_all2 by (rewrite length_app; cbn; lia).
      rewrite length_app. cbn [length app].
      now rewrite Nat.sub_diag. }
    unfold get_points_between. rewrite I1. cbn [bind].
    rewrite Nat.min_id, Nat.max_id, Nat.ltb_irrefl, Hf, Hk.
    unfold slice.
    replace (length before - (length before + 1))%nat with 0%nat by lia.
    cbn [firstn app]. auto.
Qed.

End PointsBetweenFacts.

Lemma get_points_between_spec_witness :
  (exists lo hi before middle after,
     [10; 20; 30; 40; 50]%nat = before ++ lo :: middle ++ hi :: after /\
     get_points_between nat Nat.eq_dec [10; 20; 30; 40; 50]%nat 40%nat 20%nat
                        true true
     = Ok (lo :: middle ++ [hi])) /\
  get_points_between nat Nat.eq_dec [10; 20; 30; 40; 50]%nat 40%nat 60%nat
                     true true
  = Raise ValueError.
Proof.
  destruct (get_points_between_spec nat Nat.eq_dec
              [10; 20; 30; 40; 50]%nat 40%nat 20%nat) as (_ & Hsplit & _).
  destruct (get_points_between_spec nat Nat.eq_dec
              [10; 20; 30; 40; 50]%nat 40%nat 60%nat) as (Hraise & _).
  split.
  - destruct Hsplit as (lo & hi & before & middle & after & El & _ & _ & _
                        & _ & Hall).
    + cbn. auto 10.
    + cbn. auto 10.
    + discriminate.
    + exists lo, hi, before, middle, after. split; [exact El |].
      apply Hall. left. auto.
  - apply Hraise. right. cbn.
    intros H. repeat destruct H as [H | H]; try discriminate H. exact H.
Defined.

(* ===================================================================== *)
(** ** Further properties: [get_closest_time_to] *)
(* ===================================================================== *)

Lemma argsort_smallest (keys : list Q) :
  keys <> [] ->
  exists i0 rest k0,
    argsort keys = i0 :: rest /\
    nth_error keys i0 = Some k0 /\
    forall j kj, nth_error keys j = Some kj -> k0 <= kj.
Proof.
  intros Hne. unfold argsort.
  set (P := combine keys (seq 0 (length keys))).
  destruct (sort_keyed_spec P) as [Hperm Hsorted].
  assert (HlenP : length P = length keys).
  { unfold P. rewrite length_combine, length_seq. lia. }
  assert (Hin : forall k i, In (k, i) (sort_keyed P) <->
                            nth_error keys i = Some k).
  { intros k i. split.
    - intros H. eapply Permutation_in in H; [| exact Hperm].
      apply in_combine_seq in H. destruct H as [_ H].
      now rewrite Nat.sub_0_r in H.
    - intros H. eapply Permutation_in; [symmetry; exact Hperm |].
      apply in_combine_seq. rewrite Nat.sub_0_r. split; [lia | exact H]. }
  pose proof (Permutation_length Hperm) as HlenS.
  destruct (sort_keyed P) as [|[k0 i0] S].
  - destruct keys; [congruence | cbn in *; lia].
  - exists i0, (map snd S), k0. cbn [map snd].
    split; [reflexivity |].
    split; [apply Hin; now left |].
    intros j kj Hj. apply Hin in Hj.
    inversion Hsorted as [| ? ? _ Hall]; subst.
    destruct Hj as [Hj | Hj].
    + injection Hj as <- _. apply Qle_refl.
    + rewrite Forall_forall in Hall. exact (Hall _ Hj).
Qed.

(** X16.  [get_closest_time_to] raises [IndexError] on an empty frame; on
    any other frame it returns a row of the frame whose index is nearest
    to [t]: no row has an index nearer to [t]. *)
Theorem get_closest_time_to_spec {A : Type} (frame : list (Q * A)) (t : Q) :
  match frame with
  | [] => get_closest_time_to frame t = Raise IndexError
  | _ :: _ =>
      exists row,
        get_closest_time_to frame t = Ok row /\
        In row frame /\
        forall other, In other frame ->
          Qabs (fst row - t) <= Qabs (fst other - t)
  end.
Proof.
  destruct frame as [|r0 frame]; [reflexivity |].
  set (rows := r0 :: frame).
  destruct (argsort_smallest (map (fun row => Qabs (fst row - t)) rows))
    as (i0 & rest & k0 & Hsort & H0 & Hmin); [discriminate |].
  rewrite nth_error_map in H0.
  destruct (nth_error rows i0) as [row|] eqn:E0; [| discriminate].
  cbn [option_map] in H0. injection H0 as <-.
  exists row. unfold get_closest_time_to. fold rows. rewrite Hsort.
  unfold py_nth at 1. cbn [nth_error bind]. unfold py_nth. rewrite E0.
  split; [reflexivity |]. split; [eapply nth_error_In; eauto |].
  intros other Hin. apply In_nth_error in Hin. destruct Hin as [j Hj].
  apply (Hmin j). rewrite nth_error_map, Hj. reflexivity.
Qed.

(* ===================================================================== *)
(** ** Further properties: the points taken from the position data *)
(* ===================================================================== *)

Lemma same_xy_iff a b :
  same_xy a b = true <-> fst a == fst b /\ snd a == snd b.
Proof.
  unfold same_xy. now rewrite andb_true_iff, !Qeq_bool_iff.
Qed.

Lemma same_xy_sym a b : same_xy a b = same_xy b a.
Proof.
  destruct (same_xy a b) eqn:E1, (same_xy b a) eqn:E2; try reflexivity.
  - apply same_xy_iff in E1. destruct E1 as [H1 H2].
    assert (H : same_xy b a = true)
      by (apply same_xy_iff; split; symmetry; assumption).
    congruence.
  - apply same_xy_iff in E2. destruct E2 as [H1 H2].
    assert (H : same_xy a b = true)
      by (apply same_xy_iff; split; symmetry; assumption).
    congruence.
Qed.

Lemma same_xy_trans a b c :
  same_xy a b = true -> same_xy b c = true -> same_xy a c = true.
Proof.
  rewrite !same_xy_iff. intros [H1 H2] [H3 H4].
  split; [now rewrite H1 | now rewrite H2].
Qed.

Lemma get_sqr_dist_pos_iff p q :
  0 < get_sqr_dist p q <-> same_xy (x p, y p) (x q, y q) = false.
Proof.
  unfold get_sqr_dist.
  pose proof (Qabs_nonneg (x q - x p)) as Hx.
  pose proof (Qabs_nonneg (y q - y p)) as Hy.
  split.
  - intros Hpos. apply not_true_is_false. intros E.
    apply same_xy_iff in E. cbn [fst snd] in E. destruct E as [Ex Ey].
    assert (Hx0 : Qabs (x q - x p) == 0)
      by (apply (proj2 (Qabs_zero_iff _)); qlra).
    assert (Hy0 : Qabs (y q - y p) == 0)
      by (apply (proj2 (Qabs_zero_iff _)); qlra).
    qlra.
  - intros E.
    destruct (Qlt_le_dec 0 (Qabs (x q - x p) + Qabs (y q - y p)))
      as [H | H]; [exact H |].
    exfalso.
    assert (Hx0 : Qabs (x q - x p) == 0) by qlra.
    assert (Hy0 : Qabs (y q - y p) == 0) by qlra.
    apply (proj1 (Qabs_zero_iff _)) in Hx0.
    apply (proj1 (Qabs_zero_iff _)) in Hy0.
    assert (E' : same_xy (x p, y p) (x q, y q) = true)
      by (apply same_xy_iff; cbn [fst snd]; split; qlra).
    congruence.
Qed.

Lemma drop_duplicates_from_spec seen rows :
  let out := drop_duplicates_from seen rows in
  (forall r, In r out -> In r rows /\ existsb (same_xy r) seen = false) /\
  (forall r, In r rows ->
     existsb (same_xy r) seen = true \/
     exists r', In r' out /\ same_xy r r' = true) /\
  distinct_xy out.
Proof.
  revert seen; induction rows as [|a rows IH]; intros seen; cbn zeta.
  - cbn. split_conj; auto; intros r [].
  - cbn [drop_duplicates_from].
    destruct (existsb (same_xy a) seen) eqn:E.
    + destruct (IH seen) as (H1 & H2 & H3). split_conj; auto.
      * intros r Hr. destruct (H1 r Hr). split; [now right | assumption].
      * intros r [<- | Hr]; [now left | now apply H2].
    + destruct (IH (a :: seen)) as (H1 & H2 & H3). split_conj.
      * intros r [<- | Hr]; [split; [now left | exact E] |].
        destruct (H1 r Hr) as [Hin Hex]. split; [now right |].
        cbn [existsb] in Hex. apply orb_false_iff in Hex. tauto.
      * intros r [<- | Hr].
        -- right. exists a. split; [now left |].
           apply same_xy_iff. split; reflexivity.
        -- destruct (H2 r Hr) as [Hex | (r' & Hr' & Hs)].
           ++ cbn [existsb] in Hex. apply orb_true_iff in Hex.
              destruct Hex as [Hex | Hex]; [| now left].
              right. exists a. split; [now left | exact Hex].
           ++ right. exists r'. split; [now right | exact Hs].
      * cbn [distinct_xy]. split; [| exact H3].
        apply Forall_forall. intros b Hb. destruct (H1 b Hb) as [_ Hex].
        cbn [existsb] in Hex. apply orb_false_iff in Hex.
        rewrite same_xy_sym. tauto.
Qed.

Lemma apart_points (l : list (Q * Q)) :
  distinct_xy l ->
  apart (map (fun data => Point (fst data) (snd data)) l).
Proof.
  induction l as [|a l IH]; cbn [distinct_xy map apart]; [auto |].
  intros [Ha Hl]. split; [| auto].
  apply Forall_map. eapply Forall_impl; [| exact Ha].
  cbn beta. intros b Hb. apply get_sqr_dist_pos_iff. cbn [x y Point].
  destruct a, b. exact Hb.
Qed.

Lemma getitem_In {V : Type} (d : dict V) k v :
  getitem d k = Ok v -> In (k, v) d.
Proof.
  induction d as [|[k' v'] d IH]; cbn; [discriminate |].
  destruct (String.eqb k' k) eqn:E.
  - apply String.eqb_eq in E. intros H. injection H as <-. subst. now left.
  - auto.
Qed.

Lemma for_each_getitem_keys {V : Type} (d : dict V) (keys : list String.string) :
  (forall k, In k keys -> In k (map fst d)) ->
  exists frames,
    for_each (getitem d) keys = Ok frames /\
    Forall2 (fun k v => getitem d k = Ok v) keys frames.
Proof.
  induction keys as [|k keys IH]; intros Hk.
  - exists []. split; [reflexivity | constructor].
  - destruct IH as (frames & E & HF); [intros k' H; apply Hk; now right |].
    destruct (getitem d k) as [v | e] eqn:Eg.
    + exists (v :: frames). cbn [for_each]. rewrite Eg, E. cbn [bind].
      split; [reflexivity | now constructor].
    + apply getitem_Raise in Eg. destruct Eg as [_ Hn].
      exfalso. apply Hn, Hk. now left.
Qed.

(** X17.  [_unsorted_points_from_pos_data] raises [IndexError] when the
    position data has no driver.  Otherwise it returns points without a
    date, no two of which have the same coordinates; every point is the
    position of a sample with the status OnTrack, and the position of every
    such sample of every driver is among the points. *)
Theorem unsorted_points_from_pos_data_spec
    (_raw_pos_data : dict (list StatusRow)) :
  match _raw_pos_data with
  | [] => _unsorted_points_from_pos_data _raw_pos_data = Raise IndexError
  | _ :: _ =>
      exists points,
        _unsorted_points_from_pos_data _raw_pos_data = Ok points /\
        apart points /\
        (forall p, In p points ->
           date p = None /\
           exists drv rows r,
             In (drv, rows) _raw_pos_data /\ In r rows /\
             Status r = "OnTrack"%string /\
             x p = X (sample r) /\ y p = Y (sample r)) /\
        (forall drv rows r,
           getitem _raw_pos_data drv = Ok rows -> In r rows ->
           Status r = "OnTrack"%string ->
           exists p, In p points /\
                     x p == X (sample r) /\ y p == Y (sample r))
  end.
Proof.
  destruct _raw_pos_data as [|[drv0 rows0] pos']; [reflexivity |].
  set (pos := (drv0, rows0) :: pos').
  destruct (for_each_getitem_keys pos (map fst pos)) as (frames & Ef & HF);
    [auto |].
  set (on_track := filter (fun r => String.eqb (Status r) "OnTrack")
                          (concat frames)).
  set (xy := map (fun r => (X (sample r), Y (sample r))) on_track).
  destruct (drop_duplicates_from_spec [] xy) as (H1 & H2 & H3).
  exists (map (fun data => Point (fst data) (snd data))
              (drop_duplicates xy)).
  split.
  { unfold _unsorted_points_from_pos_data. cbv zeta. fold pos.
    rewrite Ef. reflexivity. }
  split; [apply apart_points; exact H3 |].
  assert (Hframes : forall r, In r (concat frames) <->
            exists drv rows, getitem pos drv = Ok rows /\
                             In drv (map fst pos) /\ In r rows).
  { intros r. rewrite in_concat. clear - HF.
    induction HF as [|k v ks vs Hk _ IH].
    - split; [intros (l & [] & _) | intros (d & rows & _ & [] & _)].
    - split.
      + intros (l & [<- | Hl] & Hr).
        * exists k, v. split_conj; auto. now left.
        * destruct (proj1 IH) as (d & rows & Hg & Hd & Hin);
            [exists l; auto |].
          exists d, rows. split_conj; auto. now right.
      + intros (d & rows & Hg & [<- | Hd] & Hin).
        * exists v. split; [now left |]. congruence.
        * destruct (proj2 IH) as (l & Hl & Hr);
            [exists d, rows; auto |].
          exists l. split; [now right | exact Hr]. }
  split.
  - intros p Hp. apply in_map_iff in Hp. destruct Hp as (d & <- & Hd).
    split; [reflexivity |].
    destruct (H1 d Hd) as [Hin _].
    apply in_map_iff in Hin. destruct Hin as (r & <- & Hr).
    apply filter_In in Hr. destruct Hr as [Hr Hs].
    apply Hframes in Hr. destruct Hr as (drv & rows & Hg & _ & Hin).
    exists drv, rows, r. apply String.eqb_eq in Hs.
    split_conj; auto. now apply getitem_In.
  - intros drv rows r Hg Hin Hs.
    assert (Hr : In (X (sample r), Y (sample r)) xy).
    { apply in_map_iff. exists r. split; [reflexivity |].
      apply filter_In. split; [| now apply String.eqb_eq].
      apply Hframes. exists drv, rows. split_conj; auto.
      eapply getitem_Ok; eauto. }
    destruct (H2 _ Hr) as [Hex | (r' & Hr' & Hsame)]; [discriminate |].
    exists (Point (fst r') (snd r')). split.
    + apply in_map_iff. exists r'. auto.
    + apply same_xy_iff in Hsame. cbn [fst snd x y Point] in *.
      destruct Hsame. split; qlra.
Qed.

Lemma unsorted_points_apart (_raw_pos_data : dict (list StatusRow)) :
  match _unsorted_points_from_pos_data _raw_pos_data with
  | Ok points => apart points
  | Raise e => e = IndexError
  end.
Proof.
  destruct _raw_pos_data as [|[drv0 rows0] pos']; [reflexivity |].
  set (pos := (drv0, rows0) :: pos').
  destruct (for_each_getitem_keys pos (map fst pos)) as (frames & Ef & _);
    [auto |].
  unfold _unsorted_points_from_pos_data. cbv zeta. fold pos.
  rewrite Ef. cbn [map fst py_nth nth_error bind].
  apply apart_points. apply drop_duplicates_from_spec.
Qed.

(* ===================================================================== *)
(** ** Further properties: the track of deduplicated position data *)
(* ===================================================================== *)

Lemma apart_perm l l' : Permutation l l' -> apart l -> apart l'.
Proof.
  induction 1 as [| a l l' Hp IH | a b l | l l' l'' _ IH1 _ IH2]; cbn.
  - auto.
  - intros [Ha Hl]. split; [| auto].
    eapply Permutation_Forall; eauto.
  - intros [Hb [Ha Hl]]. inversion Hb as [| ? ? Hba Hbl]; subst.
    repeat split; auto.
    constructor; [rewrite get_sqr_dist_sym; exact Hba | exact Ha].
  - auto.
Qed.

Lemma apart_app_l l1 l2 : apart (l1 ++ l2) -> apart l1.
Proof.
  induction l1 as [|a l1 IH]; cbn; [auto |].
  intros [Ha Hl]. split; [| auto].
  apply Forall_app in Ha. tauto.
Qed.

Lemma experimental_sort_points_Ok points st' :
  Experimental._sort_points points = Ok st' ->
  exists more,
    sorted_points st' <> [] /\
    Permutation (sorted_points st' ++ more) points.
Proof.
  rewrite experimental_sort_points_after_testing.
  destruct (Testing._sort_points points) as [st | e] eqn:Et;
    cbn [bind]; [| discriminate].
  assert (Hperm : Permutation
            (sorted_points st ++ excluded_points st ++ [_next_point st])
            points).
  { unfold Testing._sort_points in Et.
    destruct points as [|p0 rest]; [discriminate |].
    cbn [start_state py_pop bind] in Et.
    apply sort_loop_perm in Et. exact Et. }
  destruct (py_last (sorted_points st)) as [last_sorted | e] eqn:El;
    cbn [bind]; [| discriminate].
  assert (Hne : sorted_points st <> []).
  { intros E. rewrite E in El. discriminate. }
  destruct (Qle_bool (get_sqr_dist (_next_point st) last_sorted) 200);
    intros H; injection H as <-; cbn [sorted_points].
  - exists (excluded_points st). split.
    + intros E. apply app_eq_nil in E. destruct E; discriminate.
    + rewrite <- Hperm. rewrite <- app_assoc.
      apply Permutation_app_head. apply Permutation_app_comm.
  - exists (excluded_points st ++ [_next_point st]). auto.
Qed.

Open Scope R_scope.

Lemma segment_length_pos p q :
  (0 < get_sqr_dist p q)%Q -> 0 < segment_length p q.
Proof.
  intros H. unfold segment_length. apply sqrt_lt_R0.
  replace 0 with (Q2R 0) by (unfold Q2R; cbn; field).
  now apply Qlt_Rlt.
Qed.

Lemma integrate_from_strict prev rest c :
  apart (prev :: rest) ->
  StronglySorted Rlt (c :: integrate_from prev rest c).
Proof.
  revert prev c; induction rest as [|cur rest IH]; intros prev c Hap.
  - cbn. repeat constructor.
  - cbn [integrate_from]. destruct Hap as [Hprev Hrest].
    pose proof (segment_length_pos prev cur (Forall_inv Hprev)) as Hseg.
    specialize (IH cur (c + segment_length prev cur) Hrest).
    constructor; [exact IH |].
    apply StronglySorted_inv in IH. destruct IH as [_ Hall].
    constructor; [rlra |].
    eapply Forall_impl; [| exact Hall]. cbn. intros r Hr. rlra.
Qed.

Lemma cumulative_distances_strict sorted :
  apart sorted -> StronglySorted Rlt (cumulative_distances sorted).
Proof.
  intros Hap. unfold cumulative_distances.
  destruct sorted as [|first rest]; [repeat constructor |].
  now apply integrate_from_strict.
Qed.

Lemma StronglySorted_map_div_lt (l : list R) (total : R) :
  0 < total -> StronglySorted Rlt l ->
  StronglySorted Rlt (map (fun d => d / total) l).
Proof.
  intros Hpos. induction 1 as [|a l Hl IH Ha]; cbn; constructor; auto.
  apply Forall_map. eapply Forall_impl; [| exact Ha].
  cbn. intros b Hab. unfold Rdiv.
  apply Rmult_lt_compat_r; [now apply Rinv_0_lt_compat | exact Hab].
Qed.

Lemma apart_path_length_pos first second rest :
  apart (first :: second :: rest) -> 0 < path_length first (second :: rest).
Proof.
  intros [Hfirst _]. cbn [path_length].
  pose proof (segment_length_pos first second (Forall_inv Hfirst)).
  pose proof (path_length_nonneg second rest). rlra.
Qed.

Lemma track_of_sorted_Ok sorted t :
  track_of_sorted sorted = Ok t ->
  exists total,
    py_last (cumulative_distances sorted) = Ok total /\
    0 < total /\
    t = mkTrack (map x sorted) (map y sorted) (cumulative_distances sorted)
          (map (fun d => d / total) (cumulative_distances sorted)).
Proof.
  intros H.
  pose proof (py_last_cumulative_distances sorted) as Hlast.
  set (total := match sorted with
                | [] => 0
                | first :: rest => 0 + path_length first rest
                end) in Hlast.
  assert (Htotal : 0 <= total).
  { unfold total. destruct sorted as [|first rest]; [rlra |].
    pose proof (path_length_nonneg first rest). rlra. }
  destruct (Req_dec_T total 0) as [Hz | Hnz].
  - unfold track_of_sorted in H.
    rewrite integrate_distance_zero in H; [discriminate |].
    now rewrite Hlast, Hz.
  - exists total. split; [exact Hlast |]. split; [rlra |].
    assert (Hlen : length (cumulative_distances sorted) = length sorted).
    { destruct sorted as [|first rest]; [unfold total in Hnz; congruence |].
      unfold cumulative_distances. cbn. now rewrite length_integrate_from. }
    unfold track_of_sorted in H.
    rewrite (integrate_distance_ok sorted total Hlast Hnz) in H.
    cbn [bind] in H. unfold DataFrame in H.
    rewrite !length_map, Hlen, !Nat.eqb_refl in H. cbn in H.
    now injection H as <-.
Qed.

(** X18.  A track generated from position data has strictly increasing
    distances: [_unsorted_points_from_pos_data] hands [generate_track]
    points with pairwise different coordinates, so no two neighbours of the
    sorted sequence coincide.  Such a track is well-formed, with [Distance]
    and the normalised distance strictly increasing; generation raises only
    [IndexError] or [ZeroDivisionError], the latter exactly when a single
    point was sorted. *)
Theorem track_from_pos_data_spec (pos_frame : dict (list StatusRow)) :
  (forall t, track_from_pos_data pos_frame = Ok t ->
     well_formed_track t /\
     StronglySorted Rlt (track_Distance t) /\
     StronglySorted Rlt (track_Normalized t)) /\
  (forall e, track_from_pos_data pos_frame = Raise e ->
     e = IndexError \/ e = ZeroDivisionError) /\
  (track_from_pos_data pos_frame = Raise ZeroDivisionError <->
   exists points st,
     _unsorted_points_from_pos_data pos_frame = Ok points /\
     Experimental._sort_points points = Ok st /\
     length (sorted_points st) = 1%nat).
Proof.
  unfold track_from_pos_data.
  pose proof (unsorted_points_apart pos_frame) as Hun.
  destruct (_unsorted_points_from_pos_data pos_frame) as [points | e0] eqn:Eu;
    cbn [bind].
  2:{ split; [discriminate |]. split.
      - intros e H. injection H as <-. left. exact Hun.
      - split; [intros H; injection H as ->; discriminate |].
        intros (points & st & H & _). discriminate. }
  unfold Experimental.generate_track.
  destruct (Experimental._sort_points points) as [st | e1] eqn:Es;
    cbn [bind].
  2:{ pose proof (proj1 (sort_points_raise_IndexError points e1) Es) as ->.
      split; [discriminate |]. split.
      - intros e H. injection H as <-. now left.
      - split; [discriminate |].
        intros (points' & st & H & Hs & _). injection H as <-.
        rewrite Es in Hs. discriminate. }
  destruct (experimental_sort_points_Ok points st Es) as (more & Hne & Hperm).
  assert (Hap : apart (sorted_points st)).
  { apply apart_app_l with more. eapply apart_perm; [| exact Hun].
    symmetry. exact Hperm. }
  destruct (track_of_sorted_cases (sorted_points st))
    as [Ez | (t' & Et & _ & _ & Hwf)].
  - (* one point only *)
    rewrite Ez.
    assert (Hone : length (sorted_points st) = 1%nat).
    { destruct (sorted_points st) as [|first [|second rest]] eqn:E;
        [congruence | reflexivity |].
      exfalso. pose proof (apart_path_length_pos _ _ _ Hap) as Hpos.
      assert (Ht : exists t, track_of_sorted (first :: second :: rest) = Ok t).
      { destruct (track_of_sorted_cases (first :: second :: rest))
          as [Ez' | (t & Et & _)]; [| eauto].
        exfalso. unfold track_of_sorted in Ez'.
        rewrite (integrate_distance_ok _ (0 + path_length first (second :: rest)))
          in Ez'.
        - cbn [bind] in Ez'. unfold DataFrame in Ez'.
          destruct (_ && _)%bool in Ez'; discriminate.
        - apply py_last_cumulative_distances.
        - rlra. }
      destruct Ht as [t Ht]. rewrite Ht in Ez. discriminate. }
    split; [discriminate |]. split.
    + intros e H. injection H as <-. now right.
    + split; [| reflexivity]. intros _. exists points, st. auto.
  - rewrite Et.
    destruct (track_of_sorted_Ok _ _ Et) as (total & Hlast & Hpos & ->).
    split.
    + intros t H. injection H as <-. split; [exact Hwf |].
      cbn [track_Distance track_Normalized].
      pose proof (cumulative_distances_strict _ Hap) as Hs.
      split; [exact Hs | exact (StronglySorted_map_div_lt _ total Hpos Hs)].
    + split; [discriminate |]. split; [discriminate |].
      intros (points' & st' & H & Hs & Hone). injection H as <-.
      rewrite Es in Hs. injection Hs as <-.
      exfalso.
      destruct (sorted_points st) as [|first [|second rest]];
        try discriminate Hone.
      rewrite py_last_cumulative_distances in Hlast.
      injection Hlast as <-. cbn in Hpos. rlra.
Qed.

Lemma track_from_pos_data_square :
  track_from_pos_data square_position
  = Ok (mkTrack (map x unit_square) (map y unit_square)
                [0; 1; 2; 3] [0; 1 / 3; 2 / 3; 1]).
Proof.
  unfold track_from_pos_data.
  replace (_unsorted_points_from_pos_data square_position)
    with (Ok unit_square) by (vm_compute; reflexivity).
  cbn [bind]. exact generate_track_unit_square.
Qed.

Lemma track_from_pos_data_spec_witness :
  track_from_pos_data square_position
  = Ok (mkTrack (map x unit_square) (map y unit_square)
                [0; 1; 2; 3] [0; 1 / 3; 2 / 3; 1]) /\
  StronglySorted Rlt [0; 1; 2; 3].
Proof.
  split; [exact track_from_pos_data_square |].
  destruct (track_from_pos_data_spec square_position) as (Hok & _).
  destruct (Hok _ track_from_pos_data_square) as (_ & Hs & _).
  exact Hs.
Defined.

Close Scope R_scope.

(* ===================================================================== *)
(** ** Further properties: the pool never deadlocks and shuts down clean *)
(* ===================================================================== *)

Section Shutdown.

Variable number_of_processes : nat.
Variable conditions : nat -> String.string -> TrackPoint -> list Q * list Q.
Hypothesis some_process : (0 < number_of_processes)%nat.

Open Scope nat_scope.

Lemma list_sum_map_split {A : Type} (f : A -> nat) l1 a l2 :
  list_sum (map f (l1 ++ a :: l2))
  = list_sum (map f l1) + f a + list_sum (map f l2).
Proof.
  rewrite map_app, list_sum_app.
  change (list_sum (map f (a :: l2))) with (f a + list_sum (map f l2)).
  lia.
Qed.

Lemma list_sum_map_cons {A : Type} (f : A -> nat) a l :
  list_sum (map f (a :: l)) = f a + list_sum (map f l).
Proof. reflexivity. Qed.

Lemma worker_counts ws :
  num_active ws + num_waiting ws + num_returned ws = length ws.
Proof.
  unfold num_active, num_waiting, num_returned.
  induction ws as [|w ws IH]; [reflexivity |].
  change (list_sum (map active (w :: ws)))
    with (active w + list_sum (map active ws)).
  change (list_sum (map waiting (w :: ws)))
    with (waiting w + list_sum (map waiting ws)).
  change (list_sum (map returned (w :: ws)))
    with (returned w + list_sum (map returned ws)).
  cbn [length]. destruct w; cbn [active waiting returned]; lia.
Qed.

Lemma length_set_nth {A : Type} i (a : A) l :
  length (set_nth i a l) = length l.
Proof.
  revert i; induction l as [|b l IH]; intros [|i]; cbn; auto.
Qed.

Lemma repeat_snoc {A : Type} (a : A) k : repeat a k ++ [a] = repeat a (S k).
Proof. symmetry. apply repeat_cons. Qed.

Lemma num_positive (f : worker -> nat) ws :
  0 < list_sum (map f ws) ->
  exists i w, nth_error ws i = Some w /\ 0 < f w.
Proof.
  induction ws as [|w ws IH]; [cbn; lia |].
  change (list_sum (map f (w :: ws))) with (f w + list_sum (map f ws)).
  intros H. destruct (f w) as [|k] eqn:E.
  - destruct (IH H) as (i & w' & Hi & Hw). exists (S i), w'. auto.
  - exists 0, w. split; [reflexivity | lia].
Qed.

(** What the queues hold before the shutdown. *)
Lemma queues_before_shutdown s :
  pool_inv number_of_processes conditions s ->
  match main s with
  | FinalIdle _ | ExitAll _ | JoinAll => True
  | _ => (exists queued markers,
            tasks s = map Work queued ++ repeat IdleTask markers) /\
         exists resumes, resume s = repeat ResumeCmd resumes
  end.
Proof.
  unfold pool_inv. destruct (main s); auto.
  - intros (queued & markers & resumes & _ & _ & _ & H1 & H2 & _). eauto.
  - intros (queued & markers & resumes & _ & _ & _ & H1 & H2 & _). eauto.
  - intros (queued & markers & resumes & _ & _ & _ & H1 & H2 & _). eauto.
  - intros ((H1 & _ & _ & resumes & H2 & _) & _). split; [| eauto].
    exists [], 0. exact H1.
  - intros (running & _ & H1 & _ & _ & resumes & H2 & _). split; [| eauto].
    exists [], 0. exact H1.
Qed.

Lemma sub_step_not_returned i s s' :
  (exists queued markers,
     tasks s = map Work queued ++ repeat IdleTask markers) ->
  (exists resumes, resume s = repeat ResumeCmd resumes) ->
  num_returned (subprocesses s) = 0 ->
  sub_step conditions i s = Some s' ->
  num_returned (subprocesses s') = 0.
Proof.
  intros (queued & markers & Ht) (resumes & Hr) Hret Hstep.
  unfold sub_step in Hstep.
  destruct (nth_error (subprocesses s) i) as [w|] eqn:Hw; [| discriminate].
  destruct (set_nth_split _ _ _ Hw) as (ws1 & ws2 & Hws & Hset).
  unfold num_returned in *. rewrite Hws, list_sum_map_split in Hret.
  destruct w as [res | res t | |].
  - destruct (tasks s) as [|hd rest] eqn:Eq; [discriminate |].
    symmetry in Ht. apply tasks_head in Ht.
    destruct Ht as [(t & q' & _ & -> & _) | (j' & _ & _ & -> & _)];
      injection Hstep as <-; cbn [subprocesses];
      rewrite Hset, list_sum_map_split; cbn [returned] in *; lia.
  - injection Hstep as <-. cbn [subprocesses].
    rewrite Hset, list_sum_map_split. cbn [returned] in *. lia.
  - destruct (resume s) as [|cmd rest] eqn:Eq; [discriminate |].
    destruct resumes as [|resumes']; [discriminate |].
    cbn in Hr. injection Hr as -> ->.
    injection Hstep as <-. cbn [subprocesses].
    rewrite Hset, list_sum_map_split. cbn [returned] in *. lia.
  - discriminate.
Qed.

Lemma sub_step_shutdown pending_idle pending_exit i s s' :
  shutdown_inv pending_idle pending_exit s ->
  sub_step conditions i s = Some s' ->
  shutdown_inv pending_idle pending_exit s'.
Proof.
  intros (markers & resumes & exits & Ht & Hr & Hact & Hwait & Hex) Hstep.
  unfold sub_step in Hstep.
  destruct (nth_error (subprocesses s) i) as [w|] eqn:Hw; [| discriminate].
  destruct (set_nth_split _ _ _ Hw) as (ws1 & ws2 & Hws & Hset).
  unfold shutdown_inv, num_active, num_waiting in *.
  rewrite Hws, !list_sum_map_split in *.
  destruct w as [res | res t | |]; cbn [active waiting] in *.
  - (* takes an idle marker *)
    destruct (tasks s) as [|hd rest] eqn:Eq; [discriminate |].
    destruct markers as [|markers']; [discriminate |].
    cbn in Ht. injection Ht as -> ->.
    injection Hstep as <-. cbn [tasks resume subprocesses].
    exists markers', resumes, exits.
    rewrite Hset, !list_sum_map_split. cbn [active waiting].
    split_conj; auto; lia.
  - (* finishes a task *)
    injection Hstep as <-. cbn [tasks resume subprocesses].
    exists markers, resumes, exits.
    rewrite Hset, !list_sum_map_split. cbn [active waiting].
    split_conj; auto; lia.
  - (* takes a command *)
    destruct (resume s) as [|cmd rest] eqn:Eq; [discriminate |].
    destruct resumes as [|resumes'].
    + destruct exits as [|exits']; [discriminate |].
      cbn in Hr. injection Hr as -> ->.
      injection Hstep as <-. cbn [tasks resume subprocesses].
      exists markers, 0, exits'.
      rewrite Hset, !list_sum_map_split. cbn [active waiting].
      split_conj; auto; lia.
    + cbn in Hr. injection Hr as -> ->.
      injection Hstep as <-. cbn [tasks resume subprocesses].
      exists markers, resumes', exits.
      rewrite Hset, !list_sum_map_split. cbn [active waiting].
      split_conj; auto; lia.
  - discriminate.
Qed.

Lemma sub_step_length i s s' :
  sub_step conditions i s = Some s' ->
  length (subprocesses s') = length (subprocesses s).
Proof.
  unfold sub_step. intros H.
  destruct (nth_error (subprocesses s) i) as [[res | res t | |]|];
    try discriminate.
  - destruct (tasks s) as [|[t | |] rest]; try discriminate;
      injection H as <-; apply length_set_nth.
  - injection H as <-; apply length_set_nth.
  - destruct (resume s) as [|[|] rest]; try discriminate;
      injection H as <-; apply length_set_nth.
Qed.

Lemma sub_step_live i s s' :
  pool_inv number_of_processes conditions s ->
  live_inv number_of_processes s ->
  sub_step conditions i s = Some s' ->
  live_inv number_of_processes s'.
Proof.
  intros Hinv [Hlen Hlive] Hstep. unfold live_inv.
  rewrite (sub_step_length _ _ _ Hstep), (sub_step_main _ _ _ _ Hstep).
  split; [exact Hlen |].
  pose proof (queues_before_shutdown s Hinv) as Hq.
  destruct (main s);
    try (eapply sub_step_shutdown; eassumption);
    destruct Hq; eapply sub_step_not_returned; eauto.
Qed.

Lemma main_step_live s s' :
  pool_inv number_of_processes conditions s ->
  live_inv number_of_processes s ->
  main_step number_of_processes s = Some s' ->
  live_inv number_of_processes s'.
Proof.
  destruct s as [tq iq rq ws m].
  unfold pool_inv, live_inv, main_step.
  cbn [main tasks idling resume subprocesses].
  intros Hinv [Hlen Hlive] Hstep.
  pose proof (worker_counts ws) as Hcount.
  destruct m as [ts [|t todo] later | ts [|k] later | ts count res later
                | ts count res later | [|k] later | [|k] | [|k] | ];
    try (injection Hstep as <-; cbn [main subprocesses];
         split; [exact Hlen | exact Hlive]).
  - (* wait_for_idle *)
    destruct (Nat.eqb count number_of_processes).
    + injection Hstep as <-. cbn [main subprocesses]. auto.
    + destruct iq as [|r iq]; [discriminate |].
      injection Hstep as <-. cbn [main subprocesses]. auto.
  - (* all resume commands put: the next sweep step, or the shutdown *)
    injection Hstep as <-. cbn [subprocesses]. split; [exact Hlen |].
    destruct later as [|step_tasks later]; cbn [next_sweep_step main];
      [| exact Hlive].
    destruct Hinv as (running & Hk & Htasks & _ & _ & resumes & Hresume & Hrun).
    cbn [tasks resume subprocesses] in *.
    exists 0, resumes, 0. cbn [tasks resume subprocesses repeat].
    rewrite app_nil_r. split_conj; auto; lia.
  - (* one more idle marker *)
    injection Hstep as <-. cbn [main subprocesses]. split; [exact Hlen |].
    destruct Hlive as (markers & resumes & exits & Ht & Hr & Hact & Hwait & Hex).
    cbn [tasks resume subprocesses] in *.
    exists (S markers), resumes, exits. cbn [tasks resume subprocesses].
    split_conj; auto; try lia.
    rewrite Ht. apply repeat_snoc.
  - (* one more exit command *)
    injection Hstep as <-. cbn [main subprocesses]. split; [exact Hlen |].
    destruct Hlive as (markers & resumes & exits & Ht & Hr & Hact & Hwait & Hex).
    cbn [tasks resume subprocesses] in *.
    exists markers, resumes, (S exits). cbn [tasks resume subprocesses].
    split_conj; auto; try lia.
    rewrite Hr, <- app_assoc. f_equal. apply repeat_snoc.
  - discriminate.
Qed.

Lemma num_returned_repeat k :
  num_returned (repeat (AtTaskGet []) k) = 0.
Proof.
  unfold num_returned. induction k as [|k IH]; [reflexivity | exact IH].
Qed.

Lemma num_waiting_repeat k :
  num_waiting (repeat (AtTaskGet []) k) = 0.
Proof.
  unfold num_waiting. induction k as [|k IH]; [reflexivity | exact IH].
Qed.

Lemma solve_start_live sweep :
  live_inv number_of_processes (solve_start number_of_processes sweep).
Proof.
  unfold live_inv, solve_start. cbn [subprocesses main].
  split; [apply repeat_length |].
  destruct sweep as [|step_tasks later]; cbn [next_sweep_step];
    [| apply num_returned_repeat].
  exists 0, 0, 0. cbn [tasks resume subprocesses repeat app].
  rewrite num_active_repeat, num_waiting_repeat. split_conj; auto; lia.
Qed.

Lemma reachable_live sweep s :
  reachable number_of_processes conditions sweep s ->
  live_inv number_of_processes s.
Proof.
  induction 1 as [| s a s' Hreach IH Hstep]; [apply solve_start_live |].
  pose proof (reachable_inv number_of_processes conditions some_process
                sweep s Hreach) as Hinv.
  destruct a as [|i]; cbn in Hstep.
  - eapply main_step_live; eauto.
  - eapply sub_step_live; eauto.
Qed.

Lemma active_worker_steps i w s :
  nth_error (subprocesses s) i = Some w ->
  0 < active w -> tasks s <> [] ->
  exists s', sub_step conditions i s = Some s'.
Proof.
  intros Hw Hact Ht. unfold sub_step. rewrite Hw.
  destruct w as [res | res t | |]; cbn in Hact; try lia; [| eauto].
  destruct (tasks s) as [|[t | |] rest]; [congruence | eauto ..].
Qed.

Lemma waiting_worker_steps i w s :
  nth_error (subprocesses s) i = Some w ->
  0 < waiting w -> resume s <> [] ->
  exists s', sub_step conditions i s = Some s'.
Proof.
  intros Hw Hwait Hr. unfold sub_step. rewrite Hw.
  destruct w as [res | res t | |]; cbn in Hwait; try lia.
  destruct (resume s) as [|[|] rest]; [congruence | eauto ..].
Qed.

Lemma all_returned ws :
  num_active ws = 0 -> num_waiting ws = 0 ->
  Forall (fun w => w = Returned) ws.
Proof.
  unfold num_active, num_waiting.
  induction ws as [|w ws IH]; [constructor |].
  change (list_sum (map active (w :: ws)))
    with (active w + list_sum (map active ws)).
  change (list_sum (map waiting (w :: ws)))
    with (waiting w + list_sum (map waiting ws)).
  intros Ha Hw. constructor; [| apply IH; lia].
  destruct w; cbn in Ha, Hw; try lia. reflexivity.
Qed.

Lemma main_blocked s :
  main_step number_of_processes s = None ->
  (exists ts count results later,
     main s = WaitForIdle ts count results later /\
     count <> number_of_processes /\ idling s = []) \/
  main s = JoinAll.
Proof.
  unfold main_step.
  destruct (main s) as [ts [|t todo] later | ts [|k] later
                       | ts count res later | ts count res later
                       | [|k] later | [|k] | [|k] | ];
    try discriminate; [| auto].
  destruct (Nat.eqb_spec count number_of_processes); [discriminate |].
  destruct (idling s); [| discriminate].
  intros _. left. exists ts, count, res, later. auto.
Qed.

(** In every state of every interleaving somebody can take a step,
    except at the end of [solve]. *)
Lemma pool_progress (sweep : list (list task_args)) (s : pool) :
  reachable number_of_processes conditions sweep s ->
  (exists a s', step_of number_of_processes conditions a s = Some s') \/
  all_joined number_of_processes s.
Proof.
  intros Hreach.
  pose proof (reachable_inv number_of_processes conditions some_process
                sweep s Hreach) as Hinv.
  destruct (reachable_live sweep s Hreach) as [Hlen Hlive].
  pose proof (worker_counts (subprocesses s)) as Hcount.
  destruct (main_step number_of_processes s) as [s' |] eqn:Em;
    [left; exists Main, s'; exact Em |].
  apply main_blocked in Em.
  destruct Em as [(ts & count & results & later & Hm & Hne & Hidle) | Hm].
  - (* blocked in wait_for_idle *)
    left. unfold pool_inv in Hinv. rewrite Hm in Hinv, Hlive.
    destruct Hinv as (queued & markers & resumes & _ & _ & _
                      & Ht & Hr & Hact & Hall & _).
    rewrite Hidle in Hall. cbn [length] in Hall.
    assert (Hmark : 0 < markers) by lia.
    assert (Htasks : tasks s <> []).
    { rewrite Ht. destruct markers; [lia |]. cbn [repeat].
      intros E. apply app_eq_nil in E. destruct E; discriminate. }
    destruct (Nat.eq_dec (num_active (subprocesses s)) 0) as [Hz | Hnz].
    + assert (Hw : 0 < list_sum (map waiting (subprocesses s)))
        by (unfold num_waiting in Hcount; lia).
      destruct (num_positive waiting _ Hw) as (i & w & Hi & Hwi).
      destruct (waiting_worker_steps i w s Hi Hwi) as [s' Hs'].
      { rewrite Hr. destruct resumes; [lia | discriminate]. }
      exists (Sub i), s'. exact Hs'.
    + assert (Ha : 0 < list_sum (map active (subprocesses s)))
        by (unfold num_active in Hnz; lia).
      destruct (num_positive active _ Ha) as (i & w & Hi & Hwi).
      destruct (active_worker_steps i w s Hi Hwi Htasks) as [s' Hs'].
      exists (Sub i), s'. exact Hs'.
  - (* in join_all *)
    rewrite Hm in Hlive.
    destruct Hlive as (markers & resumes & exits & Ht & Hr & Hact & Hwait
                       & Hex).
    destruct (Nat.eq_dec (num_active (subprocesses s)) 0) as [Hz | Hnz].
    + destruct (Nat.eq_dec (num_waiting (subprocesses s)) 0) as [Hwz | Hwnz].
      * right. unfold all_joined. split; [exact Hm |]. split; [exact Hlen |].
        split; [now apply all_returned |].
        assert (markers = 0) by lia. assert (resumes = 0) by lia.
        assert (exits = 0) by lia. subst. auto.
      * left.
        assert (Hw : 0 < list_sum (map waiting (subprocesses s)))
          by (unfold num_waiting in Hwnz; lia).
        destruct (num_positive waiting _ Hw) as (i & w & Hi & Hwi).
        destruct (waiting_worker_steps i w s Hi Hwi) as [s' Hs'].
        { rewrite Hr. destruct resumes; [| discriminate].
          destruct exits; [lia | discriminate]. }
        exists (Sub i), s'. exact Hs'.
    + left.
      assert (Ha : 0 < list_sum (map active (subprocesses s)))
        by (unfold num_active in Hnz; lia).
      destruct (num_positive active _ Ha) as (i & w & Hi & Hwi).
      destruct (active_worker_steps i w s Hi Hwi) as [s' Hs'].
      { rewrite Ht. destruct markers; [lia | discriminate]. }
      exists (Sub i), s'. exact Hs'.
Qed.

Lemma main_step_steps_left s s' :
  pool_inv number_of_processes conditions s ->
  main_step number_of_processes s = Some s' ->
  steps_left number_of_processes s' < steps_left number_of_processes s.
Proof.
  destruct s as [tq iq rq ws m].
  unfold pool_inv, main_step, steps_left.
  cbn [main tasks idling resume subprocesses].
  intros Hinv Hstep.
  destruct m as [ts [|t todo] later | ts [|k] later | ts count res later
                | ts count res later | [|k] later | [|k] | [|k] | ];
    try (injection Hstep as <-;
         cbn [main tasks idling resume subprocesses main_fuel length];
         rewrite ?map_app, ?list_sum_app, ?length_app;
         cbn [map list_sum fold_right task_weight length]; lia).
  - (* wait_for_idle *)
    destruct Hinv as (queued & markers & resumes & on_workers & in_reports
      & merged & _ & _ & _ & Hall & _).
    cbn [idling] in Hall.
    destruct (Nat.eqb_spec count number_of_processes) as [-> | Hne].
    + injection Hstep as <-.
      cbn [main tasks idling resume subprocesses main_fuel]. lia.
    + destruct iq as [|r iq]; [discriminate |].
      injection Hstep as <-. cbn [length] in Hall.
      cbn [main tasks idling resume subprocesses main_fuel]. lia.
  - (* the head of the sweep loop *)
    injection Hstep as <-.
    cbn [main tasks idling resume subprocesses main_fuel].
    destruct later as [|step_tasks later];
      cbn [next_sweep_step main_fuel sweep_fuel]; lia.
  - discriminate.
Qed.

Lemma sub_step_steps_left i s s' :
  sub_step conditions i s = Some s' ->
  steps_left number_of_processes s' < steps_left number_of_processes s.
Proof.
  intros Hstep. unfold steps_left.
  rewrite (sub_step_main _ _ _ _ Hstep).
  unfold sub_step in Hstep.
  destruct (nth_error (subprocesses s) i) as [w|] eqn:Hw; [| discriminate].
  destruct (set_nth_split _ _ _ Hw) as (ws1 & ws2 & Hws & Hset).
  rewrite Hws, list_sum_map_split.
  destruct w as [res | res t | |].
  - destruct (tasks s) as [|[t | |] rest]; [discriminate | | |];
      injection Hstep as <-; cbn [tasks idling resume subprocesses];
      rewrite Hset, list_sum_map_split, list_sum_map_cons;
      cbn [task_weight processing]; lia.
  - injection Hstep as <-. cbn [tasks idling resume subprocesses].
    rewrite Hset, list_sum_map_split. cbn [processing]. lia.
  - destruct (resume s) as [|[|] rest]; [discriminate | |];
      injection Hstep as <-; cbn [tasks idling resume subprocesses];
      rewrite Hset, list_sum_map_split; cbn [processing length]; lia.
  - discriminate.
Qed.

Lemma step_steps_left sweep a s s' :
  reachable number_of_processes conditions sweep s ->
  step_of number_of_processes conditions a s = Some s' ->
  steps_left number_of_processes s' < steps_left number_of_processes s.
Proof.
  intros Hreach Hstep. destruct a as [|i]; cbn in Hstep.
  - eapply main_step_steps_left; [| exact Hstep].
    eapply reachable_inv; eauto.
  - eapply sub_step_steps_left; eauto.
Qed.

Lemma run_steps_left sweep schedule s s' :
  reachable number_of_processes conditions sweep s ->
  run number_of_processes conditions schedule s = Some s' ->
  length schedule + steps_left number_of_processes s'
  <= steps_left number_of_processes s.
Proof.
  revert s; induction schedule as [|a schedule IH]; cbn [run length];
    intros s Hreach Hrun.
  - injection Hrun as <-. lia.
  - destruct (step_of number_of_processes conditions a s) as [s1|] eqn:E;
      [| discriminate].
    pose proof (step_steps_left sweep a s s1 Hreach E) as Hlt.
    assert (Hreach1 : reachable number_of_processes conditions sweep s1)
      by (eapply reachable_step; eauto).
    specialize (IH s1 Hreach1 Hrun). lia.
Qed.

Lemma can_finish sweep s :
  reachable number_of_processes conditions sweep s ->
  exists more s_end,
    run number_of_processes conditions more s = Some s_end /\
    all_joined number_of_processes s_end.
Proof.
  remember (steps_left number_of_processes s) as k eqn:Ek.
  revert s Ek. induction k as [k IH] using lt_wf_ind. intros s Ek Hreach.
  destruct (pool_progress sweep s Hreach) as [(a & s1 & Hstep) | Hend].
  - pose proof (step_steps_left sweep a s s1 Hreach Hstep) as Hlt.
    destruct (IH (steps_left number_of_processes s1) ltac:(lia) s1 eq_refl)
      as (more & s_end & Hrun & Hend).
    { eapply reachable_step; eauto. }
    exists (a :: more), s_end. cbn [run]. rewrite Hstep. auto.
  - exists [], s. auto.
Qed.

Lemma steps_left_start sweep :
  steps_left number_of_processes (solve_start number_of_processes sweep)
  = 3 * sweep_fuel number_of_processes sweep.
Proof.
  unfold steps_left, solve_start. cbn [main tasks resume subprocesses].
  assert (Hp : forall k, list_sum (map processing (repeat (AtTaskGet []) k))
                         = 0).
  { induction k as [|k IHk]; [reflexivity | exact IHk]. }
  rewrite Hp. cbn [map list_sum fold_right length].
  destruct sweep as [|step_tasks later];
    cbn [next_sweep_step main_fuel sweep_fuel]; lia.
Qed.

(** X19.  [solve] neither deadlocks nor runs for ever.  Every interleaving
    of the main process and its subprocesses, from the start of the
    subprocesses on, has at most [3 * sweep_fuel] steps; in the state it has
    reached somebody can take a step, unless [solve] is at its end: the main
    process in [join_all], all [number_of_processes] subprocesses returned
    from [run], the task queue and the resume queue empty; and it can be
    continued to that end. *)
Theorem solve_terminates
    (sweep : list (list task_args)) (schedule : list actor) (s : pool) :
  run number_of_processes conditions schedule
      (solve_start number_of_processes sweep) = Some s ->
  length schedule <= 3 * sweep_fuel number_of_processes sweep /\
  ((exists a s', step_of number_of_processes conditions a s = Some s') \/
   all_joined number_of_processes s) /\
  exists more s_end,
    run number_of_processes conditions more s = Some s_end /\
    all_joined number_of_processes s_end.
Proof.
  intros Hrun.
  assert (Hstart : reachable number_of_processes conditions sweep
                     (solve_start number_of_processes sweep))
    by apply reachable_start.
  assert (Hreach : reachable number_of_processes conditions sweep s)
    by (eapply run_reachable; eauto).
  split.
  - pose proof (run_steps_left sweep schedule _ s Hstart Hrun) as Hle.
    rewrite steps_left_start in Hle. lia.
  - split; [now apply pool_progress with sweep |].
    now apply can_finish with sweep.
Qed.

Close Scope nat_scope.

End Shutdown.

Lemma three_tasks_shutdown_run :
  run 2 echo_condition three_tasks_shutdown (solve_start 2 [three_tasks])
  = Some three_tasks_joined.
Proof. vm_compute. reflexivity. Qed.

Lemma solve_terminates_witness :
  (0 < 2)%nat /\
  run 2 echo_condition three_tasks_shutdown (solve_start 2 [three_tasks])
  = Some three_tasks_joined /\
  (length three_tasks_shutdown <= 3 * sweep_fuel 2 [three_tasks])%nat /\
  all_joined 2 three_tasks_joined.
Proof.
  assert (Hpos : (0 < 2)%nat) by lia.
  split; [exact Hpos |]. split; [exact three_tasks_shutdown_run |].
  destruct (solve_terminates 2 echo_condition Hpos [three_tasks]
              three_tasks_shutdown three_tasks_joined
              three_tasks_shutdown_run) as (Hlen & Hstep & _).
  split; [exact Hlen |].
  destruct Hstep as [(a & s' & Hs) | Hend]; [| exact Hend].
  exfalso. destruct a as [|[|[|[|i]]]]; cbn in Hs; discriminate Hs.
Defined.

(* ===================================================================== *)
(** ** Further properties: the results that [solve] reads *)
(* ===================================================================== *)

Section ResultsOfAStep.

Variable number_of_processes : nat.
Variable conditions : nat -> String.string -> TrackPoint -> list Q * list Q.
Hypothesis some_process : (0 < number_of_processes)%nat.

Lemma filter_Permutation {A : Type} (f : A -> bool) (l l' : list A) :
  Permutation l l' -> Permutation (filter f l) (filter f l').
Proof.
  induction 1 as [| a l l' _ IH | a b l | l l' l'' _ IH1 _ IH2]; cbn.
  - constructor.
  - destruct (f a); [now constructor | exact IH].
  - destruct (f a), (f b); try reflexivity. constructor.
  - now transitivity (filter f l').
Qed.

Lemma in_sweep_step_tasks k drivers p t :
  In t (sweep_step_tasks k drivers p) <->
  exists c drv, t = (c, drv, p) /\ (c < k)%nat /\ In drv drivers.
Proof.
  unfold sweep_step_tasks. rewrite in_flat_map. split.
  - intros (c & Hc & Ht). apply in_seq in Hc.
    apply in_map_iff in Ht. destruct Ht as (drv & <- & Hd).
    exists c, drv. split; [reflexivity |]. split; [lia | exact Hd].
  - intros (c & drv & -> & Hc & Hd). exists c. split.
    + apply in_seq. lia.
    + apply in_map_iff. exists drv. auto.
Qed.

Lemma filter_other_condition c c' (drivers : list String.string)
    (p : TrackPoint) :
  c' <> c ->
  filter (fun t : task_args => Nat.eqb (c_index_of t) c)
         (map (fun driver => (c', driver, p)) drivers) = [].
Proof.
  intros Hne. induction drivers as [|d ds IH]; [reflexivity |].
  cbn [map filter c_index_of fst].
  destruct (Nat.eqb_spec c' c); [contradiction | exact IH].
Qed.

Lemma filter_same_condition c (drivers : list String.string)
    (p : TrackPoint) :
  filter (fun t : task_args => Nat.eqb (c_index_of t) c)
         (map (fun driver => (c, driver, p)) drivers)
  = map (fun driver => (c, driver, p)) drivers.
Proof.
  induction drivers as [|d ds IH]; [reflexivity |].
  cbn [map filter c_index_of fst]. rewrite Nat.eqb_refl. now rewrite IH.
Qed.

Lemma filter_sweep_step_skip c start k (drivers : list String.string)
    (p : TrackPoint) :
  (c < start)%nat ->
  filter (fun t : task_args => Nat.eqb (c_index_of t) c)
    (flat_map (fun c_index => map (fun driver => (c_index, driver, p)) drivers)
              (seq start k)) = [].
Proof.
  revert start; induction k as [|k IH]; intros start Hs; [reflexivity |].
  cbn [seq flat_map]. rewrite filter_app, IH by lia.
  rewrite filter_other_condition by lia. reflexivity.
Qed.

Lemma filter_sweep_step c start k (drivers : list String.string)
    (p : TrackPoint) :
  (start <= c < start + k)%nat ->
  filter (fun t : task_args => Nat.eqb (c_index_of t) c)
    (flat_map (fun c_index => map (fun driver => (c_index, driver, p)) drivers)
              (seq start k))
  = map (fun driver => (c, driver, p)) drivers.
Proof.
  revert start; induction k as [|k IH]; intros start Hs; [lia |].
  cbn [seq flat_map]. rewrite filter_app.
  destruct (Nat.eq_dec start c) as [-> | Hne].
  - rewrite filter_sweep_step_skip by lia.
    rewrite filter_same_condition. apply app_nil_r.
  - rewrite IH by lia. rewrite filter_other_condition by exact Hne.
    reflexivity.
Qed.

Lemma gathered_None c order :
  gathered conditions c order = None <->
  forall t, In t order -> c_index_of t <> c.
Proof.
  unfold gathered.
  destruct (filter (fun t => Nat.eqb (c_index_of t) c) order) as [|t0 l] eqn:E.
  - split; [| reflexivity]. intros _ t Ht Hc.
    assert (H : In t (filter (fun t => Nat.eqb (c_index_of t) c) order)).
    { apply filter_In. split; [exact Ht | now apply Nat.eqb_eq]. }
    rewrite E in H. destruct H.
  - split; [discriminate |]. intros H. exfalso.
    assert (Hin : In t0 (filter (fun t => Nat.eqb (c_index_of t) c) order))
      by (rewrite E; now left).
    apply filter_In in Hin. destruct Hin as [Hin Hc].
    apply Nat.eqb_eq in Hc. exact (H t0 Hin Hc).
Qed.

(** X20.  What [solve] finds under [res[c]] when [wait_for_idle] has
    returned: with [number_of_conditions] conditions and the drivers
    [drivers], the lookup raises [KeyError] exactly when [c] is no index of
    a condition or there is no driver; so [res[0]], which [solve] reads
    next, fails exactly without a condition or without a driver.
    Otherwise it finds two lists that hold, in some order of the drivers,
    the outputs of condition [c] for every driver. *)
Theorem results_after_barrier
    (sweep : list (list task_args)) (s : pool)
    (number_of_conditions : nat) (drivers : list String.string)
    (test_point : TrackPoint) (idle_count : nat) (results : results_dict)
    (later : list (list task_args)) (c : nat) :
  reachable number_of_processes conditions sweep s ->
  main s = GotResults
             (sweep_step_tasks number_of_conditions drivers test_point)
             idle_count results later ->
  (results_getitem results c = Raise KeyError <->
   (number_of_conditions <= c)%nat \/ drivers = []) /\
  ((c < number_of_conditions)%nat -> drivers <> [] ->
   exists order,
     Permutation order drivers /\
     results_getitem results c
     = Ok (concat (map (fun drv => fst (conditions c drv test_point)) order),
           concat (map (fun drv => snd (conditions c drv test_point)) order))).
Proof.
  intros Hreach Hmain.
  apply (reachable_inv number_of_processes conditions some_process) in Hreach.
  unfold pool_inv in Hreach. rewrite Hmain in Hreach.
  destruct Hreach as (_ & _ & order & Hperm & Hget).
  unfold results_getitem. rewrite Hget.
  assert (Hnone : gathered conditions c order = None <->
                  (number_of_conditions <= c)%nat \/ drivers = []).
  { rewrite gathered_None. split.
    - intros H. destruct (le_lt_dec number_of_conditions c) as [Hle | Hlt];
        [now left | right].
      destruct drivers as [|drv drivers']; [reflexivity |]. exfalso.
      apply (H (c, drv, test_point)); [| reflexivity].
      eapply Permutation_in; [symmetry; exact Hperm |].
      apply in_sweep_step_tasks. exists c, drv.
      split; [reflexivity |]. split; [exact Hlt | now left].
    - intros Hor t Ht Hc.
      eapply Permutation_in in Ht; [| exact Hperm].
      apply in_sweep_step_tasks in Ht.
      destruct Ht as (c' & drv & -> & Hlt & Hin). cbn in Hc. subst c'.
      destruct Hor as [Hle | ->]; [lia | destruct Hin]. }
  split.
  - rewrite <- Hnone.
    destruct (gathered conditions c order); split; congruence.
  - intros Hlt Hne.
    set (mine := filter (fun t => Nat.eqb (c_index_of t) c) order).
    assert (Hmine : Permutation mine
                      (map (fun drv => (c, drv, test_point)) drivers)).
    { unfold mine.
      rewrite (filter_Permutation _ _ _ Hperm).
      unfold sweep_step_tasks.
      rewrite (filter_sweep_step c 0 number_of_conditions) by lia.
      reflexivity. }
    assert (Hall : Forall (fun t => c_index_of t = c /\ snd t = test_point)
                          mine).
    { apply Forall_forall. intros t Ht.
      eapply Permutation_in in Ht; [| exact Hmine].
      apply in_map_iff in Ht. destruct Ht as (drv & <- & _). auto. }
    exists (map (fun t => snd (fst t)) mine). split.
    + rewrite (Permutation_map (fun t => snd (fst t)) Hmine).
      rewrite map_map. cbn [fst snd]. now rewrite map_id.
    + unfold gathered. fold mine.
      destruct mine as [|t0 l] eqn:Em.
      { exfalso. apply Permutation_nil in Hmine.
        destruct drivers; [congruence | discriminate]. }
      rewrite <- Em in *. f_equal. rewrite !map_map.
      f_equal; f_equal; apply map_ext_Forall;
        (eapply Forall_impl; [| exact Hall]);
        intros [[c' drv] p] [Hc Hp]; cbn in Hc, Hp; subst; reflexivity.
Qed.

End ResultsOfAStep.

Lemma one_condition_run :
  run 2 echo_condition three_tasks_schedule (solve_start 2 [one_condition_tasks])
  = Some one_condition_end.
Proof. vm_compute. reflexivity. Qed.

Lemma results_after_barrier_witness :
  reachable 2 echo_condition [one_condition_tasks] one_condition_end /\
  results_getitem [(0%nat, ([1; 1; 1], [2; 2; 2]))] 1 = Raise KeyError /\
  exists order,
    Permutation order ["a"%string; "b"%string; "c"%string] /\
    results_getitem [(0%nat, ([1; 1; 1], [2; 2; 2]))] 0
    = Ok (concat (map (fun drv => fst (echo_condition 0 drv (pt 1 2))) order),
          concat (map (fun drv => snd (echo_condition 0 drv (pt 1 2))) order)).
Proof.
  assert (Hpos : (0 < 2)%nat) by lia.
  assert (Hreach : reachable 2 echo_condition [one_condition_tasks]
                     one_condition_end).
  { eapply run_reachable; [apply reachable_start | exact one_condition_run]. }
  split; [exact Hreach |].
  split.
  - apply (proj1 (results_after_barrier 2 echo_condition Hpos
                    [one_condition_tasks] one_condition_end 1
                    ["a"%string; "b"%string; "c"%string] (pt 1 2) 2
                    [(0%nat, ([1; 1; 1], [2; 2; 2]))] [] 1%nat
                    Hreach eq_refl)).
    left. lia.
  - apply (proj2 (results_after_barrier 2 echo_condition Hpos
                    [one_condition_tasks] one_condition_end 1
                    ["a"%string; "b"%string; "c"%string] (pt 1 2) 2
                    [(0%nat, ([1; 1; 1], [2; 2; 2]))] [] 0%nat
                    Hreach eq_refl)).
    + lia.
    + discriminate.
Defined.

(* ===================================================================== *)
(** ** Further properties: the exceptions of [for_driver] *)
(* ===================================================================== *)

Lemma interpolate_pos_from_time_raises pos drv query_date e :
  interpolate_pos_from_time pos drv query_date = Raise e ->
  (e = KeyError /\ ~ In drv (map fst pos)) \/
  (e = IndexError /\
   exists rows, getitem pos drv = Ok rows /\ (length rows < 2)%nat) \/
  (e = ZeroDivisionError /\
   exists rows i0 i1 r0 r1,
     getitem pos drv = Ok rows /\ i0 <> i1 /\
     nth_error rows i0 = Some r0 /\ nth_error rows i1 = Some r1 /\
     Date r0 == Date r1).
Proof.
  intros H.
  destruct (getitem pos drv) as [rows | e0] eqn:Hget.
  - destruct (le_lt_dec 2 (length rows)) as [Hlen | Hlen].
    + destruct (interpolate_two_closest pos drv rows query_date Hget Hlen)
        as (i0 & i1 & r0 & r1 & Hne & E0 & E1 & E).
      rewrite E in H. right. right.
      assert (Hzero : e = ZeroDivisionError /\ Date r1 - Date r0 == 0).
      { destruct (q_div_cases ((X r1 - X r0) * (query_date - Date r0))
                              (Date r1 - Date r0)) as [[Hz Ex] | [_ Ex]];
          rewrite Ex in H; cbn [bind] in H; [injection H as <-; auto |].
        destruct (q_div_cases ((Y r1 - Y r0) * (query_date - Date r0))
                              (Date r1 - Date r0)) as [[Hz Ey] | [_ Ey]];
          rewrite Ey in H; cbn [bind] in H; [injection H as <-; auto |].
        discriminate. }
      destruct Hzero as [-> Hz]. split; [reflexivity |].
      exists rows, i0, i1, r0, r1. split_conj; auto. qlra.
    + assert (Hres : interpolate_pos_from_time pos drv query_date
                     = Raise IndexError).
      { unfold interpolate_pos_from_time. rewrite Hget. cbn [bind].
        destruct rows as [|r [|r' rows]]; [reflexivity | reflexivity |].
        cbn in Hlen. lia. }
      rewrite Hres in H. injection H as <-. right. left. eauto.
  - unfold interpolate_pos_from_time in H. rewrite Hget in H.
    cbn [bind] in H. injection H as <-.
    apply getitem_Raise in Hget. destruct Hget as [-> Hn]. auto.
Qed.

(** A lap that is not skipped and whose driver has position data either
    adds nothing, or comes down to the position lookup at the start of the
    lap: nothing else in the body of the loop can fail. *)
Lemma for_lap_usable data drv test_point drv_last_lap lap drv_pos :
  getitem (data_pos data) drv = Ok drv_pos ->
  lap_skipped drv_last_lap lap = false ->
  for_lap data drv test_point drv_last_lap lap = Ok None \/
  exists query_date,
    for_lap data drv test_point drv_last_lap lap =
      (p <- interpolate_pos_from_time (data_track data) drv query_date ;;
       Ok (Some (x p, y p))).
Proof.
  intros Hget Hskip.
  set (approx_time := data_session_start_date data + Time lap).
  set (window := query_window (approx_time - 10) (approx_time + 10) drv_pos).
  set (pts := map point_of_row window).
  set (before := filter (fun p => Qltb (x p) (x test_point)) pts).
  set (after := filter (fun p => negb (Qltb (x p) (x test_point))) pts).
  assert (Hunfold : for_lap data drv test_point drv_last_lap lap =
    if is_empty after || is_empty before then Ok None
    else
      i_a <- min_index (map (get_sqr_dist test_point) before) ;;
      p_a <- py_nth before i_a ;;
      i_b <- min_index (map (get_sqr_dist test_point) after) ;;
      p_b <- py_nth after i_b ;;
      r <- lap_start_point data drv test_point lap p_a p_b ;;
      Ok (Some r)).
  { unfold for_lap. rewrite Hskip, Hget. cbn [bind]. fold approx_time.
    fold window. rewrite split_sides_spec.
    cbn [neg_distances pos_distances pos_points neg_points].
    fold pts. fold before. fold after.
    rewrite !is_empty_map. reflexivity. }
  rewrite Hunfold.
  destruct (is_empty after) eqn:Hea; [left; reflexivity |].
  destruct (is_empty before) eqn:Heb; [left; reflexivity |].
  cbn [orb]. right.
  assert (Hb : before <> []) by (intros E; rewrite E in Heb; discriminate).
  assert (Ha : after <> []) by (intros E; rewrite E in Hea; discriminate).
  destruct (min_index_map_spec (get_sqr_dist test_point) before Hb)
    as (i_a & p_a & Hia & Hpa & _).
  destruct (min_index_map_spec (get_sqr_dist test_point) after Ha)
    as (i_b & p_b & Hib & Hpb & _).
  apply nth_error_In in Hpa as Hina. apply nth_error_In in Hpb as Hinb.
  apply filter_In in Hina. destruct Hina as [Hina Hxa].
  apply filter_In in Hinb. destruct Hinb as [Hinb Hxb].
  apply in_map_iff in Hina. destruct Hina as (ra & Era & Hra).
  apply in_map_iff in Hinb. destruct Hinb as (rb & Erb & Hrb).
  apply Qltb_lt in Hxa. apply negb_true_iff, Qltb_ge in Hxb.
  subst p_a p_b. cbn [point_of_row x] in Hxa, Hxb.
  rewrite Hia. cbn [bind]. unfold py_nth at 1. rewrite Hpa. cbn [bind].
  rewrite Hib. cbn [bind]. unfold py_nth at 1. rewrite Hpb. cbn [bind].
  unfold lap_start_point. cbn [date_number point_of_row date x y bind].
  destruct (q_div_cases ((Date rb - Date ra) * (x test_point - X ra))
                        (X rb - X ra)) as [[H _] | [_ ->]]; [qlra |].
  cbn [bind].
  exists (Date ra
          + (Date rb - Date ra) * (x test_point - X ra) / (X rb - X ra)
          - LastLapTime lap).
  destruct (interpolate_pos_from_time (data_track data) drv _); reflexivity.
Qed.

(** X21.  [for_driver] raises nothing but [KeyError], [IndexError] and
    [ZeroDivisionError], each for one reason: the driver has no position
    data (with the condition or with the track map); the track map has
    fewer than two samples of the driver to interpolate between; two
    samples of the driver have the same timestamp.  Looking for the two
    samples around the candidate point and computing the crossing time
    never fail: the lists searched are not empty, the samples carry a date,
    and the divisor is positive. *)
Theorem for_driver_raises_only
    (data : ConditionData) (drv : String.string) (test_point : TrackPoint)
    (e : exn) :
  for_driver data drv test_point = Raise e ->
  (e = KeyError /\
   (~ In drv (map fst (data_pos data)) \/
    ~ In drv (map fst (data_track data)))) \/
  (e = IndexError /\
   exists rows,
     getitem (data_track data) drv = Ok rows /\ (length rows < 2)%nat) \/
  (e = ZeroDivisionError /\
   exists rows i0 i1 r0 r1,
     getitem (data_track data) drv = Ok rows /\ i0 <> i1 /\
     nth_error rows i0 = Some r0 /\ nth_error rows i1 = Some r1 /\
     Date r0 == Date r1).
Proof.
  unfold for_driver. cbv zeta.
  generalize (column_max
                (map NumberOfLaps
                   (filter (fun lap => String.eqb (Driver lap) drv)
                           (data_laps data)))) as drv_last_lap.
  generalize (filter (fun lap => String.eqb (Driver lap) drv)
                     (data_laps data)) as drv_laps.
  generalize (@nil Q) at 1 as res_x. generalize (@nil Q) as res_y.
  intros res_y res_x drv_laps drv_last_lap. revert res_x res_y.
  induction drv_laps as [|lap laps IH]; intros res_x res_y; cbn [for_laps];
    [discriminate |].
  destruct (for_lap data drv test_point drv_last_lap lap)
    as [[[px py] |] | e0] eqn:E; cbn [bind]; [apply IH | apply IH |].
  intros H. injection H as <-.
  destruct (lap_skipped drv_last_lap lap) eqn:Hskip.
  { rewrite for_lap_skipped in E by exact Hskip. discriminate. }
  destruct (getitem (data_pos data) drv) as [drv_pos | e1] eqn:Hget.
  - destruct (for_lap_usable data drv test_point drv_last_lap lap drv_pos
                Hget Hskip) as [E' | (q & E')];
      rewrite E' in E; [discriminate |].
    destruct (interpolate_pos_from_time (data_track data) drv q)
      as [p | e1] eqn:Ei; cbn [bind] in E; [discriminate |].
    injection E as <-.
    destruct (interpolate_pos_from_time_raises _ _ _ _ Ei)
      as [[-> Hn] | [Hi | Hz]]; auto.
  - unfold for_lap in E. rewrite Hskip, Hget in E. cbn [bind] in E.
    injection E as <-.
    apply getitem_Raise in Hget. destruct Hget as [-> Hn]. auto.
Qed.

Lemma for_driver_no_position :
  for_driver no_position_data "44" (pt 10 0) = Raise KeyError.
Proof. reflexivity. Qed.

Lemma for_driver_raises_only_witness :
  for_driver no_position_data "44" (pt 10 0) = Raise KeyError /\
  (~ In "44"%string (map fst (data_pos no_position_data)) \/
   ~ In "44"%string (map fst (data_track no_position_data))).
Proof.
  split; [exact for_driver_no_position |].
  destruct (for_driver_raises_only no_position_data "44" (pt 10 0) KeyError
              for_driver_no_position) as [[_ H] | [[H _] | [H _]]];
    [exact H | discriminate H | discriminate H].
Defined.
